(** * Flat resolution (Barnes, Lehman, Mulla) -- libs/flats/flat_resolution.hpp

    A shallow embedding of the flat-resolution code of RichDEM and the
    properties of its specification.  Rasters are read and written cell by
    cell, queues are lists used first-in first-out, and the [while] loops of
    the source are iterated with an explicit amount of fuel; each loop comes
    with a bound on the fuel it needs.

    The [int] and [int32_t] values of the source (labels, mask values, loop
    counters) are integers of [Z]: the source never relies on wrap-around,
    and [resolve_flats_barnes_bounded] bounds what the pipeline stores by
    three times the number of cells plus three.  Elevations are an abstract
    type with the two comparisons the source uses, and binary floating-point
    numbers where the source steps them.  The progress and diagnostic
    output is kept only where a result depends on it ([res_log]). *)

From Stdlib Require Import ZArith Lia Bool SpecFloat.
From stdpp Require Import base tactics option numbers list.

Local Open Scope Z_scope.

(** ** Grid cells, neighbour offsets and rasters *)

(** [grid_cell]: a pair of coordinates; [(-1,-1)] is the iteration marker. *)
Abbreviation grid_cell := (Z * Z)%type.

(** Modelled from the spec: the offset tables [dx], [dy] are declared in
    common/grid_cell.hpp, which is not part of the sources at hand; the
    layout is the one drawn above [d8_masked_FlowDir]
    (234 / 105 / 876: index 1 is the western neighbour, indices run
    clockwise, odd indices are cardinal and even ones diagonal). *)
Definition dx_table : list Z := [0; -1; -1; 0; 1; 1; 1; 0; -1].
Definition dy_table : list Z := [0; 0; -1; -1; -1; 0; 1; 1; 1].

Definition dx (n : Z) : Z := nth (Z.to_nat n) dx_table 0.
Definition dy (n : Z) : Z := nth (Z.to_nat n) dy_table 0.

(** The range of [for(int n=1;n<=8;n++)]. *)
Definition d8_range : list Z := [1; 2; 3; 4; 5; 6; 7; 8].

(** Modelled from the spec: [Array2D<T>] is declared in
    common/interface.hpp, which is not part of the sources at hand.  A raster
    has a width, a height, a NoData value and one value per cell. *)
Record Array2D (T : Type) : Type := mkArray2D {
  viewWidth : Z;
  viewHeight : Z;
  noData : T;
  cells : Z -> Z -> T
}.

Arguments mkArray2D {T} _ _ _ _.
Arguments viewWidth {T} _.
Arguments viewHeight {T} _.
Arguments noData {T} _.
Arguments cells {T} _ _ _.

Definition in_grid {T} (a : Array2D T) (x y : Z) : bool :=
  (0 <=? x) && (x <? viewWidth a) && (0 <=? y) && (y <? viewHeight a).

(** [a(x,y)] *)
Definition at2 {T} (a : Array2D T) (c : grid_cell) : T := cells a (fst c) (snd c).

(** [a(x,y)=v] *)
Definition set2 {T} (a : Array2D T) (c : grid_cell) (v : T) : Array2D T :=
  mkArray2D (viewWidth a) (viewHeight a) (noData a)
    (fun x y => if (x =? fst c) && (y =? snd c) then v else cells a x y).

(** [a.init(v)] *)
Definition init {T} (a : Array2D T) (v : T) : Array2D T :=
  mkArray2D (viewWidth a) (viewHeight a) (noData a) (fun _ _ => v).

(** [a.setNoData(v)] *)
Definition setNoData {T} (a : Array2D T) (v : T) : Array2D T :=
  mkArray2D (viewWidth a) (viewHeight a) v (cells a).

(** [a.resize(b)]: take the dimensions of [b]. *)
Definition resize {T U} (a : Array2D T) (b : Array2D U) : Array2D T :=
  mkArray2D (viewWidth b) (viewHeight b) (noData a) (cells a).

(** The cells visited by [for x in [x0,x1) for y in [y0,y1)], in that order. *)
Definition cell_range (x0 x1 y0 y1 : Z) : list grid_cell :=
  x ← seqZ x0 (x1 - x0); y ← seqZ y0 (y1 - y0); [(x, y)].

Definition all_cells {T} (a : Array2D T) : list grid_cell :=
  cell_range 0 (viewWidth a) 0 (viewHeight a).

Definition interior_cells {T} (a : Array2D T) : list grid_cell :=
  cell_range 1 (viewWidth a - 1) 1 (viewHeight a - 1).

Definition neighbour (c : grid_cell) (n : Z) : grid_cell :=
  (fst c + dx n, snd c + dy n).

(** Modelled from the spec: [NO_FLOW] is declared in flowdirs/d8_flowdirs.hpp,
    which is not part of the sources at hand; it is the reserved flow
    direction of a cell without a local gradient. *)
Class FlowDirParams : Type := { NO_FLOW : Z }.

(** The comparisons the templates use on the elevation type [T]:
    [a==b] and [a<b] ([a!=b] is the negation of [a==b]). *)
Class ElevOps (T : Type) : Type := {
  elev_eqb : T -> T -> bool;
  elev_ltb : T -> T -> bool
}.

(** What the proofs need of the comparisons; IEEE comparisons satisfy it
    on elevations that are not NaN. *)
Record ElevLaws (T : Type) `{ElevOps T} : Prop := {
  elev_eqb_refl : forall a, elev_eqb a a = true;
  elev_eqb_sym : forall a b, elev_eqb a b = true -> elev_eqb b a = true;
  elev_eqb_trans : forall a b c,
    elev_eqb a b = true -> elev_eqb b c = true -> elev_eqb a c = true;
  elev_ltb_neq : forall a b, elev_ltb a b = true -> elev_eqb a b = false
}.

#[export] Instance Z_ElevOps : ElevOps Z := {| elev_eqb := Z.eqb; elev_ltb := Z.ltb |}.

#[export] Instance float_ElevOps : ElevOps spec_float :=
  {| elev_eqb := SFeqb; elev_ltb := SFltb |}.

(** ** Outcomes of the loops

    A loop of the source either finishes, or the model runs out of fuel, or
    the source would index [flat_height] out of range or take the front of
    an empty queue. *)
Inductive outcome (A : Type) : Type :=
| Done (a : A)
| OutOfFuel
| IndexOutOfRange
| FrontOfEmpty.

Arguments Done {A} _.
Arguments OutOfFuel {A}.
Arguments IndexOutOfRange {A}.
Arguments FrontOfEmpty {A}.

#[export] Instance outcome_bind : MBind outcome := fun A B k m =>
  match m with
  | Done a => k a
  | OutOfFuel => OutOfFuel
  | IndexOutOfRange => IndexOutOfRange
  | FrontOfEmpty => FrontOfEmpty
  end.

(** [v[i]] and [v[i]=a] on a [std::vector<int>], with the range check the
    source leaves out. *)
Definition vec_get (v : list Z) (i : Z) : option Z :=
  if 0 <=? i then v !! Z.to_nat i else None.

Definition vec_set (v : list Z) (i : Z) (a : Z) : option (list Z) :=
  if (0 <=? i) && (i <? Z.of_nat (length v)) then Some (<[Z.to_nat i := a]> v) else None.

(** The diagnostics written to [std::cerr] that tell the cases apart. *)
Inductive diagnostic : Type :=
| NoOutlets        (* There were flats, but none of them had outlets! *)
| NoFlats          (* There were no flats! *)
| NotAllOutlets.   (* Not all flats have outlets; ... *)

Section FlatResolution.

Context `{FlowDirParams} {T : Type} `{ElevOps T}.

(** ** d8_masked_FlowDir and d8_flow_flats *)

(** One round of the neighbour loop of [d8_masked_FlowDir]; the state is
    [(minimum_elevation, flowdir)]. *)
Definition masked_step (flat_mask labels : Array2D Z) (c : grid_cell)
    (st : Z * Z) (n : Z) : Z * Z :=
  let '(minimum_elevation, flowdir) := st in
  let nc := neighbour c n in
  if negb (at2 labels nc =? at2 labels c) then st
  else if (at2 flat_mask nc <? minimum_elevation)
          || ((at2 flat_mask nc =? minimum_elevation) && (flowdir >? 0)
              && (Z.rem flowdir 2 =? 0) && (Z.rem n 2 =? 1))
  then (at2 flat_mask nc, n)
  else st.

Definition d8_masked_FlowDir (flat_mask labels : Array2D Z) (c : grid_cell) : Z :=
  snd (fold_left (masked_step flat_mask labels c) d8_range (at2 flat_mask c, NO_FLOW)).

(** The body of the two loops of [d8_flow_flats] at one cell. *)
Definition flow_flats_cell (flat_mask labels flowdirs : Array2D Z) (c : grid_cell)
    : Array2D Z :=
  if at2 flat_mask c =? noData flat_mask then flowdirs
  else if at2 flowdirs c =? NO_FLOW
  then set2 flowdirs c (d8_masked_FlowDir flat_mask labels c)
  else flowdirs.

Definition d8_flow_flats (flat_mask labels flowdirs : Array2D Z) : Array2D Z :=
  fold_left (flow_flats_cell flat_mask labels) (interior_cells flat_mask) flowdirs.

(** ** The breadth-first expansions *)

Definition iteration_marker : grid_cell := (-1, -1).

(** The cells pushed by the neighbour loop shared by [BuildAwayGradient] and
    [BuildTowardsCombinedGradient]. *)
Definition flat_pushes (flowdirs labels : Array2D Z) (c : grid_cell) : list grid_cell :=
  filter (fun nc => in_grid labels (fst nc) (snd nc)
                    && (at2 labels nc =? at2 labels c)
                    && (at2 flowdirs nc =? NO_FLOW) = true)
         (map (neighbour c) d8_range).

(** The [while(edges.size()!=1)] loop of [BuildAwayGradient]. *)
Fixpoint away_loop (fuel : nat) (flowdirs labels : Array2D Z)
    (edges : list grid_cell) (loops : Z) (flat_mask : Array2D Z)
    (flat_height : list Z) : outcome (Array2D Z * list Z) :=
  match edges with
  | [] => FrontOfEmpty
  | [_] => Done (flat_mask, flat_height)
  | c :: rest =>
    match fuel with
    | O => OutOfFuel
    | S fuel' =>
      if fst c =? -1 then
        away_loop fuel' flowdirs labels (rest ++ [iteration_marker]) (loops + 1)
                  flat_mask flat_height
      else if at2 flat_mask c >? 0 then
        away_loop fuel' flowdirs labels rest loops flat_mask flat_height
      else
        match vec_set flat_height (at2 labels c) loops with
        | None => IndexOutOfRange
        | Some flat_height' =>
          away_loop fuel' flowdirs labels (rest ++ flat_pushes flowdirs labels c) loops
                    (set2 flat_mask c loops) flat_height'
        end
    end
  end.

Definition BuildAwayGradient (fuel : nat) (flowdirs flat_mask : Array2D Z)
    (edges : list grid_cell) (flat_height : list Z) (labels : Array2D Z)
    : outcome (Array2D Z * list Z) :=
  away_loop fuel flowdirs labels (edges ++ [iteration_marker]) 1 flat_mask flat_height.

(** [flat_mask(x,y)*=-1] over the whole raster. *)
Definition negate_mask (flat_mask : Array2D Z) : Array2D Z :=
  fold_left (fun m c => set2 m c (at2 m c * -1)) (all_cells flat_mask) flat_mask.

(** The [while(edges.size()!=1)] loop of [BuildTowardsCombinedGradient]. *)
Fixpoint towards_loop (fuel : nat) (flowdirs labels : Array2D Z)
    (edges : list grid_cell) (loops : Z) (flat_mask : Array2D Z)
    (flat_height : list Z) : outcome (Array2D Z) :=
  match edges with
  | [] => FrontOfEmpty
  | [_] => Done flat_mask
  | c :: rest =>
    match fuel with
    | O => OutOfFuel
    | S fuel' =>
      if fst c =? -1 then
        towards_loop fuel' flowdirs labels (rest ++ [iteration_marker]) (loops + 1)
                     flat_mask flat_height
      else if at2 flat_mask c >? 0 then
        towards_loop fuel' flowdirs labels rest loops flat_mask flat_height
      else if negb (at2 flat_mask c =? 0) then
        match vec_get flat_height (at2 labels c) with
        | None => IndexOutOfRange
        | Some h =>
          towards_loop fuel' flowdirs labels (rest ++ flat_pushes flowdirs labels c) loops
                       (set2 flat_mask c ((h + at2 flat_mask c) + 2 * loops)) flat_height
        end
      else
        towards_loop fuel' flowdirs labels (rest ++ flat_pushes flowdirs labels c) loops
                     (set2 flat_mask c (2 * loops)) flat_height
    end
  end.

Definition BuildTowardsCombinedGradient (fuel : nat) (flowdirs flat_mask : Array2D Z)
    (edges : list grid_cell) (flat_height : list Z) (labels : Array2D Z)
    : outcome (Array2D Z) :=
  towards_loop fuel flowdirs labels (edges ++ [iteration_marker]) 1
               (negate_mask flat_mask) flat_height.

(** ** label_this *)

Definition fill_pushes (labels : Array2D Z) (c : grid_cell) : list grid_cell :=
  filter (fun nc => in_grid labels (fst nc) (snd nc) = true) (map (neighbour c) d8_range).

(** The [while(to_fill.size()>0)] loop of [label_this]. *)
Fixpoint fill_loop (fuel : nat) (label : Z) (elevations : Array2D T)
    (target_elevation : T) (to_fill : list grid_cell) (labels : Array2D Z)
    : outcome (Array2D Z) :=
  match to_fill with
  | [] => Done labels
  | c :: rest =>
    match fuel with
    | O => OutOfFuel
    | S fuel' =>
      if negb (elev_eqb (at2 elevations c) target_elevation) then
        fill_loop fuel' label elevations target_elevation rest labels
      else if at2 labels c >? 0 then
        fill_loop fuel' label elevations target_elevation rest labels
      else
        fill_loop fuel' label elevations target_elevation
                  (rest ++ fill_pushes labels c) (set2 labels c label)
    end
  end.

Definition label_this (fuel : nat) (c0 : grid_cell) (label : Z)
    (labels : Array2D Z) (elevations : Array2D T) : outcome (Array2D Z) :=
  fill_loop fuel label elevations (at2 elevations c0) [c0] labels.

(** ** find_flat_edges *)

Inductive edge_kind : Type := LowEdge | HighEdge | NoEdge.

(** The neighbour loop of [find_flat_edges], left at the first [break]. *)
Fixpoint scan_edges (flowdirs : Array2D Z) (elevations : Array2D T)
    (c : grid_cell) (ns : list Z) : edge_kind :=
  match ns with
  | [] => NoEdge
  | n :: ns' =>
    let nc := neighbour c n in
    if negb (in_grid flowdirs (fst nc) (snd nc)) then scan_edges flowdirs elevations c ns'
    else if at2 flowdirs nc =? noData flowdirs then scan_edges flowdirs elevations c ns'
    else if negb (at2 flowdirs c =? NO_FLOW) && (at2 flowdirs nc =? NO_FLOW)
            && elev_eqb (at2 elevations nc) (at2 elevations c) then LowEdge
    else if (at2 flowdirs c =? NO_FLOW)
            && elev_ltb (at2 elevations c) (at2 elevations nc) then HighEdge
    else scan_edges flowdirs elevations c ns'
  end.

(** The body of the two outer loops at one cell; the state is
    [(low_edges, high_edges)]. *)
Definition find_edges_cell (flowdirs : Array2D Z) (elevations : Array2D T)
    (st : list grid_cell * list grid_cell) (c : grid_cell)
    : list grid_cell * list grid_cell :=
  if at2 flowdirs c =? noData flowdirs then st
  else match scan_edges flowdirs elevations c d8_range with
       | LowEdge => (fst st ++ [c], snd st)
       | HighEdge => (fst st, snd st ++ [c])
       | NoEdge => st
       end.

Definition find_flat_edges (low_edges high_edges : list grid_cell)
    (flowdirs : Array2D Z) (elevations : Array2D T)
    : list grid_cell * list grid_cell :=
  fold_left (find_edges_cell flowdirs elevations) (all_cells flowdirs)
            (low_edges, high_edges).

(** ** resolve_flats_barnes *)

(** The labelling loop over [low_edges]; returns the final [group_number]
    and the labels. *)
Fixpoint label_flats (fuel : nat) (low_edges : list grid_cell) (group_number : Z)
    (labels : Array2D Z) (elevations : Array2D T) : outcome (Z * Array2D Z) :=
  match low_edges with
  | [] => Done (group_number, labels)
  | i :: rest =>
    if at2 labels i =? 0 then
      labels' ← label_this fuel i group_number labels elevations;
      label_flats fuel rest (group_number + 1) labels' elevations
    else label_flats fuel rest group_number labels elevations
  end.

(** The high edges kept in [temp]. *)
Definition prune_high_edges (labels : Array2D Z) (high_edges : list grid_cell)
    : list grid_cell :=
  filter (fun i => at2 labels i <> 0) high_edges.

(** [templateCopy] copies geo-referencing metadata only, which the model
    does not carry. *)
Definition templateCopy {A B} (a : Array2D A) (b : Array2D B) : Array2D A := a.

Record resolved : Type := mkResolved {
  res_flat_mask : Array2D Z;
  res_labels : Array2D Z;
  res_log : list diagnostic
}.

Definition setup_labels (labels : Array2D Z) (elevations : Array2D T)
    (flowdirs : Array2D Z) : Array2D Z :=
  init (resize (templateCopy labels elevations) flowdirs) 0.

Definition setup_flat_mask (flat_mask : Array2D Z) (elevations : Array2D T) : Array2D Z :=
  setNoData (init (resize (templateCopy flat_mask elevations) elevations) 0) (-1).

Definition resolve_flats_barnes (fuel : nat) (elevations : Array2D T)
    (flowdirs flat_mask labels : Array2D Z) : outcome resolved :=
  let labels := setup_labels labels elevations flowdirs in
  let flat_mask := setup_flat_mask flat_mask elevations in
  let '(low_edges, high_edges) := find_flat_edges [] [] flowdirs elevations in
  if (length low_edges =? 0)%nat then
    Done (mkResolved flat_mask labels
            [if (0 <? length high_edges)%nat then NoOutlets else NoFlats])
  else
    '(group_number, labels) ← label_flats fuel low_edges 1 labels elevations;
    let temp := prune_high_edges labels high_edges in
    let log := if (length temp <? length high_edges)%nat then [NotAllOutlets] else [] in
    let high_edges := temp in
    let flat_height := replicate (Z.to_nat group_number) 0 in
    '(flat_mask, flat_height) ←
        BuildAwayGradient fuel flowdirs flat_mask high_edges flat_height labels;
    flat_mask ←
        BuildTowardsCombinedGradient fuel flowdirs flat_mask low_edges flat_height labels;
    Done (mkResolved flat_mask labels log).

End FlatResolution.

(** ** d8_flats_alter_dem

    The elevation type [U] of the template is [float] or [double]; values of
    both are carried as [spec_float]. *)
Inductive elev_type : Type := Float | Double.

Definition prec_of (ty : elev_type) : Z :=
  match ty with Float => 24 | Double => 53 end.

Definition emax_of (ty : elev_type) : Z :=
  match ty with Float => 128 | Double => 1024 end.

(** Conversion of a value to a format, rounding to nearest even. *)
Definition round_to (ty : elev_type) (v : spec_float) : spec_float :=
  match v with
  | S754_finite s m e => binary_round (prec_of ty) (emax_of ty) s m e
  | _ => v
  end.

(** The conversions the compiler inserts around the call of [nextafterf],
    which takes and returns [float]: none on [Array2D<float>], a rounding to
    [float] and a widening back on [Array2D<double>]. *)
Definition to_float (ty : elev_type) (v : spec_float) : spec_float :=
  match ty with Float => v | Double => round_to Float v end.

Definition of_float (ty : elev_type) (v : spec_float) : spec_float :=
  match ty with Float => v | Double => round_to Double v end.

(** [nextafterf(v,infinity)] *)
Definition nextafterf_up (v : spec_float) : spec_float := SFsucc 24 128 v.

(** The next representable value above [v] in the format of [ty]. *)
Definition next_up (ty : elev_type) (v : spec_float) : spec_float :=
  SFsucc (prec_of ty) (emax_of ty) v.

(** [elevations(x,y)=nextafterf(elevations(x,y),infinity)] *)
Definition raise_once (ty : elev_type) (c : grid_cell)
    (elevations : Array2D spec_float) : Array2D spec_float :=
  set2 elevations c (of_float ty (nextafterf_up (to_float ty (at2 elevations c)))).

(** The body of the two loops of [d8_flats_alter_dem] at one cell; the
    state is the elevations and the cells reported on [std::cerr]. *)
Definition alter_cell (ty : elev_type) (flat_mask labels : Array2D Z)
    (st : Array2D spec_float * list grid_cell) (c : grid_cell)
    : Array2D spec_float * list grid_cell :=
  let '(elevations, reported) := st in
  if at2 labels c =? 0 then st
  else
    let higher :=
      map (fun n => SFltb (at2 elevations (neighbour c n)) (at2 elevations c)) d8_range in
    let elevations := Z.iter (at2 flat_mask c) (raise_once ty c) elevations in
    let invalid :=
      filter (fun nh : Z * bool =>
                negb (at2 labels (neighbour c (fst nh)) =? at2 labels c)
                && negb (SFltb (at2 elevations c) (at2 elevations (neighbour c (fst nh))))
                && negb (snd nh) = true)
             (zip d8_range higher) in
    (elevations, reported ++ map (fun _ => c) invalid).

Definition d8_flats_alter_dem (ty : elev_type) (flat_mask labels : Array2D Z)
    (elevations : Array2D spec_float) : Array2D spec_float * list grid_cell :=
  fold_left (alter_cell ty flat_mask labels) (interior_cells flat_mask) (elevations, []).

(** ** Example rasters *)

(** A raster given by its rows (top row first); cells outside hold [d]. *)
Definition raster_of_rows {A} (w h : Z) (nd d : A) (rows : list (list A)) : Array2D A :=
  mkArray2D w h nd
    (fun x y => if (0 <=? x) && (0 <=? y)
                then nth (Z.to_nat x) (nth (Z.to_nat y) rows []) d else d).

(** Scenario S2 of the specification: a 5x5 plateau with one outlet. *)
Definition S2_elevations : Array2D Z :=
  raster_of_rows 5 5 (-9999) 0
    [[9; 9; 9; 9; 9];
     [9; 5; 5; 5; 9];
     [9; 5; 5; 5; 1];
     [9; 5; 5; 5; 9];
     [9; 9; 9; 9; 9]].

Definition nf0 : FlowDirParams := {| NO_FLOW := 0 |}.

(** Its flow directions: each cell points to its lowest strictly lower
    neighbour, [0] ([NO_FLOW]) where there is none. *)
Definition S2_flowdirs : Array2D Z :=
  raster_of_rows 5 5 (-1) 0
    [[6; 7; 7; 7; 8];
     [5; 0; 0; 6; 7];
     [5; 0; 0; 5; 0];
     [5; 0; 0; 4; 3];
     [4; 3; 3; 3; 2]].

Definition blank : Array2D Z := mkArray2D 0 0 0 (fun _ _ => 0).

(** S5 of the specification: around [(1,1)] the neighbours 2 (north-west)
    and 3 (north) hold the same, smallest mask. *)
Definition S5_mask : Array2D Z :=
  raster_of_rows 3 3 (-1) 0
    [[4; 4; 6];
     [7; 9; 6];
     [8; 8; 8]].

Definition S5_labels : Array2D Z := mkArray2D 3 3 0 (fun _ _ => 1).

Definition S5_flowdirs : Array2D Z := mkArray2D 3 3 (-1) (fun _ _ => 0).

(** ** Notions used to state the properties *)

(** The cells of [cs] that a loop has not marked yet ([lev] is the label
    during labelling and the mask during an expansion). *)
Definition unmarked (lev : grid_cell → Z) (cs : list grid_cell) : nat :=
  length (filter (λ c, lev c ≤ 0) cs).

(** Fuel that is enough for [label_this]: each round either drops a queued
    cell or labels a fresh cell and queues at most eight more. *)
Definition fill_measure (labels : Array2D Z) (to_fill : list grid_cell) : nat :=
  9 * unmarked (at2 labels) (all_cells labels) + length to_fill.

(** Fuel that is enough for an expansion; the last summand pays for the
    round that moves the iteration marker to the back. *)
Definition bfs_measure (labels : Array2D Z) (lev : grid_cell → Z)
    (edges : list grid_cell) : nat :=
  2 * (9 * unmarked lev (all_cells labels) + length edges)
  + match edges with
    | c :: _ => if fst c =? -1 then 1 else 0
    | [] => 0
    end.

(** Fuel that is enough for every loop of [resolve_flats_barnes] on a
    raster with the cells [cs]. *)
Definition fuel_bound (flowdirs : Array2D Z) : nat :=
  20 * length (all_cells flowdirs) + 4.

(** [linked labels c0 c]: [c] is joined to [c0] by a chain of neighbours in
    the grid that all bear the positive label of [c0]. *)
Inductive linked (labels : Array2D Z) (c0 : grid_cell) : grid_cell → Prop :=
| linked_seed :
    0 < at2 labels c0 → in_grid labels (fst c0) (snd c0) = true → linked labels c0 c0
| linked_step p n :
    linked labels c0 p → n ∈ d8_range →
    in_grid labels (fst (neighbour p n)) (snd (neighbour p n)) = true →
    at2 labels (neighbour p n) = at2 labels p →
    linked labels c0 (neighbour p n).

(** The positive labels found in the raster, each once. *)
Definition assigned_labels (labels : Array2D Z) : list Z :=
  remove_dups (filter (λ l, 0 < l) (at2 labels <$> all_cells labels)).

Section Paths.

Context `{FlowDirParams}.
Variables (flowdirs labels : Array2D Z) (seeds : list grid_cell).

(** [walk k c]: [c] is [k] pushes of the neighbour loop away from a seed:
    every hop goes to a neighbour in the grid that bears the label of the
    cell it leaves and has the direction [NO_FLOW]. *)
Inductive walk : nat → grid_cell → Prop :=
| walk_seed s : s ∈ seeds → walk 0 s
| walk_step k p c : walk k p → c ∈ flat_pushes flowdirs labels p → walk (S k) c.

(** [min_hops c k]: the least number of hops from a seed to [c] is [k]. *)
Definition min_hops (c : grid_cell) (k : nat) : Prop :=
  walk k c ∧ ∀ j, (j < k)%nat → ¬ walk j c.

Definition reached (c : grid_cell) : Prop := ∃ k, walk k c.

(** The invariant of an expansion whose queue is [Q1 ++ marker :: Q2] and
    whose counter [loops] is [k+1]; [lev c] is the value of [loops] at which
    [c] was marked, and is not positive for the cells not marked yet. *)
Record bfs_inv (lev : grid_cell → Z) (k : nat) (Q1 Q2 : list grid_cell) : Prop := {
  bfs_grid : ∀ c, c ∈ Q1 ++ Q2 → in_grid labels (fst c) (snd c) = true;
  bfs_lev : ∀ c, 0 < lev c → ∃ j, lev c = Z.of_nat j + 1 ∧ min_hops c j ∧ (j ≤ k)%nat;
  bfs_cur : ∀ c, c ∈ Q1 → walk k c;
  bfs_next : ∀ c, c ∈ Q2 → walk (S k) c;
  bfs_done : ∀ c j, walk j c → (j < k)%nat → 0 < lev c;
  bfs_front : ∀ c, walk k c → 0 < lev c ∨ c ∈ Q1;
  bfs_pushed : ∀ p c, lev p = Z.of_nat k + 1 → c ∈ flat_pushes flowdirs labels p → c ∈ Q2;
  bfs_depth :
    (k + unmarked lev (all_cells labels) ≤ length (all_cells labels))%nat
    ∧ (Q2 ≠ [] → (S k + unmarked lev (all_cells labels) ≤ length (all_cells labels))%nat)
}.

End Paths.

Section FillInvariant.

Context {T : Type} `{ElevOps T}.
Variables (elevations : Array2D T) (labels0 : Array2D Z) (c0 : grid_cell) (label : Z).

(** The invariant of the loop of [label_this] started at [c0] with the
    labels [labels0]: [to_fill] is the queue and [labels] the labels. *)
Record fill_inv (to_fill : list grid_cell) (labels : Array2D Z) : Prop := {
  fill_dims :
    viewWidth labels = viewWidth labels0 ∧ viewHeight labels = viewHeight labels0;
  fill_once : ∀ c, 0 < at2 labels0 c → at2 labels c = at2 labels0 c;
  fill_new : ∀ c,
    at2 labels c = at2 labels0 c
    ∨ (at2 labels c = label ∧ at2 labels0 c ≤ 0
       ∧ in_grid labels0 (fst c) (snd c) = true
       ∧ elev_eqb (at2 elevations c) (at2 elevations c0) = true);
  fill_linked : ∀ c, at2 labels c = label → linked labels c0 c;
  fill_queue : ∀ c, c ∈ to_fill →
    in_grid labels0 (fst c) (snd c) = true
    ∧ (c = c0 ∨ ∃ p n, at2 labels p = label ∧ n ∈ d8_range ∧ c = neighbour p n);
  fill_seed :
    c0 ∈ to_fill ∨ 0 < at2 labels c0
    ∨ elev_eqb (at2 elevations c0) (at2 elevations c0) = false
}.

End FillInvariant.

Section LabelsInvariant.

Context {T : Type} `{ElevOps T}.
Variable elevations : Array2D T.

(** The invariant of the labelling loop of [resolve_flats_barnes]:
    [seeds] are the low edges seen so far. *)
Record labels_inv (seeds : list grid_cell) (group_number : Z) (labels : Array2D Z)
    : Prop := {
  lab_range : ∀ c, 0 ≤ at2 labels c < group_number;
  lab_grid : ∀ c, 0 < at2 labels c → in_grid labels (fst c) (snd c) = true;
  lab_elev : ∀ c c', 0 < at2 labels c → at2 labels c = at2 labels c' →
    elev_eqb (at2 elevations c) (at2 elevations c') = true;
  lab_linked : ∀ c, 0 < at2 labels c → ∃ s, s ∈ seeds ∧ linked labels s c;
  lab_used : ∀ l, 1 ≤ l < group_number → ∃ c, at2 labels c = l;
  lab_seeds : ∀ s, s ∈ seeds → 0 < at2 labels s
}.

End LabelsInvariant.

#[export] Instance edge_kind_eq_dec : EqDecision edge_kind.
Proof. solve_decision. Defined.

(** The queue a cell is pushed to by [find_flat_edges], if any. *)
Definition edge_class `{FlowDirParams} {T : Type} `{ElevOps T}
    (flowdirs : Array2D Z) (elevations : Array2D T) (c : grid_cell) : edge_kind :=
  if at2 flowdirs c =? noData flowdirs then NoEdge
  else scan_edges flowdirs elevations c d8_range.

Section LoopInvariants.

Context `{FlowDirParams}.
Variables (flowdirs labels : Array2D Z) (seeds : list grid_cell).

(** The invariant of the loop of [BuildAwayGradient] started with the mask
    [mask0] and the heights [height0]. *)
Record away_inv (mask0 : Array2D Z) (height0 : list Z) (k : nat)
    (Q1 Q2 : list grid_cell) (flat_mask : Array2D Z) (flat_height : list Z) : Prop := {
  away_bfs : bfs_inv flowdirs labels seeds (at2 flat_mask) k Q1 Q2;
  away_keep : ∀ c, at2 flat_mask c ≤ 0 → at2 flat_mask c = at2 mask0 c;
  away_dims :
    viewWidth flat_mask = viewWidth mask0 ∧ viewHeight flat_mask = viewHeight mask0
    ∧ noData flat_mask = noData mask0;
  away_length : length flat_height = length height0;
  away_max : ∀ c h,
    0 < at2 flat_mask c → vec_get flat_height (at2 labels c) = Some h →
    at2 flat_mask c ≤ h;
  away_hit : ∀ l h, vec_get flat_height l = Some h →
    (vec_get height0 l = Some h ∧ ∀ c, at2 labels c = l → at2 flat_mask c ≤ 0)
    ∨ (∃ c, at2 labels c = l ∧ at2 flat_mask c = h ∧ 0 < h)
}.

(** What [BuildTowardsCombinedGradient] adds to twice the counter when it
    marks [c]; [mask0] is the negated mask. *)
Definition gain (mask0 : Array2D Z) (flat_height : list Z) (c : grid_cell) : Z :=
  if at2 mask0 c =? 0 then 0
  else default 0 (vec_get flat_height (at2 labels c)) + at2 mask0 c.

(** The invariant of the loop of [BuildTowardsCombinedGradient]; [lev c]
    is the value of the counter at which [c] was marked. *)
Record towards_inv (mask0 : Array2D Z) (flat_height : list Z) (lev : grid_cell → Z)
    (k : nat) (Q1 Q2 : list grid_cell) (flat_mask : Array2D Z) : Prop := {
  tw_bfs : bfs_inv flowdirs labels seeds lev k Q1 Q2;
  tw_keep : ∀ c, lev c ≤ 0 → at2 flat_mask c = at2 mask0 c;
  tw_marked : ∀ c, 0 < lev c → at2 flat_mask c = gain mask0 flat_height c + 2 * lev c;
  tw_dims :
    viewWidth flat_mask = viewWidth mask0 ∧ viewHeight flat_mask = viewHeight mask0
    ∧ noData flat_mask = noData mask0
}.

End LoopInvariants.

(** Scenario S3 of the specification: a pit, a flat without an outlet. *)
Definition S3_elevations : Array2D Z :=
  raster_of_rows 5 5 (-9999) 0
    [[9; 9; 9; 9; 9];
     [9; 5; 5; 5; 9];
     [9; 5; 5; 5; 9];
     [9; 5; 5; 5; 9];
     [9; 9; 9; 9; 9]].

Definition S3_flowdirs : Array2D Z :=
  raster_of_rows 5 5 (-1) 0
    [[6; 7; 7; 7; 8];
     [5; 0; 0; 0; 1];
     [5; 0; 0; 0; 1];
     [5; 0; 0; 0; 1];
     [4; 3; 3; 3; 2]].

(** The low edges of S2 and the state of S2 after labelling. *)
Definition S2_low_edges : list grid_cell := [(3, 1); (3, 2); (3, 3)].

Definition S2_high_edges : list grid_cell := [(1, 1); (1, 2); (1, 3); (2, 1); (2, 3)].

Definition S2_labels : Array2D Z :=
  raster_of_rows 5 5 0 0
    [[0; 0; 0; 0; 0];
     [0; 1; 1; 1; 0];
     [0; 1; 1; 1; 0];
     [0; 1; 1; 1; 0];
     [0; 0; 0; 0; 0]].

Definition S2_mask0 : Array2D Z := mkArray2D 5 5 (-1) (λ _ _, 0).

(** ** What the flow directions handed to [resolve_flats_barnes] satisfy

    The flow directions come from [d8_flow_directions], which is not part of
    the sources at hand; the properties below are what the documentation of
    the functions asks of them. *)

(** Neighbours at the same elevation both hold data or both hold none. *)
Definition nodata_apart {T : Type} `{ElevOps T}
    (flowdirs : Array2D Z) (elevations : Array2D T) : Prop :=
  ∀ c n, n ∈ d8_range →
    in_grid flowdirs (fst c) (snd c) = true →
    in_grid flowdirs (fst (neighbour c n)) (snd (neighbour c n)) = true →
    elev_eqb (at2 elevations (neighbour c n)) (at2 elevations c) = true →
    (at2 flowdirs c = noData flowdirs ↔ at2 flowdirs (neighbour c n) = noData flowdirs).

Definition nodata_apartb {T : Type} `{ElevOps T}
    (flowdirs : Array2D Z) (elevations : Array2D T) : bool :=
  forallb (λ c,
    forallb (λ n,
      implb (in_grid flowdirs (fst (neighbour c n)) (snd (neighbour c n))
             && elev_eqb (at2 elevations (neighbour c n)) (at2 elevations c))
            (Bool.eqb (at2 flowdirs c =? noData flowdirs)
                      (at2 flowdirs (neighbour c n) =? noData flowdirs)))
      d8_range)
    (all_cells flowdirs).

(** A cell with a flow direction has a local gradient: a strictly lower
    neighbour. *)
Definition has_gradient `{FlowDirParams} {T : Type} `{ElevOps T}
    (flowdirs : Array2D Z) (elevations : Array2D T) : Prop :=
  ∀ c, in_grid flowdirs (fst c) (snd c) = true →
    at2 flowdirs c ≠ NO_FLOW → at2 flowdirs c ≠ noData flowdirs →
    ∃ n, n ∈ d8_range
         ∧ in_grid flowdirs (fst (neighbour c n)) (snd (neighbour c n)) = true
         ∧ elev_ltb (at2 elevations (neighbour c n)) (at2 elevations c) = true.

Definition has_gradientb `{FlowDirParams} {T : Type} `{ElevOps T}
    (flowdirs : Array2D Z) (elevations : Array2D T) : bool :=
  forallb (λ c,
    (at2 flowdirs c =? NO_FLOW) || (at2 flowdirs c =? noData flowdirs)
    || existsb (λ n,
         in_grid flowdirs (fst (neighbour c n)) (snd (neighbour c n))
         && elev_ltb (at2 elevations (neighbour c n)) (at2 elevations c))
         d8_range)
    (all_cells flowdirs).

(** The index of the opposite neighbour. *)
Definition opposite (n : Z) : Z := if n <=? 4 then n + 4 else n - 4.

(** A flat of [double] elevations 1.0 whose centre is to be raised once. *)
Definition double_one : spec_float := S754_finite false 4503599627370496 (-52).

Definition one_elevations : Array2D spec_float :=
  mkArray2D 3 3 S754_nan (λ _ _, double_one).

Definition one_mask : Array2D Z :=
  raster_of_rows 3 3 (-1) 0 [[0; 0; 0]; [0; 1; 0]; [0; 0; 0]].

Definition one_labels : Array2D Z :=
  raster_of_rows 3 3 0 0 [[0; 0; 0]; [0; 1; 0]; [0; 0; 0]].

(** The state of S2 after [BuildAwayGradient]. *)
Definition S2_away_mask : Array2D Z :=
  raster_of_rows 5 5 (-1) 0
    [[0; 0; 0; 0; 0];
     [0; 1; 1; 0; 0];
     [0; 1; 2; 0; 0];
     [0; 1; 1; 0; 0];
     [0; 0; 0; 0; 0]].

Definition S2_flat_height : list Z := [0; 2].

(** ** Tactics for the scenarios *)

(** Case analysis on membership in an explicit list of cells. *)
Ltac cell_cases H :=
  repeat (apply elem_of_cons in H as [->|H]; [try reflexivity|]);
  try (by apply elem_of_nil in H).

(** The rows of a raster given by rows fit its width and height. *)
Ltac rows_fit := first [ by vm_compute | repeat constructor; by vm_compute ].

(** ** Notions used to state further properties *)

Section MaskedFlowDirInvariant.
Context `{FlowDirParams}.
Variables (flat_mask labels : Array2D Z) (c : grid_cell).

(** What the loop of [d8_masked_FlowDir] has established once it has gone
    through the neighbours [seen], when [NO_FLOW] is not positive. *)
Definition masked_inv (seen : list Z) (st : Z * Z) : Prop :=
  (st.2 = NO_FLOW ∧ st.1 = at2 flat_mask c
   ∧ ∀ n, n ∈ seen → at2 labels (neighbour c n) = at2 labels c →
          at2 flat_mask c ≤ at2 flat_mask (neighbour c n))
  ∨ (st.2 ∈ seen ∧ at2 labels (neighbour c st.2) = at2 labels c
     ∧ at2 flat_mask (neighbour c st.2) = st.1 ∧ st.1 < at2 flat_mask c
     ∧ (∀ n, n ∈ seen → at2 labels (neighbour c n) = at2 labels c →
             st.1 ≤ at2 flat_mask (neighbour c n))
     ∧ (Z.even st.2 = true →
        ∀ n, n ∈ seen → Z.odd n = true → at2 labels (neighbour c n) = at2 labels c →
             st.1 < at2 flat_mask (neighbour c n))).

(** Among the neighbours seen that hold the mask of the candidate and have
    an index of its parity, the candidate has the least index. *)
Definition masked_first (seen : list Z) (st : Z * Z) : Prop :=
  st.2 ∈ seen →
  ∀ n, n ∈ seen → at2 labels (neighbour c n) = at2 labels c →
       at2 flat_mask (neighbour c n) = st.1 → Z.odd n = Z.odd st.2 → st.2 ≤ n.

End MaskedFlowDirInvariant.

Section FlatOfSeed.

Context {T : Type} `{ElevOps T}.
Variables (elevations : Array2D T) (labels0 : Array2D Z) (c0 : grid_cell).

(** [same_flat c]: [c] is joined to the seed [c0] by a chain of neighbours
    in the raster that all lie at the elevation of [c0] and bear no positive
    label in [labels0]. *)
Inductive same_flat : grid_cell → Prop :=
| flat_seed :
    in_grid labels0 (fst c0) (snd c0) = true → at2 labels0 c0 ≤ 0 →
    elev_eqb (at2 elevations c0) (at2 elevations c0) = true → same_flat c0
| flat_step p n :
    same_flat p → n ∈ d8_range →
    in_grid labels0 (fst (neighbour p n)) (snd (neighbour p n)) = true →
    at2 labels0 (neighbour p n) ≤ 0 →
    elev_eqb (at2 elevations (neighbour p n)) (at2 elevations c0) = true →
    same_flat (neighbour p n).

(** What the loop of [label_this] keeps besides [fill_inv]: a neighbour of a
    cell labelled by the fill is queued, or labelled, or at another
    elevation. *)
Definition fill_closed (label : Z) (to_fill : list grid_cell) (labels : Array2D Z)
    : Prop :=
  ∀ p n, at2 labels p = label → n ∈ d8_range →
    in_grid labels0 (fst (neighbour p n)) (snd (neighbour p n)) = true →
    neighbour p n ∈ to_fill ∨ 0 < at2 labels (neighbour p n)
    ∨ elev_eqb (at2 elevations (neighbour p n)) (at2 elevations c0) = false.

End FlatOfSeed.

Section LabelledFlats.

Context {T : Type} `{ElevOps T}.
Variables (elevations : Array2D T).

(** A labelled cell shares its label with its neighbours in the raster that
    lie at its elevation. *)
Definition labels_closed (labels : Array2D Z) : Prop :=
  ∀ c n, 0 < at2 labels c → n ∈ d8_range →
    in_grid labels (fst (neighbour c n)) (snd (neighbour c n)) = true →
    elev_eqb (at2 elevations (neighbour c n)) (at2 elevations c) = true →
    at2 labels (neighbour c n) = at2 labels c.

(** Every label in use has a seed that all cells of the label are linked
    to. *)
Definition labels_seeded (seeds : list grid_cell) (group_number : Z)
    (labels : Array2D Z) : Prop :=
  ∀ l, 1 ≤ l < group_number →
    ∃ s, s ∈ seeds ∧ at2 labels s = l ∧ ∀ c, at2 labels c = l → linked labels s c.

End LabelledFlats.

(** ** Following flow directions *)

(** The cell a cell drains to, and the cell reached after [k] such steps. *)
Definition flow_step (flowdirs : Array2D Z) (c : grid_cell) : grid_cell :=
  neighbour c (at2 flowdirs c).

Fixpoint follow (flowdirs : Array2D Z) (k : nat) (c : grid_cell) : grid_cell :=
  match k with
  | O => c
  | S k' => follow flowdirs k' (flow_step flowdirs c)
  end.

(** ** Further example rasters *)

(** Around [(1,1)] only the north-western neighbour holds a smaller mask. *)
Definition diagonal_mask : Array2D Z :=
  raster_of_rows 3 3 (-1) 0
    [[4; 9; 9];
     [9; 9; 9];
     [9; 9; 9]].

(** The labels of S2 before the labelling. *)
Definition S2_labels0 : Array2D Z := mkArray2D 5 5 0 (λ _ _, 0).

(** A flat of [float] elevations 1.0, and a raster of infinite elevations. *)
Definition float_one : spec_float := S754_finite false 8388608 (-23).

Definition float_one_elevations : Array2D spec_float :=
  mkArray2D 3 3 S754_nan (λ _ _, float_one).

Definition infinite_elevations : Array2D spec_float :=
  mkArray2D 3 3 S754_nan (λ _ _, S754_infinity false).

(** A level raster, to go with the flow directions [S5_flowdirs], which are
    all [NO_FLOW]. *)
Definition level_elevations : Array2D Z := mkArray2D 3 3 (-9999) (λ _ _, 5).
(** * Properties *)

(** ** Rasters and sweeps *)

Lemma at2_set2 {A} (a : Array2D A) (c c' : grid_cell) (v : A) :
  at2 (set2 a c v) c' = if decide (c' = c) then v else at2 a c'.
Proof.
  unfold at2, set2; simpl. destruct c as [x y], c' as [x' y']; simpl.
  case_decide as Hc.
  - inversion Hc; subst. by rewrite !Z.eqb_refl.
  - destruct (Z.eqb_spec x' x), (Z.eqb_spec y' y); simpl; congruence.
Qed.

Lemma at2_set2_eq {A} (a : Array2D A) c v : at2 (set2 a c v) c = v.
Proof. rewrite at2_set2. by case_decide. Qed.

Lemma at2_set2_ne {A} (a : Array2D A) c c' v : c' ≠ c → at2 (set2 a c v) c' = at2 a c'.
Proof. intros. rewrite at2_set2. by case_decide. Qed.

Lemma in_grid_set2 {A} (a : Array2D A) c v x y : in_grid (set2 a c v) x y = in_grid a x y.
Proof. reflexivity. Qed.

Lemma in_grid_spec {A} (a : Array2D A) x y :
  in_grid a x y = true ↔ 0 ≤ x < viewWidth a ∧ 0 ≤ y < viewHeight a.
Proof. unfold in_grid. rewrite !andb_true_iff. lia. Qed.

Lemma elem_of_cell_range x0 x1 y0 y1 (c : grid_cell) :
  c ∈ cell_range x0 x1 y0 y1 ↔ (x0 ≤ fst c < x1) ∧ (y0 ≤ snd c < y1).
Proof.
  unfold cell_range. rewrite list_elem_of_bind. split.
  - intros (x & Hc & Hx). apply list_elem_of_bind in Hc as (y & Hc & Hy).
    apply list_elem_of_singleton in Hc as ->. simpl.
    apply elem_of_seqZ in Hx, Hy. lia.
  - intros [Hx Hy]. exists (fst c). split; [|apply elem_of_seqZ; lia].
    apply list_elem_of_bind. exists (snd c). split; [|apply elem_of_seqZ; lia].
    destruct c. simpl. apply list_elem_of_singleton. reflexivity.
Qed.

Lemma NoDup_cell_range x0 x1 y0 y1 : NoDup (cell_range x0 x1 y0 y1).
Proof.
  unfold cell_range. apply NoDup_bind; [| |apply NoDup_seqZ].
  - intros x x' c _ _ Hc Hc'.
    apply list_elem_of_bind in Hc as (y & Hc & _).
    apply list_elem_of_bind in Hc' as (y' & Hc' & _).
    apply list_elem_of_singleton in Hc, Hc'. congruence.
  - intros x _. apply NoDup_bind; [| |apply NoDup_seqZ].
    + intros y y' c _ _ Hc Hc'. apply list_elem_of_singleton in Hc, Hc'. congruence.
    + intros y _. apply NoDup_singleton.
Qed.

Lemma elem_of_all_cells {A} (a : Array2D A) c :
  c ∈ all_cells a ↔ in_grid a (fst c) (snd c) = true.
Proof. unfold all_cells. rewrite elem_of_cell_range, in_grid_spec. lia. Qed.

(** A sweep whose body at [c] rewrites the value at [c] alone, from that
    value alone, rewrites each swept cell once. *)
Lemma sweep_at {S A} (rd : S → grid_cell → A) (f : S → grid_cell → S)
    (g : grid_cell → A → A) (cs : list grid_cell) :
  (∀ s c c', rd (f s c) c' = if decide (c' = c) then g c (rd s c) else rd s c') →
  NoDup cs →
  ∀ s c', rd (fold_left f cs s) c' = if decide (c' ∈ cs) then g c' (rd s c') else rd s c'.
Proof.
  intros Hf. induction cs as [|c cs IH]; intros Hnd s c'.
  - destruct (decide (c' ∈ [])) as [Hin|]; [|done]. by apply elem_of_nil in Hin.
  - apply NoDup_cons in Hnd as [Hc Hnd]. cbn [fold_left]. rewrite IH by done.
    rewrite !Hf.
    destruct (decide (c' ∈ cs)), (decide (c' = c)), (decide (c' ∈ c :: cs)) as [Hin|Hin];
      subst; try done; rewrite elem_of_cons in Hin; tauto.
Qed.
Section FlowAssigner.
Context `{FlowDirParams}.

Lemma masked_step_spec (flat_mask labels : Array2D Z) c best dir n :
  masked_step flat_mask labels c (best, dir) n =
  if decide (at2 labels (neighbour c n) = at2 labels c
             ∧ (at2 flat_mask (neighbour c n) < best
                ∨ (at2 flat_mask (neighbour c n) = best ∧ 0 < dir
                   ∧ Z.rem dir 2 = 0 ∧ Z.rem n 2 = 1)))
  then (at2 flat_mask (neighbour c n), n) else (best, dir).
Proof.
  unfold masked_step.
  destruct (Z.eqb_spec (at2 labels (neighbour c n)) (at2 labels c));
    destruct (Z.ltb_spec (at2 flat_mask (neighbour c n)) best);
    destruct (Z.eqb_spec (at2 flat_mask (neighbour c n)) best);
    destruct (Z.gtb_spec dir 0);
    destruct (Z.eqb_spec (Z.rem dir 2) 0);
    destruct (Z.eqb_spec (Z.rem n 2) 1); simpl; case_decide; try done; lia.
Qed.

Lemma rem2_even d : 0 < d → Z.rem d 2 = 0 ↔ Z.even d = true.
Proof.
  intros Hd. rewrite Z.rem_mod_nonneg by lia. rewrite Zmod_even.
  destruct (Z.even d); split; intros; congruence || lia.
Qed.

Lemma rem2_odd n : 0 ≤ n → Z.rem n 2 = 1 ↔ Z.odd n = true.
Proof.
  intros Hn. rewrite Z.rem_mod_nonneg by lia. rewrite Zmod_odd.
  destruct (Z.odd n); split; intros; congruence || lia.
Qed.

Lemma masked_step_keep (flat_mask labels : Array2D Z) c m dir n :
  Z.rem dir 2 ≠ 0 →
  (at2 labels (neighbour c n) = at2 labels c → m ≤ at2 flat_mask (neighbour c n)) →
  masked_step flat_mask labels c (m, dir) n = (m, dir).
Proof.
  intros Hd Hn. rewrite masked_step_spec. case_decide as Hc; [|done].
  destruct Hc as [Hl Hc]. specialize (Hn Hl). lia.
Qed.

Lemma d8_masked_FlowDir_S5 (flat_mask labels : Array2D Z) c m :
  at2 labels (neighbour c 2) = at2 labels c →
  at2 labels (neighbour c 3) = at2 labels c →
  at2 flat_mask (neighbour c 2) = m →
  at2 flat_mask (neighbour c 3) = m →
  m < at2 flat_mask c →
  (at2 labels (neighbour c 1) = at2 labels c → m < at2 flat_mask (neighbour c 1)) →
  (∀ n, 4 ≤ n ≤ 8 → at2 labels (neighbour c n) = at2 labels c →
        m ≤ at2 flat_mask (neighbour c n)) →
  d8_masked_FlowDir flat_mask labels c = 3.
Proof.
  intros Hl2 Hl3 Hm2 Hm3 Hc H1 Hrest. unfold d8_masked_FlowDir, d8_range.
  cbn [fold_left].
  assert (∃ b d, masked_step flat_mask labels c (at2 flat_mask c, NO_FLOW) 1 = (b, d)
                 ∧ m < b) as (b & d & -> & Hb).
  { rewrite masked_step_spec. case_decide as Hd; eauto.
    destruct Hd as [Hl _]. eauto. }
  rewrite (masked_step_spec _ _ _ b d 2). rewrite decide_True by (split; [done|lia]).
  rewrite Hm2.
  rewrite (masked_step_spec _ _ _ m 2 3). rewrite decide_True by (rewrite Hm3; auto 10 with lia).
  rewrite Hm3.
  rewrite !masked_step_keep; try done; intros; apply Hrest; done || lia.
Qed.

Lemma flow_flats_cell_at (flat_mask labels flowdirs : Array2D Z) c c' :
  at2 (flow_flats_cell flat_mask labels flowdirs c) c' =
  if decide (c' = c)
  then (if decide (at2 flat_mask c ≠ noData flat_mask ∧ at2 flowdirs c = NO_FLOW)
        then d8_masked_FlowDir flat_mask labels c else at2 flowdirs c)
  else at2 flowdirs c'.
Proof.
  unfold flow_flats_cell.
  destruct (Z.eqb_spec (at2 flat_mask c) (noData flat_mask));
    destruct (Z.eqb_spec (at2 flowdirs c) NO_FLOW);
    rewrite ?at2_set2; repeat case_decide; subst; try done; tauto.
Qed.

Lemma d8_flow_flats_at (flat_mask labels flowdirs : Array2D Z) c :
  at2 (d8_flow_flats flat_mask labels flowdirs) c =
  if decide (c ∈ interior_cells flat_mask
             ∧ at2 flat_mask c ≠ noData flat_mask ∧ at2 flowdirs c = NO_FLOW)
  then d8_masked_FlowDir flat_mask labels c else at2 flowdirs c.
Proof.
  unfold d8_flow_flats.
  rewrite (sweep_at at2 _
    (λ c v, if decide (at2 flat_mask c ≠ noData flat_mask ∧ v = NO_FLOW)
            then d8_masked_FlowDir flat_mask labels c else v)).
  - repeat case_decide; try done; tauto.
  - intros s c0 c'. rewrite flow_flats_cell_at. done.
  - apply NoDup_cell_range.
Qed.

(** C8: in [d8_masked_FlowDir] the candidate is replaced exactly when a
    neighbour of the same flat has a mask strictly below the best one, or
    equal to it while the candidate direction is positive and even and the
    index is odd; with equal smallest masks at the indices 2 and 3 the result
    is direction 3; and [d8_flow_flats] stores that result in every interior
    cell whose mask is not NoData and whose direction is [NO_FLOW], leaving
    the other cells as they are. *)
Theorem d8_masked_FlowDir_tie_break (flat_mask labels flowdirs : Array2D Z) (c : grid_cell) :
  (∀ best dir n, n ∈ d8_range →
     masked_step flat_mask labels c (best, dir) n =
     if decide (at2 labels (neighbour c n) = at2 labels c
                ∧ (at2 flat_mask (neighbour c n) < best
                   ∨ (at2 flat_mask (neighbour c n) = best
                      ∧ 0 < dir ∧ Z.even dir = true ∧ Z.odd n = true)))
     then (at2 flat_mask (neighbour c n), n) else (best, dir))
  ∧ (∀ m,
       at2 labels (neighbour c 2) = at2 labels c →
       at2 labels (neighbour c 3) = at2 labels c →
       at2 flat_mask (neighbour c 2) = m →
       at2 flat_mask (neighbour c 3) = m →
       m < at2 flat_mask c →
       (at2 labels (neighbour c 1) = at2 labels c → m < at2 flat_mask (neighbour c 1)) →
       (∀ n, 4 ≤ n ≤ 8 → at2 labels (neighbour c n) = at2 labels c →
             m ≤ at2 flat_mask (neighbour c n)) →
       d8_masked_FlowDir flat_mask labels c = 3)
  ∧ at2 (d8_flow_flats flat_mask labels flowdirs) c =
    if decide (c ∈ interior_cells flat_mask
               ∧ at2 flat_mask c ≠ noData flat_mask ∧ at2 flowdirs c = NO_FLOW)
    then d8_masked_FlowDir flat_mask labels c else at2 flowdirs c.
Proof.
  split; [|split].
  - intros best dir n Hn. rewrite masked_step_spec.
    assert (0 ≤ n) as Hn0.
    { unfold d8_range in Hn. repeat (apply elem_of_cons in Hn as [->|Hn]; [lia|]).
      by apply elem_of_nil in Hn. }
    apply decide_ext. split; intros [Hl [Hlt|(He & Hd & Hev & Hod)]]; split; auto;
      right; repeat split; auto.
    + by apply rem2_even.
    + by apply rem2_odd.
    + by apply rem2_even.
    + by apply rem2_odd.
  - apply d8_masked_FlowDir_S5.
  - apply d8_flow_flats_at.
Qed.

End FlowAssigner.
Section Labelling.
Context {T : Type} `{ElevOps T}.

Lemma unmarked_le lev cs : (unmarked lev cs ≤ length cs)%nat.
Proof. unfold unmarked. apply length_filter. Qed.

(** Marking one more cell of [cs] lowers the count of unmarked cells. *)
Lemma unmarked_mark (lev lev' : grid_cell → Z) cs c :
  c ∈ cs → lev c ≤ 0 → 0 < lev' c → (∀ c', c' ≠ c → lev' c' = lev c') →
  (unmarked lev' cs < unmarked lev cs)%nat.
Proof.
  intros Hin Hc Hc' Hother. unfold unmarked.
  induction cs as [|a cs IH]; [by apply elem_of_nil in Hin|].
  rewrite !filter_cons. apply elem_of_cons in Hin as [<-|Hin].
  - rewrite decide_False by lia. rewrite decide_True by done. simpl.
    apply Nat.lt_succ_r. clear IH.
    induction cs as [|b cs IH]; [done|]. rewrite !filter_cons.
    destruct (decide (b = c)) as [->|Hb].
    + rewrite decide_False by lia. rewrite decide_True by done. simpl. lia.
    + rewrite Hother by done. case_decide; simpl; lia.
  - specialize (IH Hin). destruct (decide (a = c)) as [->|Ha].
    + rewrite decide_False by lia. rewrite decide_True by done. simpl. lia.
    + rewrite Hother by done. case_decide; simpl; lia.
Qed.

Lemma elem_of_fill_pushes (labels : Array2D Z) c q :
  q ∈ fill_pushes labels c ↔
  in_grid labels (fst q) (snd q) = true ∧ ∃ n, n ∈ d8_range ∧ q = neighbour c n.
Proof.
  unfold fill_pushes. rewrite list_elem_of_filter, list_elem_of_fmap.
  split; intros [Hg (n & Hn1 & Hn2)]; split; eauto.
Qed.

Lemma length_fill_pushes (labels : Array2D Z) c : (length (fill_pushes labels c) ≤ 8)%nat.
Proof.
  unfold fill_pushes. etrans; [apply length_filter|]. by rewrite length_map.
Qed.

(** The rule of the loop of [label_this]: a property kept by each of its
    three kinds of rounds holds when it ends. *)
Lemma fill_loop_rule (P : list grid_cell → Array2D Z → Prop)
    label (elevations : Array2D T) target :
  (∀ c rest L, P (c :: rest) L →
     elev_eqb (at2 elevations c) target = false → P rest L) →
  (∀ c rest L, P (c :: rest) L →
     elev_eqb (at2 elevations c) target = true → 0 < at2 L c → P rest L) →
  (∀ c rest L, P (c :: rest) L →
     elev_eqb (at2 elevations c) target = true → at2 L c ≤ 0 →
     P (rest ++ fill_pushes L c) (set2 L c label)) →
  ∀ fuel q L L', P q L → fill_loop fuel label elevations target q L = Done L' → P [] L'.
Proof.
  intros Hskip1 Hskip2 Hfill. induction fuel as [|fuel IH]; intros q L L' HP Hrun.
  - destruct q; simpl in Hrun; [|done]. by inversion Hrun; subst.
  - destruct q as [|c rest]; simpl in Hrun; [by inversion Hrun; subst|].
    destruct (elev_eqb (at2 elevations c) target) eqn:He; simpl in Hrun.
    + destruct (Z.gtb_spec (at2 L c) 0).
      * eapply IH; [|done]. eapply Hskip2; eauto; lia.
      * eapply IH; [|done]. eapply Hfill; eauto.
    + eapply IH; [|done]. eapply Hskip1; eauto.
Qed.

(** The loop of [label_this] ends within [fill_measure] rounds. *)
Lemma fill_loop_total label (elevations : Array2D T) target fuel :
  ∀ q L, (∀ c, c ∈ q → in_grid L (fst c) (snd c) = true) →
  (0 < label) →
  (fill_measure L q < fuel)%nat →
  ∃ L', fill_loop fuel label elevations target q L = Done L'.
Proof.
  induction fuel as [|fuel IH]; intros q L Hgrid Hlabel Hfuel; [lia|].
  destruct q as [|c rest]; simpl; [eauto|].
  assert (∀ c', c' ∈ rest → in_grid L (fst c') (snd c') = true) as Hrest.
  { intros c' Hc'. apply Hgrid. by apply elem_of_cons; right. }
  unfold fill_measure in *. simpl in Hfuel.
  destruct (elev_eqb (at2 elevations c) target); simpl.
  - destruct (Z.gtb_spec (at2 L c) 0).
    + apply IH; [done|done|]. unfold fill_measure. lia.
    + apply IH; [|done|].
      * intros c' Hc'. apply elem_of_app in Hc' as [Hc'|Hc']; [by apply Hrest|].
        apply elem_of_fill_pushes in Hc' as [Hc' _]. done.
      * unfold fill_measure. rewrite length_app.
        pose proof (length_fill_pushes L c).
        assert (unmarked (at2 (set2 L c label)) (all_cells (set2 L c label))
                < unmarked (at2 L) (all_cells L))%nat; [|lia].
        apply (unmarked_mark _ _ _ c).
        -- apply elem_of_all_cells, Hgrid, elem_of_cons. by left.
        -- done.
        -- rewrite at2_set2_eq. lia.
        -- intros c' Hc'. by rewrite at2_set2_ne.
  - apply IH; [done|done|]. unfold fill_measure. lia.
Qed.

End Labelling.
Section LabelThis.
Context {T : Type} `{ElevOps T}.

Lemma in_grid_dims {A B} (a : Array2D A) (b : Array2D B) x y :
  viewWidth a = viewWidth b → viewHeight a = viewHeight b →
  in_grid a x y = in_grid b x y.
Proof. unfold in_grid. by intros -> ->. Qed.

Lemma linked_pos labels c0 c : linked labels c0 c → 0 < at2 labels c.
Proof. induction 1; [done|]. congruence. Qed.

Lemma linked_label labels c0 c : linked labels c0 c → at2 labels c = at2 labels c0.
Proof. induction 1; [done|]. congruence. Qed.

Lemma linked_in_grid labels c0 c :
  linked labels c0 c → in_grid labels (fst c) (snd c) = true.
Proof. by induction 1. Qed.

(** Chains survive every change of the labels that keeps the positive ones. *)
Lemma linked_mono (labels labels' : Array2D Z) c0 c :
  viewWidth labels' = viewWidth labels → viewHeight labels' = viewHeight labels →
  (∀ x, 0 < at2 labels x → at2 labels' x = at2 labels x) →
  linked labels c0 c → linked labels' c0 c.
Proof.
  intros Hw Hh Hkeep. induction 1 as [Hpos Hg|p n Hp IH Hn Hg Hl].
  - apply linked_seed.
    + rewrite Hkeep; done.
    + by rewrite (in_grid_dims _ labels).
  - apply linked_step; [done|done| |].
    + by rewrite (in_grid_dims _ labels).
    + pose proof (linked_pos _ _ _ Hp). rewrite !Hkeep; [done|done|]. by rewrite Hl.
Qed.

Lemma fill_inv_init (elevations : Array2D T) labels0 c0 label :
  (∀ c, at2 labels0 c < label) →
  in_grid labels0 (fst c0) (snd c0) = true →
  fill_inv elevations labels0 c0 label [c0] labels0.
Proof.
  intros Hfresh Hg. split; [done|done|by left| | |].
  - intros c Hc. specialize (Hfresh c). lia.
  - intros c Hc. apply list_elem_of_singleton in Hc as ->. auto.
  - left. by apply list_elem_of_singleton.
Qed.

Lemma fill_inv_skip (elevations : Array2D T) labels0 c0 label c rest labels :
  fill_inv elevations labels0 c0 label (c :: rest) labels →
  elev_eqb (at2 elevations c) (at2 elevations c0) = false ∨ 0 < at2 labels c →
  fill_inv elevations labels0 c0 label rest labels.
Proof.
  intros [Hd Ho Hn Hl Hq Hs] Hc. split; try done.
  - intros c' Hc'. apply Hq. apply elem_of_cons. by right.
  - destruct Hs as [Hs|Hs]; [|by right].
    apply elem_of_cons in Hs as [->|Hs]; [|by left].
    right. destruct Hc; auto.
Qed.

Lemma fill_inv_fill (elevations : Array2D T) labels0 c0 label c rest labels :
  0 < label → (∀ c, at2 labels0 c < label) →
  fill_inv elevations labels0 c0 label (c :: rest) labels →
  elev_eqb (at2 elevations c) (at2 elevations c0) = true → at2 labels c ≤ 0 →
  fill_inv elevations labels0 c0 label (rest ++ fill_pushes labels c) (set2 labels c label).
Proof.
  intros Hlabel Hfresh [[Hw Hh] Ho Hn Hl Hq Hs] He Hc.
  destruct (Hq c) as [Hcg Hcq]; [by apply elem_of_cons; left|].
  assert (∀ x, 0 < at2 labels x → at2 (set2 labels c label) x = at2 labels x) as Hkeep.
  { intros x Hx. rewrite at2_set2_ne; [done|]. intros ->. lia. }
  assert (at2 labels0 c ≤ 0) as Hc0.
  { destruct (Hn c) as [Hx|[Hx _]]; lia. }
  split.
  - done.
  - intros x Hx. rewrite Hkeep; [by apply Ho|]. rewrite Ho; done.
  - intros x. rewrite at2_set2. case_decide as Hx; [subst; right; done|apply Hn].
  - intros x Hx. rewrite at2_set2 in Hx. case_decide as Hxc.
    + subst x. destruct Hcq as [->|(p & n & Hp & Hn' & ->)].
      * apply linked_seed; [rewrite at2_set2_eq; lia|].
        by rewrite (in_grid_dims _ labels0).
      * apply linked_step; [|done| |].
        -- apply (linked_mono labels); [done|done|done|]. by apply Hl.
        -- by rewrite (in_grid_dims _ labels0).
        -- rewrite at2_set2_eq, Hkeep; lia.
    + apply (linked_mono labels); [done|done|done|]. by apply Hl.
  - intros x Hx. apply elem_of_app in Hx as [Hx|Hx].
    + destruct (Hq x) as [Hxg Hxq]; [by apply elem_of_cons; right|].
      split; [done|]. destruct Hxq as [->|(p & n & Hp & Hn' & ->)]; [by left|].
      right. exists p, n. rewrite Hkeep; [done|lia].
    + apply elem_of_fill_pushes in Hx as (Hxg & n & Hn' & ->).
      split; [by rewrite <- (in_grid_dims labels)|].
      right. exists c, n. by rewrite at2_set2_eq.
  - destruct Hs as [Hs|[Hs|Hs]].
    + apply elem_of_cons in Hs as [->|Hs].
      * right; left. rewrite at2_set2_eq. lia.
      * left. apply elem_of_app. by left.
    + right; left. rewrite Hkeep; done.
    + by right; right.
Qed.

(** What [label_this] leaves behind. *)
Lemma label_this_post (elevations : Array2D T) labels0 c0 label fuel labels' :
  0 < label → (∀ c, at2 labels0 c < label) →
  in_grid labels0 (fst c0) (snd c0) = true →
  label_this fuel c0 label labels0 elevations = Done labels' →
  fill_inv elevations labels0 c0 label [] labels'.
Proof.
  intros Hlabel Hfresh Hg Hrun. unfold label_this in Hrun.
  eapply (fill_loop_rule (fill_inv elevations labels0 c0 label)); [| | | |exact Hrun].
  - intros. eapply fill_inv_skip; eauto.
  - intros. eapply fill_inv_skip; eauto.
  - intros. eapply fill_inv_fill; eauto.
  - by apply fill_inv_init.
Qed.

Lemma label_this_total (elevations : Array2D T) labels0 c0 label fuel :
  0 < label → in_grid labels0 (fst c0) (snd c0) = true →
  (9 * length (all_cells labels0) + 1 < fuel)%nat →
  ∃ labels', label_this fuel c0 label labels0 elevations = Done labels'.
Proof.
  intros Hlabel Hg Hfuel. apply fill_loop_total; [|done|].
  - intros c Hc. by apply list_elem_of_singleton in Hc as ->.
  - unfold fill_measure. pose proof (unmarked_le (at2 labels0) (all_cells labels0)).
    simpl. lia.
Qed.

End LabelThis.
Section LabelFlats.
Context {T : Type} `{ElevOps T}.

Lemma labels_inv_fill (elevations : Array2D T) seeds g labels s fuel labels' :
  ElevLaws T → 1 ≤ g →
  labels_inv elevations seeds g labels →
  in_grid labels (fst s) (snd s) = true → at2 labels s = 0 →
  label_this fuel s g labels elevations = Done labels' →
  labels_inv elevations (seeds ++ [s]) (g + 1) labels'.
Proof.
  intros Laws Hg [Hr Hgr He Hl Hu Hs] Hsg Hs0 Hrun.
  apply label_this_post in Hrun as [[Hw Hh] Ho Hn Hlk _ Hseed];
    [|lia|intros c; specialize (Hr c); lia|done].
  assert (∀ c, 0 < at2 labels' c → at2 labels' c ≠ g → 0 < at2 labels c
               ∧ at2 labels' c = at2 labels c) as Hold.
  { intros c Hc Hcg. destruct (Hn c) as [Hx|[Hx _]]; [|done]. split; [lia|done]. }
  assert (at2 labels' s = g) as Hsl.
  { destruct Hseed as [Hx|[Hx|Hx]].
    - by apply elem_of_nil in Hx.
    - destruct (Hn s) as [Hy|[Hy _]]; [lia|done].
    - by rewrite (elev_eqb_refl _ Laws) in Hx. }
  split.
  - intros c. specialize (Hr c). destruct (Hn c) as [Hx|[Hx _]]; lia.
  - intros c Hc. rewrite (in_grid_dims _ labels) by done.
    destruct (Hn c) as [Hx|(_ & _ & Hx & _)]; [|done]. apply Hgr. lia.
  - intros c c' Hc Hcc. destruct (decide (at2 labels' c = g)) as [Hcg|Hcg].
    + destruct (Hn c) as [Hx|(_ & _ & _ & Hx)]; [specialize (Hr c); lia|].
      destruct (Hn c') as [Hx'|(_ & _ & _ & Hx')]; [specialize (Hr c'); lia|].
      eapply elev_eqb_trans; [done|exact Hx|]. by apply elev_eqb_sym.
    + destruct (Hold c) as [Hc1 Hc2]; [done|done|].
      destruct (Hold c') as [Hc1' Hc2']; [lia|lia|]. apply He; [done|lia].
  - intros c Hc. destruct (decide (at2 labels' c = g)) as [Hcg|Hcg].
    + exists s. split; [apply elem_of_app; right; by apply list_elem_of_singleton|].
      by apply Hlk.
    + destruct (Hold c) as [Hc1 Hc2]; [done|done|].
      destruct (Hl c Hc1) as (s0 & Hs0' & Hlink). exists s0.
      split; [apply elem_of_app; by left|].
      apply (linked_mono labels); [done|done| |done].
      intros x Hx. by apply Ho.
  - intros l Hlr. destruct (decide (l = g)) as [->|Hne]; [by exists s|].
    destruct (Hu l) as [c Hc]; [lia|]. exists c. rewrite Ho; lia.
  - intros s0 Hin. apply elem_of_app in Hin as [Hin|Hin].
    + specialize (Hs _ Hin). rewrite Ho; done.
    + apply list_elem_of_singleton in Hin as ->. lia.
Qed.

Lemma labels_inv_seen (elevations : Array2D T) seeds g labels s :
  labels_inv elevations seeds g labels → at2 labels s ≠ 0 →
  labels_inv elevations (seeds ++ [s]) g labels.
Proof.
  intros [Hr Hgr He Hl Hu Hs] Hs0. split; try done.
  - intros c Hc. destruct (Hl c Hc) as (s0 & Hin & Hlk). exists s0.
    split; [apply elem_of_app; by left|done].
  - intros s0 Hin. apply elem_of_app in Hin as [Hin|Hin]; [by apply Hs|].
    apply list_elem_of_singleton in Hin as ->. specialize (Hr s). lia.
Qed.

(** The labelling loop keeps its invariant. *)
Lemma label_flats_inv (elevations : Array2D T) fuel low :
  ElevLaws T →
  ∀ seeds g labels g' labels',
  1 ≤ g → labels_inv elevations seeds g labels →
  (∀ s, s ∈ low → in_grid labels (fst s) (snd s) = true) →
  label_flats fuel low g labels elevations = Done (g', labels') →
  labels_inv elevations (seeds ++ low) g' labels'
  ∧ g ≤ g'
  ∧ viewWidth labels' = viewWidth labels ∧ viewHeight labels' = viewHeight labels.
Proof.
  intros Laws. induction low as [|s low IH]; intros seeds g labels g' labels' Hg Hinv Hgrid Hrun.
  - simpl in Hrun. inversion Hrun; subst. by rewrite app_nil_r.
  - simpl in Hrun. assert (in_grid labels (fst s) (snd s) = true) as Hs.
    { apply Hgrid, elem_of_cons. by left. }
    replace (seeds ++ s :: low) with ((seeds ++ [s]) ++ low) by by rewrite <- app_assoc.
    destruct (Z.eqb_spec (at2 labels s) 0) as [Hs0|Hs0].
    + destruct (label_this fuel s g labels elevations) as [labels1| | |] eqn:Hfill;
        try done. simpl in Hrun.
      pose proof (label_this_post elevations labels s g fuel labels1 ltac:(lia)
        ltac:(intros c; pose proof (lab_range _ _ _ _ Hinv c); lia) Hs Hfill) as [[Hw Hh] _ _ _ _ _].
      apply (IH (seeds ++ [s])) in Hrun as (Hinv' & Hg' & Hw' & Hh'); [|lia| |].
      * split; [done|]. split; [lia|]. split; congruence.
      * eapply labels_inv_fill; eauto.
      * intros s' Hs'. rewrite (in_grid_dims _ labels) by done.
        apply Hgrid, elem_of_cons. by right.
    + apply (IH (seeds ++ [s])) in Hrun as (Hinv' & Hg' & Hw' & Hh'); [done|lia| |].
      * by apply labels_inv_seen.
      * intros s' Hs'. apply Hgrid, elem_of_cons. by right.
Qed.

(** Without any assumption on the comparisons: labels stay below
    [group_number] and positive labels are kept. *)
Lemma label_flats_range (elevations : Array2D T) fuel low :
  ∀ g labels g' labels',
  1 ≤ g → (∀ c, 0 ≤ at2 labels c < g) →
  (∀ s, s ∈ low → in_grid labels (fst s) (snd s) = true) →
  label_flats fuel low g labels elevations = Done (g', labels') →
  (∀ c, 0 ≤ at2 labels' c < g') ∧ g ≤ g'
  ∧ (∀ c, 0 < at2 labels c → at2 labels' c = at2 labels c)
  ∧ viewWidth labels' = viewWidth labels ∧ viewHeight labels' = viewHeight labels.
Proof.
  induction low as [|s low IH]; intros g labels g' labels' Hg Hr Hgrid Hrun.
  - simpl in Hrun. inversion Hrun; subst. repeat split; try done; apply Hr.
  - simpl in Hrun. assert (in_grid labels (fst s) (snd s) = true) as Hs.
    { apply Hgrid, elem_of_cons. by left. }
    destruct (Z.eqb_spec (at2 labels s) 0) as [Hs0|Hs0].
    + destruct (label_this fuel s g labels elevations) as [labels1| | |] eqn:Hfill;
        try done. simpl in Hrun.
      pose proof (label_this_post elevations labels s g fuel labels1 ltac:(lia)
        ltac:(intros c; pose proof (Hr c); lia) Hs Hfill) as [[Hw Hh] Ho Hn _ _ _].
      apply IH in Hrun as (Hr' & Hg' & Hkeep & Hw' & Hh'); [|lia| |].
      * split; [done|]. split; [lia|]. split; [|split; congruence].
        intros c Hc. rewrite Hkeep; rewrite Ho; done.
      * intros c. specialize (Hr c). destruct (Hn c) as [Hx|[Hx _]]; lia.
      * intros s' Hs'. rewrite (in_grid_dims _ labels) by done.
        apply Hgrid, elem_of_cons. by right.
    + apply IH in Hrun as (Hr' & Hg' & Hkeep & Hw' & Hh'); [done|lia|done|].
      intros s' Hs'. apply Hgrid, elem_of_cons. by right.
Qed.

Lemma label_flats_total (elevations : Array2D T) fuel low :
  ∀ g labels,
  1 ≤ g → (∀ c, 0 ≤ at2 labels c < g) →
  (∀ s, s ∈ low → in_grid labels (fst s) (snd s) = true) →
  (9 * length (all_cells labels) + 1 < fuel)%nat →
  ∃ g' labels', label_flats fuel low g labels elevations = Done (g', labels').
Proof.
  induction low as [|s low IH]; intros g labels Hg Hr Hgrid Hfuel; simpl; [eauto|].
  assert (in_grid labels (fst s) (snd s) = true) as Hs.
  { apply Hgrid, elem_of_cons. by left. }
  destruct (Z.eqb_spec (at2 labels s) 0) as [Hs0|Hs0].
  - destruct (label_this_total elevations labels s g fuel) as [labels1 Hfill];
      [lia|done|done|]. rewrite Hfill. simpl.
    pose proof (label_this_post elevations labels s g fuel labels1 ltac:(lia)
      ltac:(intros c; pose proof (Hr c); lia) Hs Hfill) as [[Hw Hh] Ho Hn _ _ _].
    apply IH; [lia| | |].
    + intros c. specialize (Hr c). destruct (Hn c) as [Hx|[Hx _]]; lia.
    + intros s' Hs'. rewrite (in_grid_dims _ labels) by done.
      apply Hgrid, elem_of_cons. by right.
    + unfold all_cells in *. by rewrite Hw, Hh.
  - apply IH; [done|done| |done]. intros s' Hs'. apply Hgrid, elem_of_cons. by right.
Qed.

End LabelFlats.
Section FindFlatEdges.
Context `{FlowDirParams} {T : Type} `{ElevOps T}.

Lemma find_edges_cell_class (flowdirs : Array2D Z) (elevations : Array2D T) st c :
  find_edges_cell flowdirs elevations st c =
  match edge_class flowdirs elevations c with
  | LowEdge => (st.1 ++ [c], st.2)
  | HighEdge => (st.1, st.2 ++ [c])
  | NoEdge => st
  end.
Proof. unfold find_edges_cell, edge_class. by case_match. Qed.

Lemma find_flat_edges_filter (flowdirs : Array2D Z) (elevations : Array2D T) cs :
  ∀ low high,
  fold_left (find_edges_cell flowdirs elevations) cs (low, high) =
  (low ++ filter (λ c, edge_class flowdirs elevations c = LowEdge) cs,
   high ++ filter (λ c, edge_class flowdirs elevations c = HighEdge) cs).
Proof.
  induction cs as [|c cs IH]; intros low high; simpl.
  - by rewrite !app_nil_r.
  - rewrite !filter_cons, find_edges_cell_class.
    destruct (edge_class flowdirs elevations c) eqn:Hc; simpl; rewrite IH;
      rewrite ?decide_True by done; rewrite ?decide_False by done;
      by rewrite <- ?app_assoc.
Qed.

Lemma find_flat_edges_spec (flowdirs : Array2D Z) (elevations : Array2D T) :
  find_flat_edges [] [] flowdirs elevations =
  (filter (λ c, edge_class flowdirs elevations c = LowEdge) (all_cells flowdirs),
   filter (λ c, edge_class flowdirs elevations c = HighEdge) (all_cells flowdirs)).
Proof. unfold find_flat_edges. by rewrite find_flat_edges_filter. Qed.

Lemma scan_edges_low (flowdirs : Array2D Z) (elevations : Array2D T) c ns :
  scan_edges flowdirs elevations c ns = LowEdge → at2 flowdirs c ≠ NO_FLOW.
Proof.
  induction ns as [|n ns IH]; simpl; [done|].
  repeat (case_match; try done); intros _; destruct (Z.eqb_spec (at2 flowdirs c) NO_FLOW);
    simpl in *; done.
Qed.

Lemma scan_edges_high (flowdirs : Array2D Z) (elevations : Array2D T) c ns :
  scan_edges flowdirs elevations c ns = HighEdge → at2 flowdirs c = NO_FLOW.
Proof.
  induction ns as [|n ns IH]; simpl; [done|].
  repeat (case_match; try done); intros _; destruct (Z.eqb_spec (at2 flowdirs c) NO_FLOW);
    simpl in *; done.
Qed.

(** A cell with a flow direction beside a cell without one, at the same
    elevation, is classified as a low edge. *)
Lemma scan_edges_complete (flowdirs : Array2D Z) (elevations : Array2D T) c ns n :
  at2 flowdirs c ≠ NO_FLOW → n ∈ ns →
  in_grid flowdirs (fst (neighbour c n)) (snd (neighbour c n)) = true →
  at2 flowdirs (neighbour c n) ≠ noData flowdirs →
  at2 flowdirs (neighbour c n) = NO_FLOW →
  elev_eqb (at2 elevations (neighbour c n)) (at2 elevations c) = true →
  scan_edges flowdirs elevations c ns = LowEdge.
Proof.
  intros Hc Hn Hg Hnd Hnf He. induction ns as [|m ns IH]; [by apply elem_of_nil in Hn|].
  cbn [scan_edges]. destruct (Z.eqb_spec (at2 flowdirs c) NO_FLOW) as [|_]; [done|].
  cbn [negb andb]. apply elem_of_cons in Hn as [<-|Hn].
  - rewrite Hg. cbn [negb].
    destruct (Z.eqb_spec (at2 flowdirs (neighbour c n)) (noData flowdirs)); [done|].
    destruct (Z.eqb_spec (at2 flowdirs (neighbour c n)) NO_FLOW); [|done].
    by rewrite He.
  - rewrite (IH Hn). by repeat case_match.
Qed.

Lemma elem_of_low_edges (flowdirs : Array2D Z) (elevations : Array2D T) c :
  c ∈ (find_flat_edges [] [] flowdirs elevations).1 ↔
  in_grid flowdirs (fst c) (snd c) = true ∧ edge_class flowdirs elevations c = LowEdge.
Proof.
  rewrite find_flat_edges_spec. simpl. rewrite list_elem_of_filter, elem_of_all_cells. tauto.
Qed.

Lemma elem_of_high_edges (flowdirs : Array2D Z) (elevations : Array2D T) c :
  c ∈ (find_flat_edges [] [] flowdirs elevations).2 ↔
  in_grid flowdirs (fst c) (snd c) = true ∧ edge_class flowdirs elevations c = HighEdge.
Proof.
  rewrite find_flat_edges_spec. simpl. rewrite list_elem_of_filter, elem_of_all_cells. tauto.
Qed.

Lemma low_edge_has_flow (flowdirs : Array2D Z) (elevations : Array2D T) c :
  edge_class flowdirs elevations c = LowEdge → at2 flowdirs c ≠ NO_FLOW.
Proof. unfold edge_class. case_match; [done|]. apply scan_edges_low. Qed.

Lemma high_edge_no_flow (flowdirs : Array2D Z) (elevations : Array2D T) c :
  edge_class flowdirs elevations c = HighEdge → at2 flowdirs c = NO_FLOW.
Proof. unfold edge_class. case_match; [done|]. apply scan_edges_high. Qed.

Lemma length_edges (flowdirs : Array2D Z) (elevations : Array2D T) :
  (length (find_flat_edges [] [] flowdirs elevations).1 ≤ length (all_cells flowdirs))%nat
  ∧ (length (find_flat_edges [] [] flowdirs elevations).2 ≤ length (all_cells flowdirs))%nat.
Proof. rewrite find_flat_edges_spec. simpl. split; apply length_filter. Qed.

End FindFlatEdges.
Section Expansion.
Context `{FlowDirParams}.
Variables (flowdirs labels : Array2D Z) (seeds : list grid_cell).

Lemma elem_of_flat_pushes p c :
  c ∈ flat_pushes flowdirs labels p ↔
  in_grid labels (fst c) (snd c) = true ∧ at2 labels c = at2 labels p
  ∧ at2 flowdirs c = NO_FLOW ∧ ∃ n, n ∈ d8_range ∧ c = neighbour p n.
Proof.
  unfold flat_pushes. rewrite list_elem_of_filter, list_elem_of_fmap.
  rewrite !andb_true_iff, !Z.eqb_eq.
  split.
  - intros [[[Hg Hl] Hf] (n & -> & Hn)]. eauto 10.
  - intros (Hg & Hl & Hf & n & Hn & ->). eauto 10.
Qed.

Lemma length_flat_pushes p : (length (flat_pushes flowdirs labels p) ≤ 8)%nat.
Proof. unfold flat_pushes. etrans; [apply length_filter|]. by rewrite length_map. Qed.

Lemma walk_in_grid k c :
  (∀ s, s ∈ seeds → in_grid labels (fst s) (snd s) = true) →
  walk flowdirs labels seeds k c → in_grid labels (fst c) (snd c) = true.
Proof.
  intros Hs. destruct 1 as [s Hin|k p c _ Hc]; [by apply Hs|].
  by apply elem_of_flat_pushes in Hc as [Hg _].
Qed.

Lemma min_hops_unique c j j' :
  min_hops flowdirs labels seeds c j → min_hops flowdirs labels seeds c j' → j = j'.
Proof.
  intros [Hw Hmin] [Hw' Hmin'].
  destruct (Nat.lt_trichotomy j j') as [Hlt|[Heq|Hlt]]; [|done|].
  - by destruct (Hmin' j).
  - by destruct (Hmin j').
Qed.

Lemma bfs_inv_init (lev : grid_cell → Z) :
  (∀ s, s ∈ seeds → in_grid labels (fst s) (snd s) = true) →
  (∀ c, lev c ≤ 0) →
  bfs_inv flowdirs labels seeds lev 0 seeds [].
Proof.
  intros Hs Hlev. split.
  - intros c Hc. rewrite app_nil_r in Hc. by apply Hs.
  - intros c Hc. specialize (Hlev c). lia.
  - intros c Hc. by apply walk_seed.
  - intros c Hc. by apply elem_of_nil in Hc.
  - intros c j _ Hj. lia.
  - intros c Hc. right. by inversion Hc.
  - intros p c Hp. specialize (Hlev p). lia.
  - split; [|done]. pose proof (unmarked_le lev (all_cells labels)). lia.
Qed.

(** The marker comes to the front: the next wavefront starts. *)
Lemma bfs_inv_marker (lev : grid_cell → Z) k Q2 :
  bfs_inv flowdirs labels seeds lev k [] Q2 → Q2 ≠ [] →
  bfs_inv flowdirs labels seeds lev (S k) Q2 [].
Proof.
  intros [Hg Hlev Hcur Hnext Hdone Hfront Hpushed Hdepth] HQ2.
  assert (∀ c, walk flowdirs labels seeds k c → 0 < lev c) as Hfront'.
  { intros c Hc. destruct (Hfront c Hc) as [|Hin]; [done|by apply elem_of_nil in Hin]. }
  assert (∀ c j, walk flowdirs labels seeds j c → (j ≤ k)%nat → 0 < lev c) as Hdone'.
  { intros c j Hc Hj. destruct (decide (j = k)) as [->|]; [by apply Hfront'|].
    apply (Hdone c j); [done|lia]. }
  split.
  - intros c Hc. rewrite app_nil_r in Hc. by apply Hg.
  - intros c Hc. destruct (Hlev c Hc) as (j & ? & ? & ?). exists j. split_and!; [done|done|lia].
  - done.
  - intros c Hc. by apply elem_of_nil in Hc.
  - intros c j Hc Hj. apply (Hdone' c j); [done|lia].
  - intros c Hc. inversion Hc as [|k' p c' Hp Hpush]; subst.
    destruct (Hlev p (Hfront' p Hp)) as (j & Hj & [Hwj _] & Hjk).
    destruct (decide (j = k)) as [->|Hne].
    + right. by apply (Hpushed p).
    + left. apply (Hdone' c (S j)); [|lia]. by apply walk_step with p.
  - intros p c Hp. destruct (decide (0 < lev p)) as [Hpos|]; [|lia].
    destruct (Hlev p Hpos) as (j & Hj & _ & Hjk). lia.
  - destruct Hdepth as [_ Hd]. split; [by apply Hd|done].
Qed.

(** A cell marked before is taken off the queue. *)
Lemma bfs_inv_skip (lev : grid_cell → Z) k c Q1 Q2 :
  bfs_inv flowdirs labels seeds lev k (c :: Q1) Q2 → 0 < lev c →
  bfs_inv flowdirs labels seeds lev k Q1 Q2.
Proof.
  intros [Hg Hlev Hcur Hnext Hdone Hfront Hpushed Hdepth] Hc. split; try done.
  - intros x Hx. apply Hg. simpl. apply elem_of_cons. by right.
  - intros x Hx. apply Hcur, elem_of_cons. by right.
  - intros x Hx. destruct (Hfront x Hx) as [|Hin]; [by left|].
    apply elem_of_cons in Hin as [->|Hin]; [by left|by right].
Qed.

(** A cell is marked with the value of the counter and its neighbours are
    pushed. *)
Lemma bfs_inv_mark (lev lev' : grid_cell → Z) k c Q1 Q2 :
  bfs_inv flowdirs labels seeds lev k (c :: Q1) Q2 → lev c ≤ 0 →
  lev' c = Z.of_nat k + 1 → (∀ x, x ≠ c → lev' x = lev x) →
  bfs_inv flowdirs labels seeds lev' k Q1 (Q2 ++ flat_pushes flowdirs labels c).
Proof.
  intros [Hg Hlev Hcur Hnext Hdone Hfront Hpushed Hdepth] Hc Hc' Hother.
  assert (walk flowdirs labels seeds k c) as Hwc.
  { apply Hcur, elem_of_cons. by left. }
  split.
  - intros x Hx. rewrite app_assoc in Hx. apply elem_of_app in Hx as [Hx|Hx].
    + apply Hg. simpl. apply elem_of_cons. by right.
    + by apply elem_of_flat_pushes in Hx as [? _].
  - intros x Hx. destruct (decide (x = c)) as [->|Hne].
    + exists k. split_and!; [done| |done]. split; [done|].
      intros j Hj Hw. specialize (Hdone c j Hw Hj). lia.
    + rewrite Hother in Hx |- * by done. by apply Hlev.
  - intros x Hx. apply Hcur, elem_of_cons. by right.
  - intros x Hx. apply elem_of_app in Hx as [Hx|Hx]; [by apply Hnext|].
    by apply walk_step with c.
  - intros x j Hw Hj. specialize (Hdone x j Hw Hj).
    rewrite Hother; [done|]. intros ->. lia.
  - intros x Hw. destruct (decide (x = c)) as [->|Hne]; [left; lia|].
    rewrite Hother by done. destruct (Hfront x Hw) as [|Hin]; [by left|].
    apply elem_of_cons in Hin as [->|Hin]; [done|by right].
  - intros p x Hp Hx. apply elem_of_app. destruct (decide (p = c)) as [->|Hne]; [by right|].
    left. rewrite Hother in Hp by done. by apply (Hpushed p).
  - assert (unmarked lev' (all_cells labels) < unmarked lev (all_cells labels))%nat.
    { apply (unmarked_mark lev lev' _ c); [|done|lia|done].
      apply elem_of_all_cells, Hg, elem_of_cons. by left. }
    destruct Hdepth as [Hd _]. split; [lia|]. intros _. lia.
Qed.

(** When only the marker is left, every cell a walk leads to is marked. *)
Lemma bfs_inv_final (lev : grid_cell → Z) k :
  bfs_inv flowdirs labels seeds lev k [] [] →
  ∀ j c, walk flowdirs labels seeds j c → 0 < lev c.
Proof.
  intros [Hg Hlev Hcur Hnext Hdone Hfront Hpushed Hdepth].
  assert (∀ c j, walk flowdirs labels seeds j c → (j ≤ k)%nat → 0 < lev c) as Hdone'.
  { intros c j Hc Hj. destruct (decide (j = k)) as [->|].
    - destruct (Hfront c Hc) as [|Hin]; [done|by apply elem_of_nil in Hin].
    - apply (Hdone c j); [done|lia]. }
  induction j as [|j IH]; intros c Hw.
  - apply (Hdone' c 0%nat); [done|lia].
  - inversion Hw as [|j' p c' Hp Hpush]; subst.
    destruct (Hlev p (IH p Hp)) as (i & Hi & [Hwi _] & Hik).
    destruct (decide (i = k)) as [->|Hne].
    + specialize (Hpushed p c Hi Hpush). by apply elem_of_nil in Hpushed.
    + apply (Hdone' c (S i)); [|lia]. by apply walk_step with p.
Qed.

(** The marks at the end are the least numbers of hops, plus one. *)
Lemma bfs_inv_result (lev : grid_cell → Z) k :
  bfs_inv flowdirs labels seeds lev k [] [] →
  (∀ c j, min_hops flowdirs labels seeds c j → lev c = Z.of_nat j + 1)
  ∧ (∀ c, reached flowdirs labels seeds c ↔ 0 < lev c)
  ∧ (∀ c, 0 < lev c → ∃ j, min_hops flowdirs labels seeds c j ∧ lev c = Z.of_nat j + 1).
Proof.
  intros Hinv. pose proof (bfs_inv_final lev k Hinv) as Hfin.
  destruct Hinv as [Hg Hlev Hcur Hnext Hdone Hfront Hpushed Hdepth].
  split_and!.
  - intros c j Hmin. destruct (Hlev c) as (j' & Hj' & Hmin' & _).
    + destruct Hmin as [Hw _]. by apply (Hfin j).
    + by rewrite (min_hops_unique c j j').
  - intros c. split; [intros [j Hw]; by apply (Hfin j)|].
    intros Hc. destruct (Hlev c Hc) as (j & _ & [Hw _] & _). by exists j.
  - intros c Hc. destruct (Hlev c Hc) as (j & ? & ? & _). eauto.
Qed.

End Expansion.
Section Vectors.

Lemma vec_set_Some (v : list Z) i a :
  0 ≤ i < Z.of_nat (length v) → vec_set v i a = Some (<[Z.to_nat i := a]> v).
Proof.
  intros Hi. unfold vec_set.
  destruct (Z.leb_spec 0 i), (Z.ltb_spec i (Z.of_nat (length v))); simpl; done || lia.
Qed.

Lemma vec_set_inv (v v' : list Z) i a :
  vec_set v i a = Some v' → 0 ≤ i < Z.of_nat (length v) ∧ v' = <[Z.to_nat i := a]> v.
Proof.
  unfold vec_set.
  destruct (Z.leb_spec 0 i), (Z.ltb_spec i (Z.of_nat (length v))); simpl; try done.
  intros [= <-]. split; [lia|done].
Qed.

Lemma vec_set_length (v v' : list Z) i a : vec_set v i a = Some v' → length v' = length v.
Proof. intros [_ ->]%vec_set_inv. apply length_insert. Qed.

Lemma vec_get_set (v v' : list Z) i a j :
  vec_set v i a = Some v' →
  vec_get v' j = if decide (j = i) then Some a else vec_get v j.
Proof.
  intros [Hi ->]%vec_set_inv. unfold vec_get. case_decide as Hj.
  - subst j. destruct (Z.leb_spec 0 i); [|lia]. apply list_lookup_insert_eq. lia.
  - destruct (Z.leb_spec 0 j); [|done]. apply list_lookup_insert_ne. lia.
Qed.

Lemma vec_get_range (v : list Z) i h : vec_get v i = Some h → 0 ≤ i < Z.of_nat (length v).
Proof.
  unfold vec_get. destruct (Z.leb_spec 0 i); [|done].
  intros Hl%lookup_lt_Some. lia.
Qed.

Lemma vec_get_is_Some (v : list Z) i :
  0 ≤ i < Z.of_nat (length v) → ∃ h, vec_get v i = Some h.
Proof.
  intros Hi. unfold vec_get. destruct (Z.leb_spec 0 i); [|lia].
  destruct (lookup_lt_is_Some_2 v (Z.to_nat i)) as [h Hh]; [lia|]. eauto.
Qed.

End Vectors.

Section AwayGradient.
Context `{FlowDirParams}.
Variables (flowdirs labels : Array2D Z) (seeds : list grid_cell).

Lemma away_loop_unfold fuel c rest loops flat_mask flat_height :
  rest ≠ [] →
  away_loop (S fuel) flowdirs labels (c :: rest) loops flat_mask flat_height =
  if fst c =? -1 then
    away_loop fuel flowdirs labels (rest ++ [iteration_marker]) (loops + 1)
              flat_mask flat_height
  else if at2 flat_mask c >? 0 then
    away_loop fuel flowdirs labels rest loops flat_mask flat_height
  else
    match vec_set flat_height (at2 labels c) loops with
    | None => IndexOutOfRange
    | Some flat_height' =>
      away_loop fuel flowdirs labels (rest ++ flat_pushes flowdirs labels c) loops
                (set2 flat_mask c loops) flat_height'
    end.
Proof. by destruct rest. Qed.

Lemma bfs_measure_marker lev q Q2 :
  0 ≤ fst q →
  (bfs_measure labels lev ((q :: Q2) ++ [iteration_marker])
   < bfs_measure labels lev (iteration_marker :: q :: Q2))%nat.
Proof.
  intros Hq. unfold bfs_measure. rewrite length_app. cbn [length app fst iteration_marker].
  destruct (Z.eqb_spec (fst q) (-1)); [lia|]. simpl. lia.
Qed.

Lemma bfs_measure_skip lev c rest :
  fst c ≠ -1 →
  (bfs_measure labels lev rest < bfs_measure labels lev (c :: rest))%nat.
Proof.
  intros Hc. unfold bfs_measure. cbn [length].
  destruct (Z.eqb_spec (fst c) (-1)); [done|].
  destruct rest as [|r rest]; [lia|]. destruct (fst r =? -1); lia.
Qed.

Lemma bfs_measure_mark (lev lev' : grid_cell → Z) c rest :
  fst c ≠ -1 → in_grid labels (fst c) (snd c) = true →
  lev c ≤ 0 → 0 < lev' c → (∀ x, x ≠ c → lev' x = lev x) →
  (bfs_measure labels lev' (rest ++ flat_pushes flowdirs labels c)
   < bfs_measure labels lev (c :: rest))%nat.
Proof.
  intros Hc Hg Hl Hl' Hother. unfold bfs_measure. cbn [length]. rewrite length_app.
  pose proof (length_flat_pushes flowdirs labels c).
  pose proof (unmarked_mark lev lev' (all_cells labels) c
                ltac:(by apply elem_of_all_cells) Hl Hl' Hother).
  destruct (Z.eqb_spec (fst c) (-1)); [done|].
  destruct (rest ++ flat_pushes flowdirs labels c) as [|r ?]; [lia|].
  destruct (fst r =? -1); lia.
Qed.

Lemma in_grid_fst_nonneg {A} (a : Array2D A) c :
  in_grid a (fst c) (snd c) = true → 0 ≤ fst c ∧ fst c ≠ -1.
Proof. intros Hg%in_grid_spec. lia. Qed.

Lemma away_inv_skip mask0 height0 k c Q1 Q2 flat_mask flat_height :
  away_inv flowdirs labels seeds mask0 height0 k (c :: Q1) Q2 flat_mask flat_height →
  0 < at2 flat_mask c →
  away_inv flowdirs labels seeds mask0 height0 k Q1 Q2 flat_mask flat_height.
Proof. intros [Hb Hk Hd Hl Hm Hh] Hc. split; try done. by apply bfs_inv_skip with c. Qed.

Lemma away_inv_marker mask0 height0 k Q2 flat_mask flat_height :
  away_inv flowdirs labels seeds mask0 height0 k [] Q2 flat_mask flat_height → Q2 ≠ [] →
  away_inv flowdirs labels seeds mask0 height0 (S k) Q2 [] flat_mask flat_height.
Proof. intros [Hb Hk Hd Hl Hm Hh] Hne. split; try done. by apply bfs_inv_marker. Qed.

Lemma away_inv_mark mask0 height0 k c Q1 Q2 flat_mask flat_height flat_height' :
  away_inv flowdirs labels seeds mask0 height0 k (c :: Q1) Q2 flat_mask flat_height →
  at2 flat_mask c ≤ 0 →
  vec_set flat_height (at2 labels c) (Z.of_nat k + 1) = Some flat_height' →
  away_inv flowdirs labels seeds mask0 height0 k Q1
           (Q2 ++ flat_pushes flowdirs labels c)
           (set2 flat_mask c (Z.of_nat k + 1)) flat_height'.
Proof.
  intros [Hb Hk Hd Hl Hm Hh] Hc Hset.
  assert (bfs_inv flowdirs labels seeds (at2 (set2 flat_mask c (Z.of_nat k + 1))) k Q1
            (Q2 ++ flat_pushes flowdirs labels c)) as Hb'.
  { apply bfs_inv_mark with (at2 flat_mask); [done|done|by rewrite at2_set2_eq|].
    intros x Hx. by rewrite at2_set2_ne. }
  split.
  - done.
  - intros x Hx. rewrite at2_set2 in Hx |- *. case_decide; [lia|by apply Hk].
  - done.
  - by rewrite (vec_set_length _ _ _ _ Hset).
  - intros x h Hx Hget. rewrite (vec_get_set _ _ _ _ _ Hset) in Hget.
    destruct (bfs_lev _ _ _ _ _ _ _ Hb' x Hx) as (j & Hj & _ & Hjk).
    case_decide as Hlx.
    + inversion Hget; subst h. lia.
    + rewrite at2_set2_ne in Hx |- *; [by apply Hm|congruence|congruence].
  - intros l h Hget. rewrite (vec_get_set _ _ _ _ _ Hset) in Hget.
    case_decide as Hlx.
    + inversion Hget; subst. right. exists c. rewrite at2_set2_eq. split_and!; [done|done|lia].
    + destruct (Hh l h Hget) as [[Hold Hnone]|(x & Hx & Hxm & Hpos)].
      * left. split; [done|]. intros x Hx. rewrite at2_set2_ne; [by apply Hnone|congruence].
      * right. exists x. rewrite at2_set2_ne; [done|congruence].
Qed.

(** The loop of [BuildAwayGradient] ends and keeps its invariant. *)
Lemma away_loop_correct mask0 height0 fuel :
  (∀ c, 0 ≤ at2 labels c < Z.of_nat (length height0)) →
  ∀ k Q1 Q2 flat_mask flat_height,
  away_inv flowdirs labels seeds mask0 height0 k Q1 Q2 flat_mask flat_height →
  (bfs_measure labels (at2 flat_mask) (Q1 ++ iteration_marker :: Q2) < fuel)%nat →
  ∃ k' flat_mask' flat_height',
    away_loop fuel flowdirs labels (Q1 ++ iteration_marker :: Q2) (Z.of_nat k + 1)
              flat_mask flat_height = Done (flat_mask', flat_height')
    ∧ away_inv flowdirs labels seeds mask0 height0 k' [] [] flat_mask' flat_height'.
Proof.
  intros Hrange. induction fuel as [|fuel IH]; intros k Q1 Q2 M Hh Hinv Hfuel; [lia|].
  destruct Q1 as [|c Q1].
  - destruct Q2 as [|q Q2]; [simpl; eauto|].
    cbn [app]. rewrite away_loop_unfold by done. cbn [fst iteration_marker Z.eqb Pos.eqb].
    assert (in_grid labels (fst q) (snd q) = true) as Hq.
    { apply (bfs_grid _ _ _ _ _ _ _ (away_bfs _ _ _ _ _ _ _ _ _ _ Hinv)).
      apply elem_of_cons. by left. }
    apply in_grid_fst_nonneg in Hq as [Hq _].
    replace (Z.of_nat k + 1 + 1) with (Z.of_nat (S k) + 1) by lia.
    replace ((q :: Q2) ++ [iteration_marker]) with ((q :: Q2) ++ iteration_marker :: [])
      by done.
    apply IH; [by apply away_inv_marker|].
    pose proof (bfs_measure_marker (at2 M) q Q2 Hq). cbn [app] in *. lia.
  - cbn [app]. rewrite away_loop_unfold by (by destruct Q1).
    assert (in_grid labels (fst c) (snd c) = true) as Hc.
    { apply (bfs_grid _ _ _ _ _ _ _ (away_bfs _ _ _ _ _ _ _ _ _ _ Hinv)).
      apply elem_of_cons. by left. }
    pose proof (in_grid_fst_nonneg _ _ Hc) as [_ Hc1].
    destruct (Z.eqb_spec (fst c) (-1)); [done|].
    destruct (Z.gtb_spec (at2 M c) 0) as [Hpos|Hneg].
    + apply IH; [apply away_inv_skip with c; [done|lia]|].
      pose proof (bfs_measure_skip (at2 M) c (Q1 ++ iteration_marker :: Q2) Hc1).
      cbn [app] in *. lia.
    + rewrite vec_set_Some by (rewrite (away_length _ _ _ _ _ _ _ _ _ _ Hinv); apply Hrange).
      rewrite <- app_assoc. cbn [app].
      apply IH.
      * apply away_inv_mark with Hh; [done|done|].
        apply vec_set_Some. rewrite (away_length _ _ _ _ _ _ _ _ _ _ Hinv). apply Hrange.
      * pose proof (bfs_measure_mark (at2 M) (at2 (set2 M c (Z.of_nat k + 1))) c
                      (Q1 ++ iteration_marker :: Q2) Hc1 Hc Hneg) as Hm.
        rewrite <- app_assoc in Hm. cbn [app] in *.
        rewrite at2_set2_eq in Hm.
        assert (∀ x, x ≠ c → at2 (set2 M c (Z.of_nat k + 1)) x = at2 M x) as Hother.
        { intros x Hx. by rewrite at2_set2_ne. }
        specialize (Hm ltac:(lia) Hother). lia.
Qed.

End AwayGradient.
Section TowardsGradient.
Context `{FlowDirParams}.
Variables (flowdirs labels : Array2D Z) (seeds : list grid_cell).
Variables (mask0 : Array2D Z) (flat_height : list Z).

Hypothesis mask0_nonpos : ∀ c, at2 mask0 c ≤ 0.
Hypothesis mask0_height : ∀ c, at2 mask0 c ≠ 0 →
  ∃ h, vec_get flat_height (at2 labels c) = Some h ∧ 0 ≤ h + at2 mask0 c.

Lemma towards_loop_unfold fuel c rest loops flat_mask :
  rest ≠ [] →
  towards_loop (S fuel) flowdirs labels (c :: rest) loops flat_mask flat_height =
  if fst c =? -1 then
    towards_loop fuel flowdirs labels (rest ++ [iteration_marker]) (loops + 1)
                 flat_mask flat_height
  else if at2 flat_mask c >? 0 then
    towards_loop fuel flowdirs labels rest loops flat_mask flat_height
  else if negb (at2 flat_mask c =? 0) then
    match vec_get flat_height (at2 labels c) with
    | None => IndexOutOfRange
    | Some h =>
      towards_loop fuel flowdirs labels (rest ++ flat_pushes flowdirs labels c) loops
                   (set2 flat_mask c ((h + at2 flat_mask c) + 2 * loops)) flat_height
    end
  else
    towards_loop fuel flowdirs labels (rest ++ flat_pushes flowdirs labels c) loops
                 (set2 flat_mask c (2 * loops)) flat_height.
Proof. by destruct rest. Qed.

Lemma gain_nonneg c : 0 ≤ gain labels mask0 flat_height c.
Proof.
  unfold gain. destruct (Z.eqb_spec (at2 mask0 c) 0) as [|Hne]; [done|].
  destruct (mask0_height c Hne) as (h & -> & Hh). done.
Qed.

Lemma towards_inv_pos lev k Q1 Q2 flat_mask c :
  towards_inv flowdirs labels seeds mask0 flat_height lev k Q1 Q2 flat_mask →
  0 < at2 flat_mask c ↔ 0 < lev c.
Proof.
  intros [Hb Hk Hm Hd]. split; intros Hc.
  - destruct (decide (0 < lev c)) as [|Hn]; [done|].
    rewrite Hk in Hc by lia. specialize (mask0_nonpos c). lia.
  - rewrite Hm by done. pose proof (gain_nonneg c). lia.
Qed.

Lemma towards_inv_skip lev k c Q1 Q2 flat_mask :
  towards_inv flowdirs labels seeds mask0 flat_height lev k (c :: Q1) Q2 flat_mask →
  0 < lev c →
  towards_inv flowdirs labels seeds mask0 flat_height lev k Q1 Q2 flat_mask.
Proof. intros [Hb Hk Hm Hd] Hc. split; try done. by apply bfs_inv_skip with c. Qed.

Lemma towards_inv_marker lev k Q2 flat_mask :
  towards_inv flowdirs labels seeds mask0 flat_height lev k [] Q2 flat_mask → Q2 ≠ [] →
  towards_inv flowdirs labels seeds mask0 flat_height lev (S k) Q2 [] flat_mask.
Proof. intros [Hb Hk Hm Hd] Hne. split; try done. by apply bfs_inv_marker. Qed.

Lemma towards_inv_mark lev k c Q1 Q2 flat_mask :
  towards_inv flowdirs labels seeds mask0 flat_height lev k (c :: Q1) Q2 flat_mask →
  lev c ≤ 0 →
  towards_inv flowdirs labels seeds mask0 flat_height
    (λ x, if decide (x = c) then Z.of_nat k + 1 else lev x) k Q1
    (Q2 ++ flat_pushes flowdirs labels c)
    (set2 flat_mask c (gain labels mask0 flat_height c + 2 * (Z.of_nat k + 1))).
Proof.
  intros [Hb Hk Hm Hd] Hc. split.
  - apply bfs_inv_mark with lev; [done|done|by rewrite decide_True|].
    intros x Hx. by rewrite decide_False.
  - intros x. rewrite at2_set2. case_decide; [lia|apply Hk].
  - intros x. rewrite at2_set2. case_decide; [by subst|apply Hm].
  - done.
Qed.

(** The value written by the source is the gain plus twice the counter. *)
Lemma towards_mark_value lev k c Q1 Q2 flat_mask :
  towards_inv flowdirs labels seeds mask0 flat_height lev k (c :: Q1) Q2 flat_mask →
  lev c ≤ 0 →
  (at2 flat_mask c = 0 ∧ gain labels mask0 flat_height c = 0)
  ∨ (at2 flat_mask c ≠ 0
     ∧ ∃ h, vec_get flat_height (at2 labels c) = Some h
            ∧ gain labels mask0 flat_height c = h + at2 flat_mask c).
Proof.
  intros [Hb Hk Hm Hd] Hc. rewrite (Hk c Hc). unfold gain.
  destruct (Z.eqb_spec (at2 mask0 c) 0) as [He|Hne]; [by left|right].
  split; [done|]. destruct (mask0_height c Hne) as (h & Hh & _). exists h.
  by rewrite Hh.
Qed.

(** The loop of [BuildTowardsCombinedGradient] ends and keeps its
    invariant. *)
Lemma towards_loop_correct fuel :
  ∀ lev k Q1 Q2 flat_mask,
  towards_inv flowdirs labels seeds mask0 flat_height lev k Q1 Q2 flat_mask →
  (bfs_measure labels lev (Q1 ++ iteration_marker :: Q2) < fuel)%nat →
  ∃ lev' k' flat_mask',
    towards_loop fuel flowdirs labels (Q1 ++ iteration_marker :: Q2) (Z.of_nat k + 1)
                 flat_mask flat_height = Done flat_mask'
    ∧ towards_inv flowdirs labels seeds mask0 flat_height lev' k' [] [] flat_mask'.
Proof.
  induction fuel as [|fuel IH]; intros lev k Q1 Q2 M Hinv Hfuel; [lia|].
  destruct Q1 as [|c Q1].
  - destruct Q2 as [|q Q2]; [simpl; eauto|].
    cbn [app]. rewrite towards_loop_unfold by done.
    cbn [fst iteration_marker Z.eqb Pos.eqb].
    assert (in_grid labels (fst q) (snd q) = true) as Hq.
    { apply (bfs_grid _ _ _ _ _ _ _ (tw_bfs _ _ _ _ _ _ _ _ _ _ Hinv)).
      apply elem_of_cons. by left. }
    apply in_grid_fst_nonneg in Hq as [Hq _].
    replace (Z.of_nat k + 1 + 1) with (Z.of_nat (S k) + 1) by lia.
    replace ((q :: Q2) ++ [iteration_marker]) with ((q :: Q2) ++ iteration_marker :: [])
      by done.
    apply (IH lev); [by apply towards_inv_marker|].
    pose proof (bfs_measure_marker labels lev q Q2 Hq). cbn [app] in *. lia.
  - cbn [app]. rewrite towards_loop_unfold by (by destruct Q1).
    assert (in_grid labels (fst c) (snd c) = true) as Hc.
    { apply (bfs_grid _ _ _ _ _ _ _ (tw_bfs _ _ _ _ _ _ _ _ _ _ Hinv)).
      apply elem_of_cons. by left. }
    pose proof (in_grid_fst_nonneg _ _ Hc) as [_ Hc1].
    destruct (Z.eqb_spec (fst c) (-1)); [done|].
    pose proof (towards_inv_pos _ _ _ _ _ c Hinv) as Hpos.
    destruct (Z.gtb_spec (at2 M c) 0) as [Hp|Hneg].
    + apply (IH lev); [apply towards_inv_skip with c; [done|]; apply Hpos; lia|].
      pose proof (bfs_measure_skip labels lev c (Q1 ++ iteration_marker :: Q2) Hc1).
      cbn [app] in *. lia.
    + assert (lev c ≤ 0) as Hlev.
      { destruct (decide (0 < lev c)) as [Hl|]; [|lia]. apply Hpos in Hl. lia. }
      pose proof (towards_inv_mark _ _ _ _ _ _ Hinv Hlev) as Hinv'.
      pose proof (bfs_measure_mark flowdirs labels lev
                    (λ x, if decide (x = c) then Z.of_nat k + 1 else lev x) c
                    (Q1 ++ iteration_marker :: Q2) Hc1 Hc Hlev) as Hm.
      cbv beta in Hm. rewrite decide_True in Hm by done.
      assert (∀ x, x ≠ c → (if decide (x = c) then Z.of_nat k + 1 else lev x) = lev x)
        as Hother.
      { intros x Hx. by rewrite decide_False. }
      specialize (Hm ltac:(lia) Hother). rewrite <- app_assoc in Hm. cbn [app] in Hm.
      destruct (towards_mark_value _ _ _ _ _ _ Hinv Hlev)
        as [[Hz Hg]|(Hnz & h & Hh & Hg)].
      * rewrite Hz. cbn [Z.eqb negb]. rewrite <- app_assoc. cbn [app].
        rewrite Hg in Hinv'. cbn [Z.add] in Hinv'.
        eapply IH; [exact Hinv'|]. cbn [app] in *. lia.
      * destruct (Z.eqb_spec (at2 M c) 0); [done|]. cbn [negb]. rewrite Hh.
        rewrite <- app_assoc. cbn [app]. rewrite Hg in Hinv'.
        eapply IH; [exact Hinv'|]. cbn [app] in *. lia.
Qed.

End TowardsGradient.
Section Stages.
Context `{FlowDirParams}.
Variables (flowdirs labels : Array2D Z).

Lemma bfs_measure_start (lev : grid_cell → Z) (edges : list grid_cell) :
  (bfs_measure labels lev (edges ++ [iteration_marker])
   ≤ 2 * (9 * length (all_cells labels) + length edges + 1) + 1)%nat.
Proof.
  unfold bfs_measure. rewrite length_app. cbn [length].
  pose proof (unmarked_le lev (all_cells labels)).
  destruct (edges ++ [iteration_marker]) as [|c ?]; [lia|]. destruct (fst c =? -1); lia.
Qed.

(** [BuildAwayGradient] ends, with the invariant of its loop. *)
Lemma BuildAwayGradient_inv fuel flat_mask edges flat_height :
  (∀ s, s ∈ edges → in_grid labels (fst s) (snd s) = true) →
  (∀ c, at2 flat_mask c ≤ 0) →
  (∀ c, 0 ≤ at2 labels c < Z.of_nat (length flat_height)) →
  (2 * (9 * length (all_cells labels) + length edges + 1) + 1 < fuel)%nat →
  ∃ k flat_mask' flat_height',
    BuildAwayGradient fuel flowdirs flat_mask edges flat_height labels
    = Done (flat_mask', flat_height')
    ∧ away_inv flowdirs labels edges flat_mask flat_height k [] [] flat_mask' flat_height'.
Proof.
  intros Hs Hm Hr Hfuel. unfold BuildAwayGradient.
  apply (away_loop_correct flowdirs labels edges flat_mask flat_height fuel Hr 0%nat edges []).
  - split; [by apply bfs_inv_init|done|done|done| |].
    + intros c h Hc. specialize (Hm c). lia.
    + intros l h Hl. left. split; [done|]. intros c _. apply Hm.
  - pose proof (bfs_measure_start (at2 flat_mask) edges). lia.
Qed.

Lemma set2_sweep_dims {A} (f : Array2D A → grid_cell → A) cs (a : Array2D A) :
  viewWidth (fold_left (λ m c, set2 m c (f m c)) cs a) = viewWidth a
  ∧ viewHeight (fold_left (λ m c, set2 m c (f m c)) cs a) = viewHeight a
  ∧ noData (fold_left (λ m c, set2 m c (f m c)) cs a) = noData a.
Proof.
  revert a. induction cs as [|c cs IH]; intros a; [done|].
  cbn [fold_left]. destruct (IH (set2 a c (f a c))) as (-> & -> & ->). done.
Qed.

Lemma negate_mask_at (flat_mask : Array2D Z) c :
  at2 (negate_mask flat_mask) c =
  if in_grid flat_mask (fst c) (snd c) then - at2 flat_mask c else at2 flat_mask c.
Proof.
  unfold negate_mask.
  rewrite (sweep_at at2 _ (λ _ v, v * -1)).
  - destruct (in_grid flat_mask (fst c) (snd c)) eqn:Hg.
    + rewrite decide_True by by apply elem_of_all_cells. lia.
    + rewrite decide_False; [done|]. rewrite elem_of_all_cells. congruence.
  - intros s c0 c'. rewrite at2_set2. by case_decide; subst.
  - apply NoDup_cell_range.
Qed.

Lemma negate_mask_dims (flat_mask : Array2D Z) :
  viewWidth (negate_mask flat_mask) = viewWidth flat_mask
  ∧ viewHeight (negate_mask flat_mask) = viewHeight flat_mask
  ∧ noData (negate_mask flat_mask) = noData flat_mask.
Proof. apply (set2_sweep_dims (λ m c, at2 m c * -1)). Qed.

(** [BuildTowardsCombinedGradient] ends, with the invariant of its loop. *)
Lemma BuildTowardsCombinedGradient_inv fuel flat_mask edges flat_height :
  (∀ s, s ∈ edges → in_grid labels (fst s) (snd s) = true) →
  (∀ c, 0 ≤ at2 flat_mask c) →
  (∀ c, in_grid flat_mask (fst c) (snd c) = false → at2 flat_mask c = 0) →
  (∀ c, at2 flat_mask c ≠ 0 →
     ∃ h, vec_get flat_height (at2 labels c) = Some h ∧ at2 flat_mask c ≤ h) →
  (2 * (9 * length (all_cells labels) + length edges + 1) + 1 < fuel)%nat →
  (∀ c, at2 (negate_mask flat_mask) c = - at2 flat_mask c)
  ∧ ∃ lev k flat_mask',
    BuildTowardsCombinedGradient fuel flowdirs flat_mask edges flat_height labels
    = Done flat_mask'
    ∧ towards_inv flowdirs labels edges (negate_mask flat_mask) flat_height lev k [] []
                  flat_mask'.
Proof.
  intros Hs Hm Hout Hh Hfuel.
  assert (∀ c, at2 (negate_mask flat_mask) c = - at2 flat_mask c) as Hneg.
  { intros c. rewrite negate_mask_at.
    destruct (in_grid flat_mask (fst c) (snd c)) eqn:Hg; [done|]. rewrite Hout; done. }
  split; [done|]. unfold BuildTowardsCombinedGradient.
  destruct (towards_loop_correct flowdirs labels edges (negate_mask flat_mask) flat_height)
    with (fuel := fuel) (lev := λ _ : grid_cell, 0) (k := 0%nat) (Q1 := edges)
         (Q2 := @nil grid_cell) (flat_mask := negate_mask flat_mask)
    as (lev & k & M' & Hrun & Hinv).
  - intros c. rewrite Hneg. specialize (Hm c). lia.
  - intros c Hc. rewrite Hneg in Hc |- *. destruct (Hh c) as (h & Hget & Hle); [lia|].
    exists h. split; [done|lia].
  - split; [by apply bfs_inv_init|done| |done].
    intros c Hc. lia.
  - pose proof (bfs_measure_start (λ _, 0) edges). lia.
  - eauto.
Qed.

End Stages.
Section Pipeline.
Context `{FlowDirParams} {T : Type} `{ElevOps T}.

Lemma all_cells_dims {A B} (a : Array2D A) (b : Array2D B) :
  viewWidth a = viewWidth b → viewHeight a = viewHeight b → all_cells a = all_cells b.
Proof. unfold all_cells. by intros -> ->. Qed.

Lemma elem_of_prune_high_edges labels high c :
  c ∈ prune_high_edges labels high ↔ at2 labels c ≠ 0 ∧ c ∈ high.
Proof. unfold prune_high_edges. by rewrite list_elem_of_filter. Qed.

(** The run of [resolve_flats_barnes] on a raster with flats that have
    outlets, stage by stage. *)
Lemma resolve_flats_barnes_run (elevations : Array2D T)
    (flowdirs flat_mask labels : Array2D Z) fuel :
  viewWidth elevations = viewWidth flowdirs →
  viewHeight elevations = viewHeight flowdirs →
  (fuel_bound flowdirs ≤ fuel)%nat →
  (find_flat_edges [] [] flowdirs elevations).1 ≠ [] →
  ∃ g labels1 k maskA heightA lev k' maskT,
    let low := (find_flat_edges [] [] flowdirs elevations).1 in
    let high := (find_flat_edges [] [] flowdirs elevations).2 in
    let mask0 := setup_flat_mask flat_mask elevations in
    label_flats fuel low 1 (setup_labels labels elevations flowdirs) elevations
    = Done (g, labels1)
    ∧ 1 ≤ g ∧ (∀ c, 0 ≤ at2 labels1 c < g)
    ∧ viewWidth labels1 = viewWidth flowdirs ∧ viewHeight labels1 = viewHeight flowdirs
    ∧ BuildAwayGradient fuel flowdirs mask0 (prune_high_edges labels1 high)
        (replicate (Z.to_nat g) 0) labels1 = Done (maskA, heightA)
    ∧ away_inv flowdirs labels1 (prune_high_edges labels1 high) mask0
        (replicate (Z.to_nat g) 0) k [] [] maskA heightA
    ∧ (∀ c, at2 (negate_mask maskA) c = - at2 maskA c)
    ∧ BuildTowardsCombinedGradient fuel flowdirs maskA low heightA labels1 = Done maskT
    ∧ towards_inv flowdirs labels1 low (negate_mask maskA) heightA lev k' [] [] maskT
    ∧ resolve_flats_barnes fuel elevations flowdirs flat_mask labels
      = Done (mkResolved maskT labels1
                (if (length (prune_high_edges labels1 high) <? length high)%nat
                 then [NotAllOutlets] else [])).
Proof.
  intros Hw Hh Hfuel Hlow. unfold fuel_bound in Hfuel.
  set (low := (find_flat_edges [] [] flowdirs elevations).1) in *.
  set (high := (find_flat_edges [] [] flowdirs elevations).2).
  set (labels0 := setup_labels labels elevations flowdirs).
  set (mask0 := setup_flat_mask flat_mask elevations).
  pose proof (length_edges flowdirs elevations) as [Hllow Hlhigh].
  fold low in Hllow. fold high in Hlhigh.
  assert (all_cells labels0 = all_cells flowdirs) as Hcells0 by done.
  assert (∀ s, s ∈ low → in_grid labels0 (fst s) (snd s) = true) as Hlowg.
  { intros s Hs. apply elem_of_low_edges in Hs as [Hs _]. done. }
  destruct (label_flats_total elevations fuel low 1 labels0) as (g & labels1 & Hlab);
    [done|done|done|rewrite Hcells0; lia|].
  destruct (label_flats_range elevations fuel low 1 labels0 g labels1)
    as (Hrange & Hg & _ & Hw1 & Hh1); [done|done|done|done|].
  change (viewWidth labels0) with (viewWidth flowdirs) in Hw1.
  change (viewHeight labels0) with (viewHeight flowdirs) in Hh1.
  assert (all_cells labels1 = all_cells flowdirs) as Hcells1 by by apply all_cells_dims.
  assert (∀ x y, in_grid labels1 x y = in_grid flowdirs x y) as Hgrid1.
  { intros x y. by apply in_grid_dims. }
  set (high' := prune_high_edges labels1 high).
  assert (length high' ≤ length high)%nat as Hlhigh' by apply length_filter.
  assert (∀ c, 0 ≤ at2 labels1 c < Z.of_nat (length (replicate (Z.to_nat g) 0))) as Hrange'.
  { intros c. rewrite length_replicate. specialize (Hrange c). lia. }
  destruct (BuildAwayGradient_inv flowdirs labels1 fuel mask0 high' (replicate (Z.to_nat g) 0))
    as (k & maskA & heightA & Haway & HinvA).
  { intros s [_ Hs]%elem_of_prune_high_edges. rewrite Hgrid1.
    by apply elem_of_high_edges in Hs as [Hs _]. }
  { done. }
  { done. }
  { rewrite Hcells1. lia. }
  assert (∀ c, 0 < at2 maskA c → in_grid labels1 (fst c) (snd c) = true) as HgridA.
  { intros c Hc.
    destruct (bfs_lev _ _ _ _ _ _ _ (away_bfs _ _ _ _ _ _ _ _ _ _ HinvA) c Hc)
      as (j & _ & [Hwalk _] & _).
    apply walk_in_grid in Hwalk; [done|].
    intros s [_ Hs]%elem_of_prune_high_edges. rewrite Hgrid1.
    by apply elem_of_high_edges in Hs as [Hs _]. }
  assert (∀ c, at2 maskA c ≤ 0 → at2 maskA c = 0) as HzeroA.
  { intros c Hc. by rewrite (away_keep _ _ _ _ _ _ _ _ _ _ HinvA c Hc). }
  destruct (BuildTowardsCombinedGradient_inv flowdirs labels1 fuel maskA low heightA)
    as (Hneg & lev & k' & maskT & Htow & HinvT).
  { intros s Hs. rewrite Hgrid1. by apply elem_of_low_edges in Hs as [Hs _]. }
  { intros c. destruct (decide (0 < at2 maskA c)); [lia|]. rewrite HzeroA; lia. }
  { intros c Hc. destruct (decide (0 < at2 maskA c)) as [Hpos|]; [|apply HzeroA; lia].
    apply HgridA in Hpos. rewrite Hgrid1 in Hpos.
    destruct (away_dims _ _ _ _ _ _ _ _ _ _ HinvA) as (HwA & HhA & _).
    rewrite (in_grid_dims maskA flowdirs) in Hc; [congruence| |].
    - rewrite HwA. exact Hw.
    - rewrite HhA. exact Hh. }
  { intros c Hc.
    destruct (vec_get_is_Some heightA (at2 labels1 c)) as [h Hget].
    { rewrite (away_length _ _ _ _ _ _ _ _ _ _ HinvA). apply Hrange'. }
    exists h. split; [done|].
    destruct (decide (0 < at2 maskA c)) as [Hpos|Hnpos].
    - by apply (away_max _ _ _ _ _ _ _ _ _ _ HinvA).
    - specialize (HzeroA c). lia. }
  { rewrite Hcells1. lia. }
  exists g, labels1, k, maskA, heightA, lev, k', maskT.
  cbn zeta. split_and!; try done.
  unfold resolve_flats_barnes.
  destruct (find_flat_edges [] [] flowdirs elevations) as [low0 high0] eqn:Hedges.
  cbn [fst snd] in *. subst low high.
  destruct low0 as [|s low0]; [done|]. cbn [length Nat.eqb].
  fold labels0 mask0. rewrite Hlab. cbn [mbind outcome_bind].
  fold high'. rewrite Haway. cbn [mbind outcome_bind]. rewrite Htow. done.
Qed.

End Pipeline.
Section LabelGroups.
Context `{FlowDirParams} {T : Type} `{ElevOps T}.

Lemma resolve_flats_barnes_no_outlet (elevations : Array2D T)
    (flowdirs flat_mask labels : Array2D Z) fuel :
  (find_flat_edges [] [] flowdirs elevations).1 = [] →
  resolve_flats_barnes fuel elevations flowdirs flat_mask labels
  = Done (mkResolved (setup_flat_mask flat_mask elevations)
            (setup_labels labels elevations flowdirs)
            [if (0 <? length (find_flat_edges [] [] flowdirs elevations).2)%nat
             then NoOutlets else NoFlats]).
Proof.
  intros Hlow. unfold resolve_flats_barnes.
  destruct (find_flat_edges [] [] flowdirs elevations) as [low high].
  cbn [fst snd] in *. by subst low.
Qed.

(** C7: when the scan finds no low edge, [resolve_flats_barnes] returns at
    once, whatever the high edges: the labels and the mask are the ones just
    initialised, zero in every cell, the NoData value of the mask is -1, and
    one diagnostic tells whether there were flats. *)
Theorem resolve_flats_barnes_returns_early (elevations : Array2D T)
    (flowdirs flat_mask labels : Array2D Z) (fuel : nat) :
  (find_flat_edges [] [] flowdirs elevations).1 = [] →
  ∃ r, resolve_flats_barnes fuel elevations flowdirs flat_mask labels = Done r
       ∧ res_labels r = init (resize labels flowdirs) 0
       ∧ res_flat_mask r = setNoData (init (resize flat_mask elevations) 0) (-1)
       ∧ (∀ c, at2 (res_labels r) c = 0)
       ∧ (∀ c, at2 (res_flat_mask r) c = 0)
       ∧ noData (res_flat_mask r) = -1
       ∧ res_log r = [if (0 <? length (find_flat_edges [] [] flowdirs elevations).2)%nat
                      then NoOutlets else NoFlats].
Proof.
  intros Hlow. eexists. split; [by apply resolve_flats_barnes_no_outlet|]. done.
Qed.

Lemma labels_inv_start (elevations : Array2D T) (labels : Array2D Z) :
  (∀ c, at2 labels c = 0) → labels_inv elevations [] 1 labels.
Proof.
  intros Hz. split.
  - intros c. rewrite Hz. lia.
  - intros c. rewrite Hz. lia.
  - intros c c'. rewrite Hz. lia.
  - intros c. rewrite Hz. lia.
  - intros l. lia.
  - intros s Hs. by apply elem_of_nil in Hs.
Qed.

Lemma elem_of_assigned_labels (labels : Array2D Z) l :
  l ∈ assigned_labels labels ↔
  0 < l ∧ ∃ c, in_grid labels (fst c) (snd c) = true ∧ at2 labels c = l.
Proof.
  unfold assigned_labels.
  rewrite elem_of_remove_dups, list_elem_of_filter, list_elem_of_fmap.
  split.
  - intros [Hl (c & -> & Hc)]. split; [done|]. exists c. by apply elem_of_all_cells in Hc.
  - intros [Hl (c & Hc & <-)]. split; [done|]. exists c. by rewrite elem_of_all_cells.
Qed.

(** The positive labels in use are exactly those below [group_number]. *)
Lemma assigned_labels_spec (elevations : Array2D T) seeds g (labels : Array2D Z) :
  1 ≤ g → labels_inv elevations seeds g labels →
  (∀ l, l ∈ assigned_labels labels ↔ 1 ≤ l < g)
  ∧ Z.of_nat (length (assigned_labels labels)) = g - 1.
Proof.
  intros Hg [Hr Hgr _ _ Hu _].
  assert (∀ l, l ∈ assigned_labels labels ↔ 1 ≤ l < g) as Hmem.
  { intros l. rewrite elem_of_assigned_labels. split.
    - intros [Hl (c & _ & <-)]. specialize (Hr c). lia.
    - intros Hl. split; [lia|]. destruct (Hu l Hl) as [c Hc]. exists c.
      split; [apply Hgr; lia|done]. }
  split; [done|].
  assert (assigned_labels labels ≡ₚ seqZ 1 (g - 1)) as Hperm.
  { apply NoDup_Permutation.
    - apply NoDup_remove_dups.
    - apply NoDup_seqZ.
    - intros l. rewrite Hmem, elem_of_seqZ. lia. }
  rewrite Hperm, length_seqZ. lia.
Qed.

(** C4 (amended): the labelling loop ends, and after it the positive labels
    found in the raster are exactly 1, ..., [group_number]-1, so their number
    K is [group_number]-1, one less than the final [group_number]; the vector
    [flat_height] is created with [group_number] entries, indexed from 0 to
    [group_number]-1. *)
Theorem group_number_counts_labels (elevations : Array2D T)
    (flowdirs labels : Array2D Z) (fuel : nat) :
  ElevLaws T →
  (fuel_bound flowdirs ≤ fuel)%nat →
  ∃ g labels',
    label_flats fuel (find_flat_edges [] [] flowdirs elevations).1 1
                (setup_labels labels elevations flowdirs) elevations = Done (g, labels')
    ∧ (∀ l, l ∈ assigned_labels labels' ↔ 1 ≤ l < g)
    ∧ Z.of_nat (length (assigned_labels labels')) = g - 1
    ∧ Z.of_nat (length (replicate (Z.to_nat g) 0)) = g.
Proof.
  intros Laws Hfuel. unfold fuel_bound in Hfuel.
  assert (∀ s, s ∈ (find_flat_edges [] [] flowdirs elevations).1 →
               in_grid (setup_labels labels elevations flowdirs) (fst s) (snd s) = true)
    as Hlow.
  { intros s Hs. by apply elem_of_low_edges in Hs as [Hs _]. }
  destruct (label_flats_total elevations fuel (find_flat_edges [] [] flowdirs elevations).1
              1 (setup_labels labels elevations flowdirs))
    as (g & labels' & Hrun); [done|done|done| |].
  { change (all_cells (setup_labels labels elevations flowdirs)) with (all_cells flowdirs).
    lia. }
  exists g, labels'. split; [done|].
  apply (label_flats_inv elevations fuel _ Laws []) in Hrun as (Hinv & Hg & _);
    [|done|by apply labels_inv_start|done].
  destruct (assigned_labels_spec elevations _ g labels' Hg Hinv) as [Hmem Hlen].
  split_and!; [done|done|]. rewrite length_replicate. lia.
Qed.

Lemma label_flats_app (elevations : Array2D T) fuel pre post :
  ∀ g labels,
  label_flats fuel (pre ++ post) g labels elevations =
  '(g1, labels1) ← label_flats fuel pre g labels elevations;
  label_flats fuel post g1 labels1 elevations.
Proof.
  induction pre as [|s pre IH]; intros g labels; [done|].
  cbn [app label_flats]. destruct (at2 labels s =? 0); [|by apply IH].
  destruct (label_this fuel s g labels elevations); try done. cbn [mbind outcome_bind].
  apply IH.
Qed.

(** A labelled cell got its label in the fill of the first seed that
    reached it. *)
Lemma label_flats_first (elevations : Array2D T) fuel low :
  ∀ g labels g2 labels2,
  1 ≤ g → (∀ c, 0 ≤ at2 labels c < g) →
  (∀ s, s ∈ low → in_grid labels (fst s) (snd s) = true) →
  label_flats fuel low g labels elevations = Done (g2, labels2) →
  ∀ c, 0 < at2 labels2 c → at2 labels c = 0 →
  ∃ pre s post g1 labels1 labels1',
    low = pre ++ s :: post
    ∧ label_flats fuel pre g labels elevations = Done (g1, labels1)
    ∧ at2 labels1 s = 0 ∧ at2 labels1 c = 0
    ∧ label_this fuel s g1 labels1 elevations = Done labels1'
    ∧ at2 labels1' c = g1 ∧ at2 labels2 c = g1.
Proof.
  induction low as [|s low IH]; intros g labels g2 labels2 Hg Hr Hgrid Hrun c Hc2 Hc0.
  - simpl in Hrun. inversion Hrun; subst. lia.
  - assert (in_grid labels (fst s) (snd s) = true) as Hs.
    { apply Hgrid, elem_of_cons. by left. }
    cbn [label_flats] in Hrun. destruct (Z.eqb_spec (at2 labels s) 0) as [Hs0|Hs0].
    + destruct (label_this fuel s g labels elevations) as [labels1'| | |] eqn:Hfill;
        try done. cbn [mbind outcome_bind] in Hrun.
      pose proof (label_this_post elevations labels s g fuel labels1' ltac:(lia)
        ltac:(intros x; pose proof (Hr x); lia) Hs Hfill) as [[Hw Hh] Ho Hn _ _ _].
      assert (∀ x, 0 ≤ at2 labels1' x < g + 1) as Hr'.
      { intros x. specialize (Hr x). destruct (Hn x) as [Hx|[Hx _]]; lia. }
      assert (∀ s', s' ∈ low → in_grid labels1' (fst s') (snd s') = true) as Hgrid'.
      { intros s' Hs'. rewrite (in_grid_dims _ labels) by done.
        apply Hgrid, elem_of_cons. by right. }
      destruct (decide (at2 labels1' c = 0)) as [Hz|Hnz].
      * destruct (IH (g + 1) labels1' g2 labels2 ltac:(lia) Hr' Hgrid' Hrun c Hc2 Hz)
          as (pre & s' & post & g1 & labels1 & labels1'' & -> & Hpre & ?).
        exists (s :: pre), s', post, g1, labels1, labels1''. split; [done|].
        split; [|done]. cbn [label_flats]. rewrite Hs0. cbn [Z.eqb].
        rewrite Hfill. done.
      * exists [], s, low, g, labels, labels1'.
        destruct (Hn c) as [Hx|[Hx _]]; [lia|].
        destruct (label_flats_range elevations fuel low (g + 1) labels1' g2 labels2)
          as (_ & _ & Hkeep & _); [lia|done|done|done|].
        split_and!; try done. rewrite Hkeep; lia.
    + destruct (IH g labels g2 labels2 Hg Hr ltac:(intros s' Hs'; apply Hgrid, elem_of_cons; by right) Hrun c Hc2 Hc0)
        as (pre & s' & post & g1 & labels1 & labels1'' & -> & Hpre & ?).
      exists (s :: pre), s', post, g1, labels1, labels1''. split; [done|].
      split; [|done]. cbn [label_flats].
      destruct (Z.eqb_spec (at2 labels s) 0); [done|]. done.
Qed.

Lemma label_this_keeps (elevations : Array2D T) fuel c0 label labels labels' :
  label_this fuel c0 label labels elevations = Done labels' →
  ∀ c, 0 < at2 labels c → at2 labels' c = at2 labels c.
Proof.
  intros Hrun. unfold label_this in Hrun.
  eapply (fill_loop_rule
            (λ _ L, ∀ c, 0 < at2 labels c → at2 L c = at2 labels c));
    [| | | |exact Hrun]; try done.
  intros c rest L HL _ Hc x Hx. rewrite at2_set2_ne; [by apply HL|].
  intros ->. rewrite HL in Hc; lia.
Qed.

(** C10: labels are written once.  [label_this] keeps every positive label;
    the labelling loop ends, and after any prefix of the low edges the rest
    of the loop keeps every positive label; and a cell labelled at the end
    bears the group number of the first low-edge seed, in queue order, whose
    flood fill reached it. *)
Theorem labels_write_once (elevations : Array2D T) (flowdirs labels : Array2D Z)
    (fuel : nat) :
  (fuel_bound flowdirs ≤ fuel)%nat →
  let low := (find_flat_edges [] [] flowdirs elevations).1 in
  let labels0 := setup_labels labels elevations flowdirs in
  (∀ c0 label labels1 labels2,
     label_this fuel c0 label labels1 elevations = Done labels2 →
     ∀ c, 0 < at2 labels1 c → at2 labels2 c = at2 labels1 c)
  ∧ (∀ pre post,
       low = pre ++ post →
       ∃ g1 labels1 g2 labels2,
         label_flats fuel pre 1 labels0 elevations = Done (g1, labels1)
         ∧ label_flats fuel post g1 labels1 elevations = Done (g2, labels2)
         ∧ label_flats fuel low 1 labels0 elevations = Done (g2, labels2)
         ∧ ∀ c, 0 < at2 labels1 c → at2 labels2 c = at2 labels1 c)
  ∧ (∃ g2 labels2,
       label_flats fuel low 1 labels0 elevations = Done (g2, labels2)
       ∧ ∀ c, 0 < at2 labels2 c →
         ∃ pre s post g1 labels1 labels1',
           low = pre ++ s :: post
           ∧ label_flats fuel pre 1 labels0 elevations = Done (g1, labels1)
           ∧ at2 labels1 s = 0 ∧ at2 labels1 c = 0
           ∧ label_this fuel s g1 labels1 elevations = Done labels1'
           ∧ at2 labels1' c = g1 ∧ at2 labels2 c = g1).
Proof.
  intros Hfuel low labels0. unfold fuel_bound in Hfuel.
  assert (∀ s, s ∈ low → in_grid labels0 (fst s) (snd s) = true) as Hlow.
  { intros s Hs. by apply elem_of_low_edges in Hs as [Hs _]. }
  assert (all_cells labels0 = all_cells flowdirs) as Hcells by done.
  split_and!.
  - intros c0 label labels1 labels2 Hrun. by apply (label_this_keeps elevations fuel c0 label).
  - intros pre post Hsplit.
    assert (∀ s, s ∈ pre → in_grid labels0 (fst s) (snd s) = true) as Hpreg.
    { intros s Hs. apply Hlow. rewrite Hsplit. apply elem_of_app. by left. }
    destruct (label_flats_total elevations fuel pre 1 labels0) as (g1 & labels1 & Hpre);
      [done|done|done|rewrite Hcells; lia|].
    destruct (label_flats_range elevations fuel pre 1 labels0 g1 labels1)
      as (Hr1 & Hg1 & _ & Hw1 & Hh1); [done|done|done|done|].
    assert (∀ s, s ∈ post → in_grid labels1 (fst s) (snd s) = true) as Hpostg.
    { intros s Hs. rewrite (in_grid_dims _ labels0) by done.
      apply Hlow. rewrite Hsplit. apply elem_of_app. by right. }
    destruct (label_flats_total elevations fuel post g1 labels1) as (g2 & labels2 & Hpost);
      [lia|done|done| |].
    { rewrite (all_cells_dims labels1 labels0), Hcells by done. lia. }
    destruct (label_flats_range elevations fuel post g1 labels1 g2 labels2)
      as (_ & _ & Hkeep & _); [lia|done|done|done|].
    exists g1, labels1, g2, labels2. split_and!; [done|done| |done].
    rewrite Hsplit, label_flats_app, Hpre. done.
  - destruct (label_flats_total elevations fuel low 1 labels0) as (g2 & labels2 & Hrun);
      [done|done|done|rewrite Hcells; lia|].
    exists g2, labels2. split; [done|]. intros c Hc.
    by apply (label_flats_first elevations fuel low 1 labels0 g2 labels2).
Qed.

End LabelGroups.
Section Gradients.
Context `{FlowDirParams}.

Lemma BuildAwayGradient_spec (flowdirs flat_mask : Array2D Z) (edges : list grid_cell)
    (flat_height : list Z) (labels : Array2D Z) (fuel : nat) :
  (∀ s, s ∈ edges → in_grid labels (fst s) (snd s) = true) →
  (∀ c, at2 flat_mask c = 0) →
  (∀ c, 0 ≤ at2 labels c < Z.of_nat (length flat_height)) →
  (2 * (9 * length (all_cells labels) + length edges + 1) + 1 < fuel)%nat →
  ∃ flat_mask' flat_height',
    BuildAwayGradient fuel flowdirs flat_mask edges flat_height labels
    = Done (flat_mask', flat_height')
    ∧ (∀ c j, min_hops flowdirs labels edges c j → at2 flat_mask' c = Z.of_nat j + 1)
    ∧ (∀ c, reached flowdirs labels edges c ↔ 0 < at2 flat_mask' c)
    ∧ (∀ c, ¬ reached flowdirs labels edges c → at2 flat_mask' c = 0)
    ∧ (∀ c, reached flowdirs labels edges c →
         ∃ h, vec_get flat_height' (at2 labels c) = Some h
              ∧ (∃ c' j, at2 labels c' = at2 labels c
                         ∧ min_hops flowdirs labels edges c' j ∧ h = Z.of_nat j + 1)
              ∧ (∀ c' j, at2 labels c' = at2 labels c →
                         min_hops flowdirs labels edges c' j → Z.of_nat j + 1 ≤ h)).
Proof.
  intros Hs Hm Hr Hfuel.
  destruct (BuildAwayGradient_inv flowdirs labels fuel flat_mask edges flat_height)
    as (k & M' & H' & Hrun & [Hb Hk Hd Hl Hmax Hhit]); [done| |done|done|].
  { intros c. rewrite Hm. lia. }
  destruct (bfs_inv_result flowdirs labels edges (at2 M') k Hb) as (Hdepth & Hreach & Hmin).
  exists M', H'. split_and!; [done|done|done| |].
  - intros c Hc. destruct (decide (0 < at2 M' c)) as [Hpos|Hnpos].
    + by apply Hreach in Hpos.
    + rewrite Hk by lia. apply Hm.
  - intros c Hc. apply Hreach in Hc.
    destruct (vec_get_is_Some H' (at2 labels c)) as [h Hget]; [rewrite Hl; apply Hr|].
    exists h. split; [done|]. split.
    + destruct (Hhit _ _ Hget) as [[_ Hnone]|(c' & Hc' & Hv & Hpos)].
      * specialize (Hnone c eq_refl). lia.
      * destruct (Hmin c') as (j & Hj & Hjv); [lia|]. exists c', j. split_and!; [done|done|lia].
    + intros c' j Hc' Hj. rewrite <- (Hdepth c' j Hj). apply Hmax.
      * rewrite (Hdepth c' j Hj). lia.
      * by rewrite Hc'.
Qed.

(** C2 (amended): [BuildAwayGradient] on a mask of zeros ends; a cell that
    a walk from a high edge reaches (through cells of its label that are
    marked [NO_FLOW]) gets the least number of hops of such a walk plus one,
    so that a high edge itself gets 1; the other cells keep 0; and
    [flat_height] at the label of a reached cell is the largest mask of that
    label, the largest least number of hops plus one. *)
Theorem BuildAwayGradient_depth (flowdirs flat_mask : Array2D Z) (edges : list grid_cell)
    (flat_height : list Z) (labels : Array2D Z) (fuel : nat) :
  (∀ s, s ∈ edges → in_grid labels (fst s) (snd s) = true) →
  (∀ c, at2 flat_mask c = 0) →
  (∀ c, 0 ≤ at2 labels c < Z.of_nat (length flat_height)) →
  (2 * (9 * length (all_cells labels) + length edges + 1) + 1 < fuel)%nat →
  ∃ flat_mask' flat_height',
    BuildAwayGradient fuel flowdirs flat_mask edges flat_height labels
    = Done (flat_mask', flat_height')
    ∧ (∀ c j, min_hops flowdirs labels edges c j → at2 flat_mask' c = Z.of_nat j + 1)
    ∧ (∀ c, reached flowdirs labels edges c ↔ 0 < at2 flat_mask' c)
    ∧ (∀ c, ¬ reached flowdirs labels edges c → at2 flat_mask' c = 0)
    ∧ (∀ c, reached flowdirs labels edges c →
         ∃ h, vec_get flat_height' (at2 labels c) = Some h
              ∧ (∃ c' j, at2 labels c' = at2 labels c
                         ∧ min_hops flowdirs labels edges c' j ∧ h = Z.of_nat j + 1)
              ∧ (∀ c' j, at2 labels c' = at2 labels c →
                         min_hops flowdirs labels edges c' j → Z.of_nat j + 1 ≤ h)).
Proof. apply BuildAwayGradient_spec. Qed.

Lemma towards_loop_assigns (flowdirs labels : Array2D Z) (flat_height : list Z)
    fuel c rest loops (flat_mask : Array2D Z) :
  rest ≠ [] → fst c ≠ -1 → at2 flat_mask c ≤ 0 →
  towards_loop (S fuel) flowdirs labels (c :: rest) loops flat_mask flat_height =
  if decide (at2 flat_mask c = 0) then
    towards_loop fuel flowdirs labels (rest ++ flat_pushes flowdirs labels c) loops
                 (set2 flat_mask c (2 * loops)) flat_height
  else
    match vec_get flat_height (at2 labels c) with
    | Some h =>
      towards_loop fuel flowdirs labels (rest ++ flat_pushes flowdirs labels c) loops
                   (set2 flat_mask c ((h + at2 flat_mask c) + 2 * loops)) flat_height
    | None => IndexOutOfRange
    end.
Proof.
  intros Hrest Hc Hm. destruct rest as [|r rest]; [done|]. cbn [towards_loop].
  destruct (Z.eqb_spec (fst c) (-1)); [done|].
  destruct (Z.gtb_spec (at2 flat_mask c) 0); [lia|].
  destruct (Z.eqb_spec (at2 flat_mask c) 0); by case_decide.
Qed.

Lemma BuildTowardsCombinedGradient_spec (flowdirs flat_mask : Array2D Z)
    (edges : list grid_cell) (flat_height : list Z) (labels : Array2D Z) (fuel : nat) :
  (∀ s, s ∈ edges → in_grid labels (fst s) (snd s) = true) →
  (∀ c, 0 ≤ at2 flat_mask c) →
  (∀ c, in_grid flat_mask (fst c) (snd c) = false → at2 flat_mask c = 0) →
  (∀ c, at2 flat_mask c ≠ 0 →
     ∃ h, vec_get flat_height (at2 labels c) = Some h ∧ at2 flat_mask c ≤ h) →
  (2 * (9 * length (all_cells labels) + length edges + 1) + 1 < fuel)%nat →
  ∃ flat_mask',
    BuildTowardsCombinedGradient fuel flowdirs flat_mask edges flat_height labels
    = Done flat_mask'
    ∧ (∀ c j, min_hops flowdirs labels edges c j → at2 flat_mask c = 0 →
              at2 flat_mask' c = 2 * (Z.of_nat j + 1))
    ∧ (∀ c j h, min_hops flowdirs labels edges c j → at2 flat_mask c ≠ 0 →
                vec_get flat_height (at2 labels c) = Some h →
                at2 flat_mask' c = (h - at2 flat_mask c) + 2 * (Z.of_nat j + 1))
    ∧ (∀ c, ¬ reached flowdirs labels edges c → at2 flat_mask' c = - at2 flat_mask c).
Proof.
  intros Hs Hm Hout Hh Hfuel.
  destruct (BuildTowardsCombinedGradient_inv flowdirs labels fuel flat_mask edges flat_height)
    as (Hneg & lev & k & M' & Hrun & [Hb Hk Hmk Hd]); [done|done|done|done|done|].
  destruct (bfs_inv_result flowdirs labels edges lev k Hb) as (Hdepth & Hreach & Hmin).
  exists M'. split_and!; [done| | |].
  - intros c j Hj Hz. rewrite Hmk by (rewrite (Hdepth c j Hj); lia).
    rewrite (Hdepth c j Hj). unfold gain. rewrite Hneg, Hz. simpl. lia.
  - intros c j h Hj Hnz Hget. rewrite Hmk by (rewrite (Hdepth c j Hj); lia).
    rewrite (Hdepth c j Hj). unfold gain. rewrite Hneg, Hget.
    destruct (Z.eqb_spec (- at2 flat_mask c) 0); [lia|]. simpl. lia.
  - intros c Hc. rewrite Hk, Hneg; [done|].
    destruct (decide (0 < lev c)) as [Hpos|]; [|lia]. by apply Hreach in Hpos.
Qed.

(** C3: [BuildTowardsCombinedGradient] first negates the mask; a dequeued
    cell whose mask is not positive is assigned [2*loops] when its mask is 0
    and [(flat_height[label] + mask) + 2*loops] otherwise; and at the end a cell
    whose least number of hops from a low edge is [j] -- marked at the
    wavefront depth B = [j+1] -- holds 2B when the away gradient left it at 0
    and 2B + (H - A) when the away gradient gave it A > 0, while the cells
    that no walk reaches hold the negated value. *)
Theorem BuildTowardsCombinedGradient_closed_form (flowdirs flat_mask : Array2D Z)
    (edges : list grid_cell) (flat_height : list Z) (labels : Array2D Z) (fuel : nat) :
  (∀ s, s ∈ edges → in_grid labels (fst s) (snd s) = true) →
  (∀ c, 0 ≤ at2 flat_mask c) →
  (∀ c, in_grid flat_mask (fst c) (snd c) = false → at2 flat_mask c = 0) →
  (∀ c, at2 flat_mask c ≠ 0 →
     ∃ h, vec_get flat_height (at2 labels c) = Some h ∧ at2 flat_mask c ≤ h) →
  (2 * (9 * length (all_cells labels) + length edges + 1) + 1 < fuel)%nat →
  (∀ c, at2 (negate_mask flat_mask) c = - at2 flat_mask c)
  ∧ (∀ fuel' c rest loops mask,
       rest ≠ [] → fst c ≠ -1 → at2 mask c ≤ 0 →
       towards_loop (S fuel') flowdirs labels (c :: rest) loops mask flat_height =
       if decide (at2 mask c = 0) then
         towards_loop fuel' flowdirs labels (rest ++ flat_pushes flowdirs labels c) loops
                      (set2 mask c (2 * loops)) flat_height
       else
         match vec_get flat_height (at2 labels c) with
         | Some h =>
           towards_loop fuel' flowdirs labels (rest ++ flat_pushes flowdirs labels c) loops
                        (set2 mask c ((h + at2 mask c) + 2 * loops)) flat_height
         | None => IndexOutOfRange
         end)
  ∧ ∃ flat_mask',
      BuildTowardsCombinedGradient fuel flowdirs flat_mask edges flat_height labels
      = Done flat_mask'
      ∧ (∀ c j, min_hops flowdirs labels edges c j → at2 flat_mask c = 0 →
                at2 flat_mask' c = 2 * (Z.of_nat j + 1))
      ∧ (∀ c j h, min_hops flowdirs labels edges c j → at2 flat_mask c ≠ 0 →
                  vec_get flat_height (at2 labels c) = Some h →
                  at2 flat_mask' c = (h - at2 flat_mask c) + 2 * (Z.of_nat j + 1))
      ∧ (∀ c, ¬ reached flowdirs labels edges c → at2 flat_mask' c = - at2 flat_mask c).
Proof.
  intros Hs Hm Hout Hh Hfuel. split_and!.
  - by apply (BuildTowardsCombinedGradient_inv flowdirs labels fuel flat_mask edges flat_height).
  - intros. by apply towards_loop_assigns.
  - by apply BuildTowardsCombinedGradient_spec.
Qed.

End Gradients.
Section Wellformed.
Context `{FlowDirParams} {T : Type} `{ElevOps T}.

Lemma nodata_apartb_spec (flowdirs : Array2D Z) (elevations : Array2D T) :
  nodata_apartb flowdirs elevations = true → nodata_apart flowdirs elevations.
Proof.
  unfold nodata_apartb, nodata_apart. intros Hb c n Hn Hc Hnc He.
  rewrite forallb_forall in Hb.
  specialize (Hb c ltac:(by apply list_elem_of_In, elem_of_all_cells)).
  cbv beta in Hb. rewrite forallb_forall in Hb.
  specialize (Hb n ltac:(by apply list_elem_of_In)). cbv beta in Hb.
  rewrite Hnc, He in Hb. simpl in Hb. apply eqb_prop in Hb.
  rewrite <- !Z.eqb_eq. by rewrite Hb.
Qed.

Lemma has_gradientb_spec (flowdirs : Array2D Z) (elevations : Array2D T) :
  has_gradientb flowdirs elevations = true → has_gradient flowdirs elevations.
Proof.
  unfold has_gradientb, has_gradient. intros Hb c Hc Hnf Hnd.
  rewrite forallb_forall in Hb.
  specialize (Hb c ltac:(by apply list_elem_of_In, elem_of_all_cells)).
  cbv beta in Hb. apply orb_true_iff in Hb as [Hb|Hb].
  - apply orb_true_iff in Hb as [Hb|Hb]; apply Z.eqb_eq in Hb; done.
  - apply existsb_exists in Hb as (n & Hn & Hb). apply list_elem_of_In in Hn.
    apply andb_true_iff in Hb as [Hg Hl]. eauto.
Qed.

Lemma opposite_offsets n :
  n ∈ d8_range →
  opposite n ∈ d8_range ∧ dx (opposite n) = - dx n ∧ dy (opposite n) = - dy n.
Proof.
  intros Hn. unfold d8_range in Hn.
  repeat (apply elem_of_cons in Hn as [->|Hn];
          [split; [vm_compute; repeat constructor|by vm_compute]|]).
  by apply elem_of_nil in Hn.
Qed.

Lemma opposite_spec c n :
  n ∈ d8_range → opposite n ∈ d8_range ∧ neighbour (neighbour c n) (opposite n) = c.
Proof.
  intros Hn. destruct (opposite_offsets n Hn) as (Ho & Hx & Hy). split; [done|].
  destruct c as [x y]. unfold neighbour. cbn [fst snd]. rewrite Hx, Hy. f_equal; lia.
Qed.

End Wellformed.
Section Resolved.
Context `{FlowDirParams} {T : Type} `{ElevOps T}.

Lemma walk_property (flowdirs labels : Array2D Z) seeds (P : grid_cell → Prop) :
  (∀ s, s ∈ seeds → P s) →
  (∀ p c, P p → c ∈ flat_pushes flowdirs labels p → P c) →
  ∀ j c, walk flowdirs labels seeds j c → P c.
Proof. intros Hs Hstep j c Hw. induction Hw; eauto. Qed.

Lemma edge_class_data (flowdirs : Array2D Z) (elevations : Array2D T) c :
  edge_class flowdirs elevations c ≠ NoEdge → at2 flowdirs c ≠ noData flowdirs.
Proof. unfold edge_class. by destruct (Z.eqb_spec (at2 flowdirs c) (noData flowdirs)). Qed.

(** A flat cell of a labelled flat is reached by the expansion from the low
    edges. *)
Lemma linked_reached (elevations : Array2D T) (flowdirs labels : Array2D Z) seeds g :
  ElevLaws T → NO_FLOW ≠ noData flowdirs → nodata_apart flowdirs elevations →
  (∀ x y, in_grid labels x y = in_grid flowdirs x y) →
  labels_inv elevations seeds g labels →
  ∀ s c, linked labels s c →
  s ∈ (find_flat_edges [] [] flowdirs elevations).1 →
  at2 flowdirs c ≠ noData flowdirs
  ∧ (at2 flowdirs c = NO_FLOW →
     reached flowdirs labels (find_flat_edges [] [] flowdirs elevations).1 c).
Proof.
  intros Laws Hnf Hnd Hgrid Hinv s c Hlink Hs.
  induction Hlink as [Hpos Hg|p n Hp IH Hn Hg Hl].
  - apply elem_of_low_edges in Hs as [_ Hs]. split.
    + apply (edge_class_data flowdirs elevations). by rewrite Hs.
    + intros Hflat. by pose proof (low_edge_has_flow _ _ _ Hs).
  - destruct IH as [Hdata Hreach].
    pose proof (linked_pos _ _ _ Hp) as Hpos.
    pose proof (linked_in_grid _ _ _ Hp) as Hpg. rewrite Hgrid in Hpg, Hg.
    assert (elev_eqb (at2 elevations (neighbour p n)) (at2 elevations p) = true) as He.
    { apply (elev_eqb_sym _ Laws). apply (lab_elev _ _ _ _ Hinv); [done|by rewrite Hl]. }
    assert (at2 flowdirs (neighbour p n) ≠ noData flowdirs) as Hdata'.
    { intros Hx. apply Hdata. by apply (Hnd p n Hn Hpg Hg He). }
    split; [done|]. intros Hflat.
    assert (neighbour p n ∈ flat_pushes flowdirs labels p) as Hpush.
    { apply elem_of_flat_pushes. rewrite Hgrid. eauto 10. }
    destruct (decide (at2 flowdirs p = NO_FLOW)) as [Hpf|Hpf].
    + destruct (Hreach Hpf) as [j Hj]. exists (S j). by apply walk_step with p.
    + exists 1%nat. apply walk_step with p; [|done]. apply walk_seed.
      apply elem_of_low_edges. split; [done|]. unfold edge_class.
      destruct (Z.eqb_spec (at2 flowdirs p) (noData flowdirs)); [done|].
      by apply scan_edges_complete with n.
Qed.

(** What holds of the result of [resolve_flats_barnes] on a raster with a
    flat that has an outlet; [lev c] is the depth at which the expansion
    from the low edges marked [c] and [gn c] what the away gradient
    contributes to the mask of [c]. *)
Lemma resolve_flats_barnes_facts (elevations : Array2D T)
    (flowdirs flat_mask labels : Array2D Z) (fuel : nat) :
  ElevLaws T →
  viewWidth elevations = viewWidth flowdirs →
  viewHeight elevations = viewHeight flowdirs →
  NO_FLOW ≠ noData flowdirs →
  nodata_apart flowdirs elevations →
  (fuel_bound flowdirs ≤ fuel)%nat →
  (find_flat_edges [] [] flowdirs elevations).1 ≠ [] →
  ∃ (labels1 maskT : Array2D Z) (log : list diagnostic) (lev gn : grid_cell → Z),
    resolve_flats_barnes fuel elevations flowdirs flat_mask labels
    = Done (mkResolved maskT labels1 log)
    ∧ (∀ c, 0 ≤ at2 labels1 c)
    ∧ (∀ c c', 0 < at2 labels1 c → at2 labels1 c = at2 labels1 c' →
               elev_eqb (at2 elevations c) (at2 elevations c') = true)
    ∧ (∀ c, 0 < at2 labels1 c → at2 flowdirs c ≠ noData flowdirs)
    ∧ (∀ c, lev c ≤ 0 → at2 maskT c = 0)
    ∧ (∀ c, 0 < lev c →
         at2 maskT c = gn c + 2 * lev c ∧ 0 ≤ gn c ∧ 0 < at2 labels1 c
         ∧ in_grid flowdirs (fst c) (snd c) = true)
    ∧ (∀ c, 0 < at2 labels1 c → at2 flowdirs c = NO_FLOW → 0 < lev c)
    ∧ (∀ c, 0 < lev c →
         c ∈ (find_flat_edges [] [] flowdirs elevations).1
         ∨ ∃ p, 0 < lev p ∧ lev c = lev p + 1
                ∧ c ∈ flat_pushes flowdirs labels1 p ∧ gn p ≤ gn c + 1).
Proof.
  intros Laws Hw Hh Hnf Hnd Hfuel Hlow.
  destruct (resolve_flats_barnes_run elevations flowdirs flat_mask labels fuel Hw Hh Hfuel Hlow)
    as (g & L1 & k & maskA & heightA & lev & k' & maskT & Hrun).
  cbn zeta in Hrun.
  destruct Hrun as (Hlab & Hg & Hrange & Hw1 & Hh1 & _ & HinvA & Hneg & _ & HinvT & Hres).
  set (low := (find_flat_edges [] [] flowdirs elevations).1) in *.
  set (high := (find_flat_edges [] [] flowdirs elevations).2) in *.
  set (high' := prune_high_edges L1 high) in *.
  assert (∀ x y, in_grid L1 x y = in_grid flowdirs x y) as Hgrid.
  { intros x y. by apply in_grid_dims. }
  destruct (label_flats_inv elevations fuel low Laws [] 1
              (setup_labels labels elevations flowdirs) g L1) as (Hinv & _);
    [done|by apply labels_inv_start| |exact Hlab|].
  { intros s Hs. by apply elem_of_low_edges in Hs as [Hs _]. }
  cbn [app] in Hinv.
  destruct HinvA as [HbA HkA HdA HlA HmaxA HhitA].
  destruct HinvT as [HbT HkT HmT HdT].
  destruct (bfs_inv_result _ _ _ _ _ HbA) as (HdepthA & HreachA & HminA).
  destruct (bfs_inv_result _ _ _ _ _ HbT) as (HdepthT & HreachT & HminT).
  set (gn := gain L1 (negate_mask maskA) heightA) in *.
  (* the away gradient *)
  assert (∀ c, at2 maskA c ≤ 0 → at2 maskA c = 0) as HzeroA.
  { intros c Hc. by rewrite (HkA c Hc). }
  assert (∀ c, 0 < at2 maskA c → at2 flowdirs c = NO_FLOW ∧ 0 < at2 L1 c) as HflatA.
  { intros c Hc. apply HreachA in Hc as [j Hj]. revert j c Hj. apply walk_property.
    - intros s [Hs1 Hs2]%elem_of_prune_high_edges.
      apply elem_of_high_edges in Hs2 as [_ Hs2].
      pose proof (high_edge_no_flow _ _ _ Hs2).
      specialize (Hrange s). split; [done|lia].
    - intros p c [_ Hp] (_ & Hl & Hf & _)%elem_of_flat_pushes. split; [done|lia]. }
  assert (∀ p c, 0 < at2 maskA p → c ∈ flat_pushes flowdirs L1 p →
                 0 < at2 maskA c ≤ at2 maskA p + 1) as HstepA.
  { intros p c Hp Hc. destruct (HminA p Hp) as (i & [Hi _] & Hpi).
    assert (walk flowdirs L1 high' (S i) c) as Hwc by by apply walk_step with p.
    assert (0 < at2 maskA c) as Hcpos by (apply HreachA; by exists (S i)).
    split; [done|]. destruct (HminA c Hcpos) as (j & [_ Hjmin] & Hcj).
    destruct (decide (j ≤ S i)%nat) as [Hle|Hgt]; [lia|].
    destruct (Hjmin (S i)); [lia|done]. }
  assert (∀ c, 0 ≤ gn c) as Hgn.
  { intros c. unfold gn, gain. rewrite Hneg.
    destruct (Z.eqb_spec (- at2 maskA c) 0); [done|].
    destruct (vec_get_is_Some heightA (at2 L1 c)) as [h Hget].
    { rewrite HlA, length_replicate. specialize (Hrange c). lia. }
    rewrite Hget. simpl. assert (0 < at2 maskA c) as Hpos.
    { destruct (decide (0 < at2 maskA c)); [done|]. specialize (HzeroA c). lia. }
    specialize (HmaxA c h Hpos Hget). lia. }
  (* the gradient towards the low edges *)
  assert (∀ c, 0 < lev c → 0 < at2 L1 c ∧ in_grid flowdirs (fst c) (snd c) = true) as HlabT.
  { intros c Hc. apply HreachT in Hc as [j Hj]. revert j c Hj. apply walk_property.
    - intros s Hs. split; [by apply (lab_seeds _ _ _ _ Hinv)|].
      by apply elem_of_low_edges in Hs as [Hs _].
    - intros p c [Hp _] (Hcg & Hl & _)%elem_of_flat_pushes. rewrite Hgrid in Hcg.
      split; [lia|done]. }
  assert (∀ c, 0 < at2 L1 c →
               at2 flowdirs c ≠ noData flowdirs
               ∧ (at2 flowdirs c = NO_FLOW → 0 < lev c)) as Hall.
  { intros c Hc. destruct (lab_linked _ _ _ _ Hinv c Hc) as (s & Hs & Hlink).
    destruct (linked_reached elevations flowdirs L1 low g Laws Hnf Hnd Hgrid Hinv s c Hlink Hs)
      as [Hdata Hreach].
    split; [done|]. intros Hf. apply HreachT. by apply Hreach. }
  eexists L1, maskT, _, lev, gn. split; [exact Hres|]. split_and!.
  - intros c. apply Hrange.
  - apply (lab_elev _ _ _ _ Hinv).
  - intros c Hc. by apply Hall.
  - intros c Hc. rewrite HkT, Hneg by done.
    destruct (decide (0 < at2 maskA c)) as [Hpos|Hn]; [|specialize (HzeroA c); lia].
    destruct (HflatA c Hpos) as [Hf Hl]. destruct (Hall c Hl) as [_ Hr].
    specialize (Hr Hf). lia.
  - intros c Hc. destruct (HlabT c Hc). split_and!; [by apply HmT|done|done|done].
  - intros c Hc Hf. by apply Hall.
  - intros c Hc. destruct (HminT c Hc) as (j & [Hwj Hjmin] & Hcj).
    inversion Hwj as [s Hs|j' p c' Hp Hpush]; subst; [by left|right].
    assert (0 < lev p) as Hppos by (apply HreachT; by exists j').
    destruct (HminT p Hppos) as (i & [Hwi Himin] & Hpi).
    exists p. split; [done|]. split.
    + assert (i = j') as ->; [|lia].
      destruct (decide (i < j')%nat) as [Hlt|Hge].
      * destruct (Hjmin (S i)); [lia|]. by apply walk_step with p.
      * destruct (decide (j' < i)%nat) as [Hlt|Hge']; [|lia]. by destruct (Himin j').
    + split; [done|]. unfold gn, gain. rewrite !Hneg.
      apply elem_of_flat_pushes in Hpush as Hpush'. destruct Hpush' as (_ & Hl & _).
      destruct (Z.eqb_spec (- at2 maskA p) 0) as [Hpz|Hpz].
      * specialize (Hgn c). unfold gn, gain in Hgn. rewrite Hneg in Hgn. lia.
      * assert (0 < at2 maskA p) as HpA.
        { destruct (decide (0 < at2 maskA p)); [done|]. specialize (HzeroA p). lia. }
        destruct (HstepA p c HpA Hpush) as [HcA Hle].
        destruct (Z.eqb_spec (- at2 maskA c) 0); [lia|]. rewrite Hl. lia.
Qed.

End Resolved.
Section Resolution.
Context `{FlowDirParams} {T : Type} `{ElevOps T}.

(** C9: [resolve_flats_barnes] never indexes [flat_height] out of range:
    with enough fuel it ends in a result; the labelling ends with every label
    at least 0 and below [group_number], the length [flat_height] is created
    with; the cells the expansions push bear the label of the cell they were
    pushed from, and the high edges kept are labelled. *)
Theorem flat_height_in_bounds (elevations : Array2D T)
    (flowdirs flat_mask labels : Array2D Z) (fuel : nat) :
  viewWidth elevations = viewWidth flowdirs →
  viewHeight elevations = viewHeight flowdirs →
  (fuel_bound flowdirs ≤ fuel)%nat →
  (∃ r, resolve_flats_barnes fuel elevations flowdirs flat_mask labels = Done r)
  ∧ (∃ g labels1,
       label_flats fuel (find_flat_edges [] [] flowdirs elevations).1 1
                   (setup_labels labels elevations flowdirs) elevations
       = Done (g, labels1)
       ∧ Z.of_nat (length (replicate (Z.to_nat g) 0)) = g
       ∧ (∀ c, 0 ≤ at2 labels1 c < g)
       ∧ (∀ p c, c ∈ flat_pushes flowdirs labels1 p → at2 labels1 c = at2 labels1 p)
       ∧ (∀ s, s ∈ prune_high_edges labels1 (find_flat_edges [] [] flowdirs elevations).2 →
               0 < at2 labels1 s)).
Proof.
  intros Hw Hh Hfuel. split.
  - destruct (decide ((find_flat_edges [] [] flowdirs elevations).1 = [])) as [Hlow|Hlow].
    + eexists. by apply resolve_flats_barnes_no_outlet.
    + destruct (resolve_flats_barnes_run elevations flowdirs flat_mask labels fuel
                  Hw Hh Hfuel Hlow)
        as (g & L1 & k & maskA & heightA & lev & k' & maskT & Hrun).
      cbn zeta in Hrun. eexists. apply Hrun.
  - assert (∀ s, s ∈ (find_flat_edges [] [] flowdirs elevations).1 →
                 in_grid (setup_labels labels elevations flowdirs) (fst s) (snd s) = true)
      as Hlow.
    { intros s Hs. by apply elem_of_low_edges in Hs as [Hs _]. }
    destruct (label_flats_total elevations fuel
                (find_flat_edges [] [] flowdirs elevations).1 1
                (setup_labels labels elevations flowdirs)) as (g & labels1 & Hlab);
      [done|done|done| |].
    { change (all_cells (setup_labels labels elevations flowdirs))
        with (all_cells flowdirs). unfold fuel_bound in Hfuel. lia. }
    destruct (label_flats_range elevations fuel
                (find_flat_edges [] [] flowdirs elevations).1 1
                (setup_labels labels elevations flowdirs) g labels1) as (Hr & Hg & _);
      [done|done|done|exact Hlab|].
    exists g, labels1. split_and!.
    + done.
    + rewrite length_replicate. lia.
    + done.
    + intros p c Hc. by apply elem_of_flat_pushes in Hc as (_ & Hl & _).
    + intros s [Hs _]%elem_of_prune_high_edges. specialize (Hr s). lia.
Qed.

(** C6: when [resolve_flats_barnes] ran both gradients, no cell of the mask
    is negative: a cell outside the labelled flats holds 0 and every other
    cell holds 0 or at least 1. *)
Theorem final_mask_nonnegative (elevations : Array2D T)
    (flowdirs flat_mask labels : Array2D Z) (fuel : nat) :
  ElevLaws T →
  viewWidth elevations = viewWidth flowdirs →
  viewHeight elevations = viewHeight flowdirs →
  NO_FLOW ≠ noData flowdirs →
  nodata_apart flowdirs elevations →
  (fuel_bound flowdirs ≤ fuel)%nat →
  (find_flat_edges [] [] flowdirs elevations).1 ≠ [] →
  ∃ r, resolve_flats_barnes fuel elevations flowdirs flat_mask labels = Done r
       ∧ ∀ c, 0 ≤ at2 (res_flat_mask r) c
              ∧ (at2 (res_labels r) c = 0 → at2 (res_flat_mask r) c = 0)
              ∧ (at2 (res_flat_mask r) c = 0 ∨ 1 ≤ at2 (res_flat_mask r) c).
Proof.
  intros Laws Hw Hh Hnf Hnd Hfuel Hlow.
  destruct (resolve_flats_barnes_facts elevations flowdirs flat_mask labels fuel
              Laws Hw Hh Hnf Hnd Hfuel Hlow)
    as (L1 & maskT & log & lev & gn & Hres & _ & _ & _ & Hzero & Hmarked & _ & _).
  eexists. split; [exact Hres|]. cbn [res_flat_mask res_labels]. intros c.
  destruct (decide (0 < lev c)) as [Hpos|Hnpos].
  - destruct (Hmarked c Hpos) as (-> & Hg & Hl & _). split_and!; [lia|lia|right; lia].
  - rewrite Hzero by lia. split_and!; [done|done|by left].
Qed.

(** C1: in the final mask every labelled cell other than the low-edge seeds
    has a neighbour of its flat with a strictly smaller mask, or else a
    neighbour outside its flat at a strictly lower elevation. *)
Theorem final_mask_drains (elevations : Array2D T)
    (flowdirs flat_mask labels : Array2D Z) (fuel : nat) :
  ElevLaws T →
  viewWidth elevations = viewWidth flowdirs →
  viewHeight elevations = viewHeight flowdirs →
  NO_FLOW ≠ noData flowdirs →
  nodata_apart flowdirs elevations →
  has_gradient flowdirs elevations →
  (fuel_bound flowdirs ≤ fuel)%nat →
  (find_flat_edges [] [] flowdirs elevations).1 ≠ [] →
  ∃ r, resolve_flats_barnes fuel elevations flowdirs flat_mask labels = Done r
       ∧ ∀ c, in_grid flowdirs (fst c) (snd c) = true →
              0 < at2 (res_labels r) c →
              c ∉ (find_flat_edges [] [] flowdirs elevations).1 →
              (∃ n, n ∈ d8_range
                    ∧ in_grid flowdirs (fst (neighbour c n)) (snd (neighbour c n)) = true
                    ∧ at2 (res_labels r) (neighbour c n) = at2 (res_labels r) c
                    ∧ at2 (res_flat_mask r) (neighbour c n) < at2 (res_flat_mask r) c)
              ∨ (∃ n, n ∈ d8_range
                      ∧ in_grid flowdirs (fst (neighbour c n)) (snd (neighbour c n)) = true
                      ∧ at2 (res_labels r) (neighbour c n) ≠ at2 (res_labels r) c
                      ∧ elev_ltb (at2 elevations (neighbour c n)) (at2 elevations c) = true).
Proof.
  intros Laws Hw Hh Hnf Hnd Hgrad Hfuel Hlow.
  destruct (resolve_flats_barnes_facts elevations flowdirs flat_mask labels fuel
              Laws Hw Hh Hnf Hnd Hfuel Hlow)
    as (L1 & maskT & log & lev & gn & Hres & Hnn & Helev & Hdata & Hzero & Hmarked
        & Hflat & Hpred).
  eexists. split; [exact Hres|]. cbn [res_flat_mask res_labels]. intros c Hc Hl Hseed.
  destruct (decide (at2 flowdirs c = NO_FLOW)) as [Hf|Hf].
  - left. specialize (Hflat c Hl Hf).
    destruct (Hpred c Hflat) as [Hin|(p & Hp & Hlev & Hpush & Hgn)]; [done|].
    apply elem_of_flat_pushes in Hpush as (_ & Hlp & _ & n & Hn & Hcn).
    destruct (opposite_spec p n Hn) as [Ho Hback]. rewrite <- Hcn in Hback.
    exists (opposite n). rewrite Hback.
    destruct (Hmarked p Hp) as (-> & _ & _ & Hpg).
    destruct (Hmarked c Hflat) as (-> & _ & _ & _).
    split_and!; [done|done|done|lia].
  - right. destruct (Hgrad c Hc Hf (Hdata c Hl)) as (n & Hn & Hng & Hlt).
    exists n. split_and!; [done|done| |done].
    intros Heq. apply (elev_ltb_neq _ Laws) in Hlt.
    rewrite (elev_eqb_sym _ Laws _ _ (Helev c (neighbour c n) Hl (eq_sym Heq))) in Hlt.
    done.
Qed.

End Resolution.
Section Bounds.
Context `{FlowDirParams} {T : Type} `{ElevOps T}.

(** The counter of an expansion never exceeds the number of cells plus one;
    so no mark does. *)
Lemma bfs_inv_bound (flowdirs labels : Array2D Z) seeds lev k Q1 Q2 c :
  bfs_inv flowdirs labels seeds lev k Q1 Q2 →
  lev c ≤ Z.of_nat (length (all_cells labels)) + 1.
Proof.
  intros Hinv. destruct (decide (0 < lev c)) as [Hpos|]; [|lia].
  destruct (bfs_lev _ _ _ _ _ _ _ Hinv c Hpos) as (j & -> & _ & Hj).
  destruct (bfs_depth _ _ _ _ _ _ _ Hinv) as [Hd _]. lia.
Qed.

(** The values [resolve_flats_barnes] computes stay within three times the
    number of cells (plus three): on a raster of fewer than 2^29 cells the
    32-bit integers of the source hold them all. *)
Lemma resolve_flats_barnes_bounded (elevations : Array2D T)
    (flowdirs flat_mask labels : Array2D Z) (fuel : nat) r :
  viewWidth elevations = viewWidth flowdirs →
  viewHeight elevations = viewHeight flowdirs →
  (fuel_bound flowdirs ≤ fuel)%nat →
  resolve_flats_barnes fuel elevations flowdirs flat_mask labels = Done r →
  ∀ c, - (Z.of_nat (length (all_cells flowdirs)) + 1) ≤ at2 (res_flat_mask r) c
       ∧ at2 (res_flat_mask r) c ≤ 3 * (Z.of_nat (length (all_cells flowdirs)) + 1).
Proof.
  intros Hw Hh Hfuel Hres c.
  destruct (decide ((find_flat_edges [] [] flowdirs elevations).1 = [])) as [Hlow|Hlow].
  - rewrite resolve_flats_barnes_no_outlet in Hres by done. inversion Hres; subst r.
    cbn. lia.
  - destruct (resolve_flats_barnes_run elevations flowdirs flat_mask labels fuel
                Hw Hh Hfuel Hlow)
      as (g & L1 & k & maskA & heightA & lev & k' & maskT & Hrun).
    cbn zeta in Hrun.
    destruct Hrun as (_ & Hg & Hrange & Hw1 & Hh1 & _ & HinvA & Hneg & _ & HinvT & Hres').
    rewrite Hres' in Hres. inversion Hres; subst r. cbn [res_flat_mask].
    assert (all_cells L1 = all_cells flowdirs) as Hcells by by apply all_cells_dims.
    set (N := Z.of_nat (length (all_cells flowdirs))) in *.
    destruct HinvA as [HbA HkA _ HlA HmaxA HhitA]. destruct HinvT as [HbT HkT HmT _].
    assert (∀ x, 0 ≤ at2 maskA x ≤ N + 1) as HA.
    { intros x. pose proof (bfs_inv_bound _ _ _ _ _ _ _ x HbA) as Hx. rewrite Hcells in Hx.
      split; [|done]. destruct (decide (0 < at2 maskA x)); [lia|]. rewrite HkA; [done|lia]. }
    assert (∀ l h, vec_get heightA l = Some h → 0 ≤ h ≤ N + 1) as HH.
    { intros l h Hget. destruct (HhitA l h Hget) as [[Hold _]|(x & _ & <- & _)]; [|apply HA].
      unfold vec_get in Hold. destruct (0 <=? l); [|done].
      apply lookup_replicate in Hold as [-> _]. lia. }
    destruct (decide (0 < lev c)) as [Hpos|Hnpos].
    + rewrite HmT by done. pose proof (bfs_inv_bound _ _ _ _ _ _ _ c HbT) as Hc.
      rewrite Hcells in Hc. fold N in Hc. unfold gain. rewrite Hneg.
      destruct (Z.eqb_spec (- at2 maskA c) 0); [lia|].
      destruct (vec_get heightA (at2 L1 c)) as [h|] eqn:Hget; simpl.
      * specialize (HH _ _ Hget). specialize (HA c). lia.
      * specialize (HA c). lia.
    + rewrite HkT, Hneg by lia. specialize (HA c). lia.
Qed.

End Bounds.
Section AlterDem.

Lemma iter_raise_once_at ty c n (elevations : Array2D spec_float) c' :
  at2 (Z.iter n (raise_once ty c) elevations) c' =
  if decide (c' = c)
  then Z.iter n (λ e, of_float ty (nextafterf_up (to_float ty e))) (at2 elevations c)
  else at2 elevations c'.
Proof.
  destruct n as [|p|p]; cbn [Z.iter]; [by case_decide; subst| |by case_decide; subst].
  rewrite !Pos2Nat.inj_iter. induction (Pos.to_nat p) as [|k IH].
  - cbn. by case_decide; subst.
  - cbn [nat_rect]. unfold raise_once at 1. rewrite at2_set2.
    destruct (decide (c' = c)) as [->|Hc]; [|done]. by rewrite IH.
Qed.

Lemma alter_cell_at ty (flat_mask labels : Array2D Z) st c c' :
  at2 (fst (alter_cell ty flat_mask labels st c)) c' =
  if decide (c' = c)
  then (if decide (at2 labels c = 0) then at2 (fst st) c
        else Z.iter (at2 flat_mask c)
                    (λ e, of_float ty (nextafterf_up (to_float ty e))) (at2 (fst st) c))
  else at2 (fst st) c'.
Proof.
  unfold alter_cell. destruct st as [elevations reported]. cbn [fst].
  destruct (Z.eqb_spec (at2 labels c) 0) as [Hl|Hl]; cbn [fst].
  - destruct (decide (c' = c)) as [->|Hc]; [|done]. by rewrite decide_True.
  - rewrite iter_raise_once_at.
    destruct (decide (c' = c)) as [->|Hc]; [|done]. by rewrite decide_False.
Qed.

(** [d8_flats_alter_dem] rewrites the interior cells with a label, each
    once, and leaves the others. *)
Lemma d8_flats_alter_dem_at ty (flat_mask labels : Array2D Z)
    (elevations : Array2D spec_float) c :
  at2 (fst (d8_flats_alter_dem ty flat_mask labels elevations)) c =
  if decide (c ∈ interior_cells flat_mask ∧ at2 labels c ≠ 0)
  then Z.iter (at2 flat_mask c)
              (λ e, of_float ty (nextafterf_up (to_float ty e))) (at2 elevations c)
  else at2 elevations c.
Proof.
  unfold d8_flats_alter_dem.
  rewrite (sweep_at (λ st c, at2 (fst st) c) _
    (λ c e, if decide (at2 labels c = 0) then e
            else Z.iter (at2 flat_mask c)
                        (λ e, of_float ty (nextafterf_up (to_float ty e))) e)).
  - cbn [fst]. repeat case_decide; try done; tauto.
  - intros st c0 c'. apply alter_cell_at.
  - apply NoDup_cell_range.
Qed.

(** On [Array2D<float>] every labelled interior cell is raised by
    [flat_mask] steps to the next [float]. *)
Lemma d8_flats_alter_dem_float (flat_mask labels : Array2D Z)
    (elevations : Array2D spec_float) c :
  c ∈ interior_cells flat_mask → at2 labels c ≠ 0 →
  at2 (fst (d8_flats_alter_dem Float flat_mask labels elevations)) c =
  Z.iter (at2 flat_mask c) (next_up Float) (at2 elevations c).
Proof. intros Hc Hl. rewrite d8_flats_alter_dem_at. by rewrite decide_True. Qed.

(** C5 (the code misses it for [double]): on [Array2D<double>] the step is
    taken by [nextafterf], in [float]: the centre of a flat at 1.0 with mask 1
    ends at 1 + 2^-23, the next [float], and not at 1 + 2^-52, the next
    [double]. *)
Theorem d8_flats_alter_dem_double_steps_in_float :
  at2 (fst (d8_flats_alter_dem Double one_mask one_labels one_elevations)) (1, 1)
  = S754_finite false 4503600164241408 (-52)
  ∧ Z.iter (at2 one_mask (1, 1)) (next_up Double) (at2 one_elevations (1, 1))
    = S754_finite false 4503599627370497 (-52)
  ∧ at2 (fst (d8_flats_alter_dem Double one_mask one_labels one_elevations)) (1, 1)
    ≠ Z.iter (at2 one_mask (1, 1)) (next_up Double) (at2 one_elevations (1, 1)).
Proof.
  assert (at2 (fst (d8_flats_alter_dem Double one_mask one_labels one_elevations)) (1, 1)
          = S754_finite false 4503600164241408 (-52)) as -> by (vm_compute; reflexivity).
  assert (Z.iter (at2 one_mask (1, 1)) (next_up Double) (at2 one_elevations (1, 1))
          = S754_finite false 4503599627370497 (-52)) as -> by (vm_compute; reflexivity).
  split_and!; [done|done|]. intros [=].
Qed.

End AlterDem.
(** * Further properties of the code *)

Section MaskedFlowDir.
Context `{FlowDirParams}.
Variables (flat_mask labels : Array2D Z) (c : grid_cell).

Lemma masked_inv_step seen st n :
  NO_FLOW ≤ 0 → Forall (λ n, 1 ≤ n ≤ 8) (seen ++ [n]) →
  masked_inv flat_mask labels c seen st → masked_inv flat_mask labels c (seen ++ [n]) (masked_step flat_mask labels c st n).
Proof.
  intros Hnf Hrange Hinv. destruct st as [m d].
  assert (∀ x, x ∈ seen → 1 ≤ x ≤ 8) as Hseen.
  { intros x Hx. rewrite Forall_forall in Hrange. apply Hrange, elem_of_app. by left. }
  assert (1 ≤ n ≤ 8) as Hn.
  { rewrite Forall_forall in Hrange. apply Hrange, elem_of_app. right. by apply list_elem_of_singleton. }
  rewrite masked_step_spec. cbn [fst snd] in *.
  destruct (decide _) as [[Hlab Hupd]|Hno].
  - right. cbn [fst snd]. destruct Hinv as [(Hd & Hm & Hmin)|(Hd & Hdl & Hdm & Hlt & Hmin & Hcard)].
    + cbn [fst snd] in *. subst d m.
      destruct Hupd as [Hupd|(_ & Hpos & _)]; [|lia].
      split_and!; [apply elem_of_app; right; by apply list_elem_of_singleton|done|done|done| |].
      * intros x [Hx| ->%list_elem_of_singleton]%elem_of_app Hxl; [|lia].
        specialize (Hmin x Hx Hxl). lia.
      * intros Hev x [Hx| ->%list_elem_of_singleton]%elem_of_app Hodd Hxl.
        -- specialize (Hmin x Hx Hxl). lia.
        -- rewrite <- Z.negb_odd in Hev. by rewrite Hodd in Hev.
    + cbn [fst snd] in *.
      split_and!; [apply elem_of_app; right; by apply list_elem_of_singleton|done|done| | |].
      * destruct Hupd as [?|(? & _)]; lia.
      * intros x [Hx| ->%list_elem_of_singleton]%elem_of_app Hxl; [|lia].
        specialize (Hmin x Hx Hxl). destruct Hupd as [?|(? & _)]; lia.
      * intros Hev x [Hx| ->%list_elem_of_singleton]%elem_of_app Hodd Hxl.
        -- destruct Hupd as [Hupd|(_ & _ & _ & Hrem)].
           ++ specialize (Hmin x Hx Hxl). lia.
           ++ apply rem2_odd in Hrem; [|lia]. rewrite <- Z.negb_odd in Hev.
              by rewrite Hrem in Hev.
        -- rewrite <- Z.negb_odd in Hev. by rewrite Hodd in Hev.
  - destruct Hinv as [(Hd & Hm & Hmin)|(Hd & Hdl & Hdm & Hlt & Hmin & Hcard)];
      cbn [fst snd] in *.
    + left. cbn [fst snd]. split_and!; [done|done|]. subst m.
      intros x [Hx| ->%list_elem_of_singleton]%elem_of_app Hxl; [by apply Hmin|].
      destruct (decide (at2 flat_mask c ≤ at2 flat_mask (neighbour c n))); [done|].
      exfalso. apply Hno. split; [done|]. left. lia.
    + right. cbn [fst snd].
      assert (at2 labels (neighbour c n) = at2 labels c → m ≤ at2 flat_mask (neighbour c n))
        as Hnm.
      { intros Hl. destruct (decide (m ≤ at2 flat_mask (neighbour c n))); [done|].
        exfalso. apply Hno. split; [done|]. left. lia. }
      split_and!; [apply elem_of_app; by left|done|done|done| |].
      * intros x [Hx| ->%list_elem_of_singleton]%elem_of_app Hxl; [by apply Hmin|by apply Hnm].
      * intros Hev x [Hx| ->%list_elem_of_singleton]%elem_of_app Hodd Hxl; [by apply Hcard|].
        specialize (Hnm Hxl).
        destruct (decide (at2 flat_mask (neighbour c n) = m)) as [Heq|]; [|lia].
        exfalso. apply Hno. split; [done|]. right.
        specialize (Hseen d Hd).
        split_and!; [done|lia|apply rem2_even; [lia|done]|apply rem2_odd; [lia|done]].
Qed.

Lemma masked_inv_fold ns :
  NO_FLOW ≤ 0 →
  ∀ seen st, Forall (λ n, 1 ≤ n ≤ 8) (seen ++ ns) →
  masked_inv flat_mask labels c seen st →
  masked_inv flat_mask labels c (seen ++ ns) (fold_left (masked_step flat_mask labels c) ns st).
Proof.
  intros Hnf. induction ns as [|n ns IH]; intros seen st Hrange Hinv.
  - by rewrite app_nil_r.
  - cbn [fold_left]. replace (seen ++ n :: ns) with ((seen ++ [n]) ++ ns) in *
      by by rewrite <- app_assoc.
    apply IH; [done|]. apply masked_inv_step; [done| |done].
    by apply Forall_app in Hrange as [? _].
Qed.

Lemma d8_masked_FlowDir_inv :
  NO_FLOW ≤ 0 →
  masked_inv flat_mask labels c d8_range
    (fold_left (masked_step flat_mask labels c) d8_range (at2 flat_mask c, NO_FLOW)).
Proof.
  intros Hnf. apply (masked_inv_fold d8_range Hnf []).
  - cbn [app]. unfold d8_range. repeat constructor; lia.
  - left. cbn [fst snd]. split_and!; [done|done|]. intros n Hn. by apply elem_of_nil in Hn.
Qed.

Lemma masked_first_step seen st n :
  NO_FLOW ≤ 0 → Forall (λ n, 1 ≤ n ≤ 8) (seen ++ [n]) → (∀ x, x ∈ seen → x < n) →
  masked_inv flat_mask labels c seen st → masked_first flat_mask labels c seen st →
  masked_first flat_mask labels c (seen ++ [n]) (masked_step flat_mask labels c st n).
Proof.
  intros Hnf Hrange Hlt Hinv Hfirst. destruct st as [m d].
  rewrite Forall_forall in Hrange.
  rewrite masked_step_spec. unfold masked_first in *. cbn [fst snd] in *.
  destruct (decide _) as [[Hlab Hupd]|Hno]; cbn [fst snd].
  - intros _ x [Hx| ->%list_elem_of_singleton]%elem_of_app Hxl Hxm Hxo; [|lia].
    exfalso.
    destruct Hinv as [(Hd & Hm & Hmin)|(Hd & Hdl & Hdm & Hdlt & Hmin & Hcard)];
      cbn [fst snd] in *.
    + specialize (Hmin x Hx Hxl). destruct Hupd as [?|(_ & ? & _)]; lia.
    + specialize (Hmin x Hx Hxl). destruct Hupd as [?|(Heq & Hpos & Hev & Hod)]; [lia|].
      assert (1 ≤ n ≤ 8) as Hn.
      { apply Hrange, elem_of_app. right. by apply list_elem_of_singleton. }
      apply rem2_even in Hev; [|done]. apply rem2_odd in Hod; [|lia].
      rewrite Hod in Hxo. specialize (Hcard Hev x Hx Hxo Hxl). lia.
  - intros Hd x Hx Hxl Hxm Hxo.
    assert (d ∈ seen) as Hds.
    { apply elem_of_app in Hd as [?| ->%list_elem_of_singleton]; [done|].
      destruct Hinv as [(Hd & _)|(Hd & _)]; cbn [fst snd] in *; [|done].
      assert (1 ≤ n ≤ 8) as Hn.
      { apply Hrange, elem_of_app. right. by apply list_elem_of_singleton. }
      lia. }
    apply elem_of_app in Hx as [Hx| ->%list_elem_of_singleton]; [by apply Hfirst|].
    specialize (Hlt d Hds). lia.
Qed.

Lemma masked_first_fold ns :
  NO_FLOW ≤ 0 →
  ∀ seen st, Forall (λ n, 1 ≤ n ≤ 8) (seen ++ ns) →
  (∀ x y, x ∈ seen → y ∈ ns → x < y) → ForallOrdPairs Z.lt ns →
  masked_inv flat_mask labels c seen st → masked_first flat_mask labels c seen st →
  masked_first flat_mask labels c (seen ++ ns)
               (fold_left (masked_step flat_mask labels c) ns st).
Proof.
  intros Hnf. induction ns as [|n ns IH]; intros seen st Hrange Hcross Hsorted Hinv Hfirst.
  - by rewrite app_nil_r.
  - cbn [fold_left]. inversion Hsorted as [|? ? Hn Hns]; subst.
    rewrite Forall_forall in Hn.
    replace (seen ++ n :: ns) with ((seen ++ [n]) ++ ns) in *
      by by rewrite <- app_assoc.
    assert (Forall (λ n, 1 ≤ n ≤ 8) (seen ++ [n])) as Hr by by apply Forall_app in Hrange as [? _].
    apply IH; [done| |done| |].
    + intros x y [Hx| ->%list_elem_of_singleton]%elem_of_app Hy.
      * apply Hcross; [done|by right].
      * by apply Hn.
    + by apply masked_inv_step.
    + apply masked_first_step; [done|done| |done|done].
      intros x Hx. apply Hcross; [done|by left].
Qed.

(** X1: when [NO_FLOW] is not positive, [d8_masked_FlowDir] returns either
    [NO_FLOW], and then no neighbour of the cell's label holds a smaller
    mask than the cell, or the index of a neighbour of the cell's label
    whose mask is below the cell's and the least among those neighbours. *)
Theorem d8_masked_FlowDir_lowest :
  NO_FLOW ≤ 0 →
  (d8_masked_FlowDir flat_mask labels c = NO_FLOW
   ∧ ∀ n, n ∈ d8_range → at2 labels (neighbour c n) = at2 labels c →
          at2 flat_mask c ≤ at2 flat_mask (neighbour c n))
  ∨ (d8_masked_FlowDir flat_mask labels c ∈ d8_range
     ∧ at2 labels (neighbour c (d8_masked_FlowDir flat_mask labels c)) = at2 labels c
     ∧ at2 flat_mask (neighbour c (d8_masked_FlowDir flat_mask labels c)) < at2 flat_mask c
     ∧ ∀ n, n ∈ d8_range → at2 labels (neighbour c n) = at2 labels c →
            at2 flat_mask (neighbour c (d8_masked_FlowDir flat_mask labels c))
            ≤ at2 flat_mask (neighbour c n)).
Proof.
  intros Hnf. unfold d8_masked_FlowDir.
  destruct (d8_masked_FlowDir_inv Hnf) as [(Hd & Hm & Hmin)|(Hd & Hl & Hm & Hlt & Hmin & _)].
  - left. by split.
  - right. rewrite Hm. by split_and!.
Qed.

(** X2: when [NO_FLOW] is not positive and [d8_masked_FlowDir] returns a
    diagonal direction (an even index), every cardinal neighbour (odd index)
    of the cell's label holds a mask above the one of the neighbour chosen:
    among neighbours that hold the least mask a cardinal one wins. *)
Theorem d8_masked_FlowDir_cardinal_first :
  NO_FLOW ≤ 0 →
  d8_masked_FlowDir flat_mask labels c ∈ d8_range →
  Z.even (d8_masked_FlowDir flat_mask labels c) = true →
  ∀ n, n ∈ d8_range → Z.odd n = true →
       at2 labels (neighbour c n) = at2 labels c →
       at2 flat_mask (neighbour c (d8_masked_FlowDir flat_mask labels c))
       < at2 flat_mask (neighbour c n).
Proof.
  intros Hnf. unfold d8_masked_FlowDir.
  destruct (d8_masked_FlowDir_inv Hnf) as [(Hd & _)|(Hd & Hl & Hm & Hlt & Hmin & Hcard)].
  - rewrite Hd. intros Hin. exfalso.
    assert (Forall (λ n, 1 ≤ n ≤ 8) d8_range) as Hr
      by (unfold d8_range; repeat constructor; lia).
    rewrite Forall_forall in Hr. specialize (Hr _ Hin). lia.
  - intros _ Hev n Hn Hodd Hnl. rewrite Hm. by apply Hcard.
Qed.

(** X22: when [NO_FLOW] is not positive, the direction [d8_masked_FlowDir]
    returns has the least index among the neighbours of the cell's label
    that hold the same mask and are of the same kind (cardinal or diagonal):
    with X1 and X2 the result is the first cardinal neighbour that holds the
    least mask, and the first diagonal one if no cardinal neighbour does. *)
Theorem d8_masked_FlowDir_first_index :
  NO_FLOW ≤ 0 →
  d8_masked_FlowDir flat_mask labels c ∈ d8_range →
  ∀ n, n ∈ d8_range → at2 labels (neighbour c n) = at2 labels c →
       at2 flat_mask (neighbour c n)
       = at2 flat_mask (neighbour c (d8_masked_FlowDir flat_mask labels c)) →
       Z.odd n = Z.odd (d8_masked_FlowDir flat_mask labels c) →
       d8_masked_FlowDir flat_mask labels c ≤ n.
Proof.
  intros Hnf Hd n Hn Hl Hm Ho. unfold d8_masked_FlowDir in *.
  assert (Forall (λ n, 1 ≤ n ≤ 8) d8_range) as Hr
    by (unfold d8_range; repeat constructor; lia).
  pose proof (masked_first_fold d8_range Hnf [] (at2 flat_mask c, NO_FLOW)) as Hfirst.
  cbn [app] in Hfirst. apply Hfirst; try done.
  - intros x y Hx. by apply elem_of_nil in Hx.
  - unfold d8_range. repeat (constructor; [repeat constructor; lia|]). constructor.
  - left. cbn [fst snd]. split_and!; [done|done|]. intros x Hx. by apply elem_of_nil in Hx.
  - intros Hx. by apply elem_of_nil in Hx.
  - rewrite Hm.
    destruct (d8_masked_FlowDir_inv Hnf) as [(Hd' & _)|(_ & _ & Hdm & _)]; [|done].
    rewrite Hd' in Hd. rewrite Forall_forall in Hr. specialize (Hr _ Hd). lia.
Qed.

(** A cell with a neighbour of its label that holds a smaller mask gets a
    direction. *)
Lemma d8_masked_FlowDir_found n :
  NO_FLOW ≤ 0 → n ∈ d8_range →
  at2 labels (neighbour c n) = at2 labels c →
  at2 flat_mask (neighbour c n) < at2 flat_mask c →
  d8_masked_FlowDir flat_mask labels c ∈ d8_range
  ∧ at2 labels (neighbour c (d8_masked_FlowDir flat_mask labels c)) = at2 labels c
  ∧ at2 flat_mask (neighbour c (d8_masked_FlowDir flat_mask labels c)) < at2 flat_mask c.
Proof.
  intros Hnf Hn Hl Hlt. unfold d8_masked_FlowDir.
  destruct (d8_masked_FlowDir_inv Hnf) as [(Hd & Hm & Hmin)|(Hd & Hdl & Hm & Hdlt & _)].
  - specialize (Hmin n Hn Hl). lia.
  - rewrite Hm. by split_and!.
Qed.

(** A cell none of whose neighbours of its label holds a smaller mask keeps
    [NO_FLOW]. *)
Lemma d8_masked_FlowDir_none :
  NO_FLOW ≤ 0 →
  (∀ n, n ∈ d8_range → at2 labels (neighbour c n) = at2 labels c →
        at2 flat_mask c ≤ at2 flat_mask (neighbour c n)) →
  d8_masked_FlowDir flat_mask labels c = NO_FLOW.
Proof.
  intros Hnf Hall. unfold d8_masked_FlowDir.
  destruct (d8_masked_FlowDir_inv Hnf) as [(Hd & _)|(Hd & Hdl & Hm & Hdlt & _)]; [done|].
  specialize (Hall _ Hd Hdl). lia.
Qed.

End MaskedFlowDir.

Section FlowFlats.
Context `{FlowDirParams}.
Variables (flat_mask labels : Array2D Z).

Lemma flow_flats_sweep_at (cs : list grid_cell) (flowdirs : Array2D Z) c :
  NoDup cs →
  at2 (fold_left (flow_flats_cell flat_mask labels) cs flowdirs) c =
  if decide (c ∈ cs ∧ at2 flat_mask c ≠ noData flat_mask ∧ at2 flowdirs c = NO_FLOW)
  then d8_masked_FlowDir flat_mask labels c else at2 flowdirs c.
Proof.
  intros Hnd.
  rewrite (sweep_at at2 _
    (λ c v, if decide (at2 flat_mask c ≠ noData flat_mask ∧ v = NO_FLOW)
            then d8_masked_FlowDir flat_mask labels c else v)).
  - repeat case_decide; try done; tauto.
  - intros s c0 c'. rewrite flow_flats_cell_at. done.
  - done.
Qed.

Lemma flow_flats_sweep_dims (cs : list grid_cell) :
  ∀ flowdirs : Array2D Z,
  viewWidth (fold_left (flow_flats_cell flat_mask labels) cs flowdirs) = viewWidth flowdirs
  ∧ viewHeight (fold_left (flow_flats_cell flat_mask labels) cs flowdirs)
    = viewHeight flowdirs
  ∧ noData (fold_left (flow_flats_cell flat_mask labels) cs flowdirs) = noData flowdirs.
Proof.
  induction cs as [|c cs IH]; intros flowdirs; [done|].
  cbn [fold_left]. destruct (IH (flow_flats_cell flat_mask labels flowdirs c)) as (-> & -> & ->).
  unfold flow_flats_cell. by repeat case_match.
Qed.

(** X3: the cells of [d8_flow_flats] may be visited in any order (the loop
    over [x] is an OpenMP parallel loop): every order of the interior cells
    gives the same raster as the order of the source. *)
Theorem d8_flow_flats_any_order (flowdirs : Array2D Z) (cs : list grid_cell) :
  cs ≡ₚ interior_cells flat_mask →
  (∀ c, at2 (fold_left (flow_flats_cell flat_mask labels) cs flowdirs) c
        = at2 (d8_flow_flats flat_mask labels flowdirs) c)
  ∧ viewWidth (fold_left (flow_flats_cell flat_mask labels) cs flowdirs)
    = viewWidth (d8_flow_flats flat_mask labels flowdirs)
  ∧ viewHeight (fold_left (flow_flats_cell flat_mask labels) cs flowdirs)
    = viewHeight (d8_flow_flats flat_mask labels flowdirs)
  ∧ noData (fold_left (flow_flats_cell flat_mask labels) cs flowdirs)
    = noData (d8_flow_flats flat_mask labels flowdirs).
Proof.
  intros Hperm. split.
  - intros c. unfold d8_flow_flats. rewrite !flow_flats_sweep_at.
    + repeat case_decide; try done; exfalso; rewrite Hperm in *; tauto.
    + apply NoDup_cell_range.
    + rewrite Hperm. apply NoDup_cell_range.
  - unfold d8_flow_flats.
    destruct (flow_flats_sweep_dims cs flowdirs) as (-> & -> & ->).
    by destruct (flow_flats_sweep_dims (interior_cells flat_mask) flowdirs) as (-> & -> & ->).
Qed.

(** X4: [d8_flow_flats] is idempotent and keeps what is there: a second run
    changes no cell, and a cell that holds a direction other than [NO_FLOW],
    that lies on the border or outside the raster, or whose mask is NoData
    is never written; the dimensions and the NoData value stay. *)
Theorem d8_flow_flats_idempotent (flowdirs : Array2D Z) :
  (∀ c, at2 (d8_flow_flats flat_mask labels (d8_flow_flats flat_mask labels flowdirs)) c
        = at2 (d8_flow_flats flat_mask labels flowdirs) c)
  ∧ (∀ c, at2 flowdirs c ≠ NO_FLOW ∨ at2 flat_mask c = noData flat_mask
          ∨ ¬ (1 ≤ fst c < viewWidth flat_mask - 1 ∧ 1 ≤ snd c < viewHeight flat_mask - 1) →
          at2 (d8_flow_flats flat_mask labels flowdirs) c = at2 flowdirs c)
  ∧ viewWidth (d8_flow_flats flat_mask labels flowdirs) = viewWidth flowdirs
  ∧ viewHeight (d8_flow_flats flat_mask labels flowdirs) = viewHeight flowdirs
  ∧ noData (d8_flow_flats flat_mask labels flowdirs) = noData flowdirs.
Proof.
  split_and!.
  - intros c. rewrite (d8_flow_flats_at _ _ (d8_flow_flats flat_mask labels flowdirs)).
    destruct (decide _) as [(Hc & Hm & Hd)|]; [|done].
    rewrite d8_flow_flats_at in Hd |- *.
    destruct (decide _) as [|Hno]; [done|]. exfalso. apply Hno. by split_and!.
  - intros c Hc. rewrite d8_flow_flats_at.
    destruct (decide _) as [(Hin & Hm & Hd)|]; [|done].
    exfalso. apply elem_of_cell_range in Hin. tauto.
  - apply flow_flats_sweep_dims.
  - apply flow_flats_sweep_dims.
  - apply flow_flats_sweep_dims.
Qed.

End FlowFlats.

Section FlatEdges.
Context `{FlowDirParams} {T : Type} `{ElevOps T}.
Variables (flowdirs : Array2D Z) (elevations : Array2D T).

Lemma scan_edges_low_iff c ns :
  scan_edges flowdirs elevations c ns = LowEdge ↔
  at2 flowdirs c ≠ NO_FLOW
  ∧ ∃ n, n ∈ ns
         ∧ in_grid flowdirs (fst (neighbour c n)) (snd (neighbour c n)) = true
         ∧ at2 flowdirs (neighbour c n) ≠ noData flowdirs
         ∧ at2 flowdirs (neighbour c n) = NO_FLOW
         ∧ elev_eqb (at2 elevations (neighbour c n)) (at2 elevations c) = true.
Proof.
  split.
  - intros Hscan. split; [by eapply scan_edges_low|].
    induction ns as [|n ns IH]; [done|]. cbn [scan_edges] in Hscan.
    destruct (in_grid flowdirs _ _) eqn:Hg; cbn [negb] in Hscan;
      [|destruct (IH Hscan) as (m & Hm & ?); exists m; split; [by right|done]].
    destruct (Z.eqb_spec (at2 flowdirs (neighbour c n)) (noData flowdirs)) as [Hnd|Hnd];
      [destruct (IH Hscan) as (m & Hm & ?); exists m; split; [by right|done]|].
    destruct (Z.eqb_spec (at2 flowdirs c) NO_FLOW) as [Hc|Hc]; cbn [negb andb] in Hscan.
    + destruct (elev_ltb _ _); [done|].
      destruct (IH Hscan) as (m & Hm & ?); exists m; split; [by right|done].
    + destruct (Z.eqb_spec (at2 flowdirs (neighbour c n)) NO_FLOW) as [Hn|Hn];
        cbn [andb] in Hscan.
      * destruct (elev_eqb _ _) eqn:He.
        -- exists n. split; [by left|done].
        -- destruct (IH Hscan) as (m & Hm & ?); exists m; split; [by right|done].
      * destruct (IH Hscan) as (m & Hm & ?); exists m; split; [by right|done].
  - intros (Hc & n & Hn & Hg & Hnd & Hnf & He). by eapply scan_edges_complete.
Qed.

Lemma scan_edges_high_iff c ns :
  scan_edges flowdirs elevations c ns = HighEdge ↔
  at2 flowdirs c = NO_FLOW
  ∧ ∃ n, n ∈ ns
         ∧ in_grid flowdirs (fst (neighbour c n)) (snd (neighbour c n)) = true
         ∧ at2 flowdirs (neighbour c n) ≠ noData flowdirs
         ∧ elev_ltb (at2 elevations c) (at2 elevations (neighbour c n)) = true.
Proof.
  split.
  - intros Hscan. split; [by eapply scan_edges_high|].
    induction ns as [|n ns IH]; [done|]. cbn [scan_edges] in Hscan.
    destruct (in_grid flowdirs _ _) eqn:Hg; cbn [negb] in Hscan;
      [|destruct (IH Hscan) as (m & Hm & ?); exists m; split; [by right|done]].
    destruct (Z.eqb_spec (at2 flowdirs (neighbour c n)) (noData flowdirs)) as [Hnd|Hnd];
      [destruct (IH Hscan) as (m & Hm & ?); exists m; split; [by right|done]|].
    destruct (Z.eqb_spec (at2 flowdirs c) NO_FLOW) as [Hc|Hc]; cbn [negb andb] in Hscan.
    + destruct (elev_ltb _ _) eqn:Hlt.
      * exists n. split; [by left|done].
      * destruct (IH Hscan) as (m & Hm & ?); exists m; split; [by right|done].
    + destruct (Z.eqb_spec (at2 flowdirs (neighbour c n)) NO_FLOW) as [Hn|Hn];
        cbn [andb] in Hscan.
      * destruct (elev_eqb _ _); [done|].
        destruct (IH Hscan) as (m & Hm & ?); exists m; split; [by right|done].
      * destruct (IH Hscan) as (m & Hm & ?); exists m; split; [by right|done].
  - intros (Hc & n & Hn & Hg & Hnd & Hlt).
    induction ns as [|m ns IH]; [by apply elem_of_nil in Hn|].
    cbn [scan_edges].
    destruct (decide (n = m)) as [<-|Hne].
    + rewrite Hg. cbn [negb].
      destruct (Z.eqb_spec (at2 flowdirs (neighbour c n)) (noData flowdirs)); [done|].
      destruct (Z.eqb_spec (at2 flowdirs c) NO_FLOW); [|done]. cbn [negb andb].
      by rewrite Hlt.
    + apply elem_of_cons in Hn as [?|Hn]; [done|]. specialize (IH Hn).
      destruct (in_grid flowdirs (fst (neighbour c m)) (snd (neighbour c m)));
        cbn [negb]; [|done].
      destruct (Z.eqb_spec (at2 flowdirs (neighbour c m)) (noData flowdirs)); [done|].
      destruct (Z.eqb_spec (at2 flowdirs c) NO_FLOW); [|done]. cbn [negb andb].
      by destruct (elev_ltb (at2 elevations c) (at2 elevations (neighbour c m))).
Qed.

Lemma find_flat_edges_app low high :
  find_flat_edges low high flowdirs elevations =
  (low ++ (find_flat_edges [] [] flowdirs elevations).1,
   high ++ (find_flat_edges [] [] flowdirs elevations).2).
Proof.
  rewrite find_flat_edges_spec. unfold find_flat_edges.
  by rewrite find_flat_edges_filter.
Qed.

(** X5: [find_flat_edges] keeps what [low_edges] holds and appends exactly
    the cells of the raster that hold data and a flow direction and have a
    neighbour in the raster, with data, that holds [NO_FLOW] and lies at the
    cell's elevation. *)
Theorem find_flat_edges_low (low high : list grid_cell) (c : grid_cell) :
  c ∈ (find_flat_edges low high flowdirs elevations).1 ↔
  c ∈ low
  ∨ (in_grid flowdirs (fst c) (snd c) = true
     ∧ at2 flowdirs c ≠ noData flowdirs
     ∧ at2 flowdirs c ≠ NO_FLOW
     ∧ ∃ n, n ∈ d8_range
            ∧ in_grid flowdirs (fst (neighbour c n)) (snd (neighbour c n)) = true
            ∧ at2 flowdirs (neighbour c n) ≠ noData flowdirs
            ∧ at2 flowdirs (neighbour c n) = NO_FLOW
            ∧ elev_eqb (at2 elevations (neighbour c n)) (at2 elevations c) = true).
Proof.
  rewrite find_flat_edges_app. cbn [fst]. rewrite elem_of_app, elem_of_low_edges.
  unfold edge_class.
  destruct (Z.eqb_spec (at2 flowdirs c) (noData flowdirs)) as [Hnd|Hnd].
  - split; (intros [?|Hx]; [by left|]); [by destruct Hx as [_ ?]|by destruct Hx as (_ & ? & _)].
  - rewrite scan_edges_low_iff. tauto.
Qed.

(** X6: [find_flat_edges] keeps what [high_edges] holds and appends exactly
    the cells of the raster that hold [NO_FLOW] (and data) and have a
    neighbour in the raster, with data, at a strictly higher elevation. *)
Theorem find_flat_edges_high (low high : list grid_cell) (c : grid_cell) :
  c ∈ (find_flat_edges low high flowdirs elevations).2 ↔
  c ∈ high
  ∨ (in_grid flowdirs (fst c) (snd c) = true
     ∧ at2 flowdirs c ≠ noData flowdirs
     ∧ at2 flowdirs c = NO_FLOW
     ∧ ∃ n, n ∈ d8_range
            ∧ in_grid flowdirs (fst (neighbour c n)) (snd (neighbour c n)) = true
            ∧ at2 flowdirs (neighbour c n) ≠ noData flowdirs
            ∧ elev_ltb (at2 elevations c) (at2 elevations (neighbour c n)) = true).
Proof.
  rewrite find_flat_edges_app. cbn [snd]. rewrite elem_of_app, elem_of_high_edges.
  unfold edge_class.
  destruct (Z.eqb_spec (at2 flowdirs c) (noData flowdirs)) as [Hnd|Hnd].
  - split; (intros [?|Hx]; [by left|]); [by destruct Hx as [_ ?]|by destruct Hx as (_ & ? & _)].
  - rewrite scan_edges_high_iff. tauto.
Qed.

(** X7: the cells [find_flat_edges] appends to the two queues come in the
    order of the scan (column by column), each at most once, and no cell is
    appended to both queues. *)
Theorem find_flat_edges_queues (low high : list grid_cell) :
  ∃ l h,
    find_flat_edges low high flowdirs elevations = (low ++ l, high ++ h)
    ∧ l `sublist_of` all_cells flowdirs ∧ h `sublist_of` all_cells flowdirs
    ∧ NoDup l ∧ NoDup h ∧ (∀ c, c ∈ l → c ∉ h).
Proof.
  exists (find_flat_edges [] [] flowdirs elevations).1,
         (find_flat_edges [] [] flowdirs elevations).2.
  split; [apply find_flat_edges_app|].
  rewrite find_flat_edges_spec. cbn [fst snd].
  split_and!.
  - apply sublist_filter.
  - apply sublist_filter.
  - apply NoDup_filter, NoDup_cell_range.
  - apply NoDup_filter, NoDup_cell_range.
  - intros c [Hl _]%list_elem_of_filter [Hh _]%list_elem_of_filter. congruence.
Qed.

End FlatEdges.

Section FloodFill.
Context {T : Type} `{ElevOps T}.
Variables (elevations : Array2D T) (labels0 : Array2D Z) (c0 : grid_cell) (label : Z).

Lemma fill_closed_skip c rest labels :
  fill_closed elevations labels0 c0 label (c :: rest) labels →
  elev_eqb (at2 elevations c) (at2 elevations c0) = false ∨ 0 < at2 labels c →
  fill_closed elevations labels0 c0 label rest labels.
Proof.
  intros Hcl Hc p n Hp Hn Hg.
  destruct (Hcl p n Hp Hn Hg) as [[->|Hin]%elem_of_cons|Hrest]; [|by left|by right].
  right. destruct Hc; [by right|by left].
Qed.

Lemma fill_closed_fill c rest labels :
  0 < label →
  viewWidth labels = viewWidth labels0 → viewHeight labels = viewHeight labels0 →
  fill_closed elevations labels0 c0 label (c :: rest) labels →
  fill_closed elevations labels0 c0 label (rest ++ fill_pushes labels c)
              (set2 labels c label).
Proof.
  intros Hpos Hw Hh Hcl p n Hp Hn Hg. rewrite at2_set2 in Hp.
  destruct (decide (p = c)) as [->|Hpc].
  - left. apply elem_of_app. right. apply elem_of_fill_pushes.
    split; [by rewrite (in_grid_dims labels labels0)|]. by exists n.
  - rewrite at2_set2.
    destruct (decide (neighbour p n = c)) as [Heq|Hne]; [right; left; lia|].
    destruct (Hcl p n Hp Hn Hg) as [[?|Hin]%elem_of_cons|Hrest]; [done| |by right].
    left. apply elem_of_app. by left.
Qed.

Lemma same_flat_inv c :
  same_flat elevations labels0 c0 c →
  in_grid labels0 (fst c) (snd c) = true ∧ at2 labels0 c ≤ 0
  ∧ elev_eqb (at2 elevations c) (at2 elevations c0) = true.
Proof. by intros []. Qed.

Lemma fill_linked_same_flat labels :
  (∀ c, at2 labels0 c < label) →
  fill_inv elevations labels0 c0 label [] labels →
  ∀ c, linked labels c0 c → at2 labels c0 = label → same_flat elevations labels0 c0 c.
Proof.
  intros Hfresh Hinv c Hl Hseed.
  assert (∀ x, at2 labels x = label →
               at2 labels0 x ≤ 0 ∧ in_grid labels0 (fst x) (snd x) = true
               ∧ elev_eqb (at2 elevations x) (at2 elevations c0) = true) as Hnew.
  { intros x Hx. destruct (fill_new _ _ _ _ _ _ Hinv x) as [Heq|(_ & ? & ? & ?)]; [|done].
    specialize (Hfresh x). lia. }
  induction Hl as [Hpos Hg|p n Hl IH Hn Hg Hlab].
  - destruct (Hnew c0 Hseed) as (? & ? & ?). by apply flat_seed.
  - assert (at2 labels (neighbour p n) = label) as Hx.
    { rewrite Hlab. rewrite (linked_label _ _ _ Hl). done. }
    destruct (Hnew _ Hx) as (? & ? & ?). by apply flat_step.
Qed.

(** What [label_this] leaves: the cells of the flat of the seed bear the
    label, the others what they bore. *)
Lemma label_this_exact fuel labels' :
  0 < label → (∀ c, at2 labels0 c < label) →
  in_grid labels0 (fst c0) (snd c0) = true →
  label_this fuel c0 label labels0 elevations = Done labels' →
  ∀ c, (same_flat elevations labels0 c0 c ↔ at2 labels' c = label)
       ∧ (at2 labels' c ≠ label → at2 labels' c = at2 labels0 c).
Proof.
  intros Hpos Hfresh Hg Hrun.
  assert (fill_inv elevations labels0 c0 label [] labels'
          ∧ fill_closed elevations labels0 c0 label [] labels') as [Hinv Hcl].
  { unfold label_this in Hrun.
    apply (fill_loop_rule
             (λ q L, fill_inv elevations labels0 c0 label q L
                     ∧ fill_closed elevations labels0 c0 label q L)
             label elevations (at2 elevations c0)) in Hrun; [done|..].
    - intros c rest L [Hi Hc] He. split.
      + eapply fill_inv_skip; [done|by left].
      + eapply fill_closed_skip; [done|by left].
    - intros c rest L [Hi Hc] He Hl. split.
      + eapply fill_inv_skip; [done|by right].
      + eapply fill_closed_skip; [done|by right].
    - intros c rest L [Hi Hc] He Hl. split.
      + by apply fill_inv_fill.
      + destruct (fill_dims _ _ _ _ _ _ Hi) as [Hw Hh]. by apply fill_closed_fill.
    - split; [by apply fill_inv_init|].
      intros p n Hp. specialize (Hfresh p). lia. }
  assert (∀ c, same_flat elevations labels0 c0 c → at2 labels' c = label) as Hall.
  { intros c Hc.
    assert (∀ x, at2 labels0 x ≤ 0 → 0 < at2 labels' x → at2 labels' x = label) as Hfill.
    { intros x Hx0 Hx. destruct (fill_new _ _ _ _ _ _ Hinv x) as [Heq|(? & _)]; [lia|done]. }
    induction Hc as [Hg0 Hl0 He0|p n Hp IH Hn Hgn Hln Hen].
    - apply Hfill; [done|].
      destruct (fill_seed _ _ _ _ _ _ Hinv) as [Hq|[?|He]];
        [by apply elem_of_nil in Hq|done|congruence].
    - apply Hfill; [done|].
      destruct (Hcl p n IH Hn Hgn) as [Hq|[?|He]];
        [by apply elem_of_nil in Hq|done|congruence]. }
  intros c. split; [split; [apply Hall|]|].
  - intros Hl. apply (fill_linked_same_flat labels'); [done|done| |].
    + by apply (fill_linked _ _ _ _ _ _ Hinv).
    + pose proof (fill_linked _ _ _ _ _ _ Hinv c Hl) as Hlk.
      rewrite <- (linked_label _ _ _ Hlk). done.
  - intros Hno. by destruct (fill_new _ _ _ _ _ _ Hinv c) as [Heq|(Hl & _)].
Qed.

(** X8: started at a seed in the raster with a label above all labels in
    use, and with fuel for nine rounds per cell, [label_this] returns; it
    writes the label to exactly the cells joined to the seed by a chain of
    neighbours in the raster that lie at the seed's elevation and bear no
    positive label (the seed is the first of the chain), and changes no
    other cell. *)
Theorem label_this_fills_flat (fuel : nat) :
  0 < label → (∀ c, at2 labels0 c < label) →
  in_grid labels0 (fst c0) (snd c0) = true →
  (9 * length (all_cells labels0) + 1 < fuel)%nat →
  ∃ labels',
    label_this fuel c0 label labels0 elevations = Done labels'
    ∧ viewWidth labels' = viewWidth labels0 ∧ viewHeight labels' = viewHeight labels0
    ∧ ∀ c, (same_flat elevations labels0 c0 c ↔ at2 labels' c = label)
           ∧ (at2 labels' c ≠ label → at2 labels' c = at2 labels0 c).
Proof.
  intros Hpos Hfresh Hg Hfuel.
  destruct (label_this_total elevations labels0 c0 label fuel Hpos Hg Hfuel)
    as [labels' Hrun].
  exists labels'. split; [done|].
  pose proof (label_this_post elevations labels0 c0 label fuel labels' Hpos Hfresh Hg Hrun)
    as Hinv.
  destruct (fill_dims _ _ _ _ _ _ Hinv) as [Hw Hh]. split_and!; [done|done|].
  by apply (label_this_exact fuel).
Qed.

End FloodFill.

Section LabelledFlats.
Context {T : Type} `{ElevOps T}.
Variables (elevations : Array2D T).

Lemma labels_closed_fill seeds g labels s fuel labels' :
  ElevLaws T → 1 ≤ g →
  labels_inv elevations seeds g labels →
  labels_closed elevations labels →
  in_grid labels (fst s) (snd s) = true → at2 labels s = 0 →
  label_this fuel s g labels elevations = Done labels' →
  labels_closed elevations labels'.
Proof.
  intros Hlaws Hg Hinv Hcl Hs Hs0 Hrun.
  assert (∀ c, at2 labels c < g) as Hfresh.
  { intros c. pose proof (lab_range _ _ _ _ Hinv c). lia. }
  pose proof (label_this_exact elevations labels s g fuel labels' ltac:(lia) Hfresh Hs Hrun)
    as Hexact.
  pose proof (label_this_post elevations labels s g fuel labels' ltac:(lia) Hfresh Hs Hrun)
    as Hfill.
  destruct (fill_dims _ _ _ _ _ _ Hfill) as [Hw Hh].
  intros c n Hpos Hn Hgn Hen. rewrite (in_grid_dims labels' labels) in Hgn by done.
  destruct (opposite_spec c n Hn) as [Hon Hback].
  destruct (decide (at2 labels' c = g)) as [Hcg|Hcg].
  - rewrite Hcg. apply Hexact. apply Hexact in Hcg.
    destruct (same_flat_inv _ _ _ _ Hcg) as (Hgc & Hc0 & Hec).
    apply flat_step; [done|done|done| |].
    + destruct (decide (at2 labels (neighbour c n) ≤ 0)) as [|Hnpos]; [done|].
      exfalso.
      pose proof (Hcl (neighbour c n) (opposite n) ltac:(lia) Hon) as Hx.
      rewrite Hback in Hx. specialize (Hx Hgc).
      rewrite <- Hx in Hnpos; [lia|]. by apply (elev_eqb_sym T Hlaws).
    + by apply (elev_eqb_trans T Hlaws _ (at2 elevations c)).
  - destruct (Hexact c) as [_ Hkeep]. specialize (Hkeep Hcg).
    rewrite Hkeep in Hpos |- *.
    specialize (Hcl c n Hpos Hn Hgn Hen).
    destruct (decide (at2 labels' (neighbour c n) = g)) as [Hng|Hng].
    + apply Hexact in Hng. destruct (same_flat_inv _ _ _ _ Hng) as (_ & Hn0 & _). lia.
    + destruct (Hexact (neighbour c n)) as [_ Hkeepn]. by rewrite Hkeepn.
Qed.

Lemma labels_seeded_fill seeds g labels s fuel labels' :
  ElevLaws T → 1 ≤ g →
  labels_inv elevations seeds g labels →
  labels_seeded seeds g labels →
  in_grid labels (fst s) (snd s) = true → at2 labels s = 0 →
  label_this fuel s g labels elevations = Done labels' →
  labels_seeded (seeds ++ [s]) (g + 1) labels'.
Proof.
  intros Hlaws Hg Hinv Hseeded Hs Hs0 Hrun.
  assert (∀ c, at2 labels c < g) as Hfresh.
  { intros c. pose proof (lab_range _ _ _ _ Hinv c). lia. }
  pose proof (label_this_exact elevations labels s g fuel labels' ltac:(lia) Hfresh Hs Hrun)
    as Hexact.
  pose proof (label_this_post elevations labels s g fuel labels' ltac:(lia) Hfresh Hs Hrun)
    as Hfill.
  destruct (fill_dims _ _ _ _ _ _ Hfill) as [Hw Hh].
  intros l Hl. destruct (decide (l = g)) as [->|Hlg].
  - exists s. split_and!.
    + apply elem_of_app. right. by apply list_elem_of_singleton.
    + apply Hexact. apply flat_seed; [done|lia|apply (elev_eqb_refl T Hlaws)].
    + intros c Hc. by apply (fill_linked _ _ _ _ _ _ Hfill).
  - destruct (Hseeded l ltac:(lia)) as (s0 & Hs0in & Hs0l & Hall).
    exists s0. split_and!.
    + apply elem_of_app. by left.
    + rewrite (fill_once _ _ _ _ _ _ Hfill); [done|lia].
    + intros c Hc. destruct (Hexact c) as [_ Hkeep].
      rewrite Hkeep in Hc by lia.
      apply (linked_mono labels); [done|done| |by apply Hall].
      intros x Hx. by apply (fill_once _ _ _ _ _ _ Hfill).
Qed.

Lemma label_flats_partition fuel low :
  ElevLaws T →
  ∀ seeds g labels g' labels',
  1 ≤ g → labels_inv elevations seeds g labels →
  labels_closed elevations labels → labels_seeded seeds g labels →
  (∀ s, s ∈ low → in_grid labels (fst s) (snd s) = true) →
  label_flats fuel low g labels elevations = Done (g', labels') →
  labels_inv elevations (seeds ++ low) g' labels'
  ∧ labels_closed elevations labels' ∧ labels_seeded (seeds ++ low) g' labels'.
Proof.
  intros Hlaws. induction low as [|i low IH]; intros seeds g labels g' labels' Hg Hinv Hcl
    Hsd Hlow Hrun.
  - cbn in Hrun. injection Hrun as <- <-. by rewrite app_nil_r.
  - cbn [label_flats] in Hrun.
    assert (in_grid labels (fst i) (snd i) = true) as Hi by (apply Hlow; by left).
    replace (seeds ++ i :: low) with ((seeds ++ [i]) ++ low) by by rewrite <- app_assoc.
    destruct (Z.eqb_spec (at2 labels i) 0) as [Hi0|Hi0].
    + destruct (label_this fuel i g labels elevations) as [labels1| | |] eqn:Hfill;
        try done.
      cbn in Hrun.
      pose proof (labels_inv_fill elevations seeds g labels i fuel labels1
                    Hlaws Hg Hinv Hi Hi0 Hfill) as Hinv1.
      assert (∀ c, at2 labels c < g) as Hfresh.
      { intros c. pose proof (lab_range _ _ _ _ Hinv c). lia. }
      pose proof (label_this_post elevations labels i g fuel labels1 ltac:(lia) Hfresh
                    Hi Hfill) as Hpost.
      destruct (fill_dims _ _ _ _ _ _ Hpost) as [Hw Hh].
      apply (IH (seeds ++ [i]) (g + 1) labels1); [lia|done| | | |done].
      * by apply (labels_closed_fill seeds g labels i fuel).
      * by apply (labels_seeded_fill seeds g labels i fuel).
      * intros s Hs. rewrite (in_grid_dims labels1 labels) by done. apply Hlow. by right.
    + apply (IH (seeds ++ [i]) g labels); [done| |done| | |done].
      * by apply labels_inv_seen.
      * intros l Hl. destruct (Hsd l Hl) as (s & Hs & ?). exists s.
        split; [apply elem_of_app; by left|done].
      * intros s Hs. apply Hlow. by right.
Qed.

End LabelledFlats.

Section ResolvedLabels.
Context `{FlowDirParams} {T : Type} `{ElevOps T}.

(** The labels of [resolve_flats_barnes]: every low edge bears a positive
    label, the labels are closed under neighbours at the same elevation, and
    every label has one low edge that all its cells are linked to. *)
Lemma resolve_flats_barnes_labels (elevations : Array2D T)
    (flowdirs flat_mask labels : Array2D Z) (fuel : nat) :
  ElevLaws T →
  viewWidth elevations = viewWidth flowdirs →
  viewHeight elevations = viewHeight flowdirs →
  (fuel_bound flowdirs ≤ fuel)%nat →
  ∃ r g,
    resolve_flats_barnes fuel elevations flowdirs flat_mask labels = Done r
    ∧ viewWidth (res_labels r) = viewWidth flowdirs
    ∧ viewHeight (res_labels r) = viewHeight flowdirs
    ∧ labels_inv elevations (find_flat_edges [] [] flowdirs elevations).1 g (res_labels r)
    ∧ labels_closed elevations (res_labels r)
    ∧ labels_seeded (find_flat_edges [] [] flowdirs elevations).1 g (res_labels r).
Proof.
  intros Hlaws Hw Hh Hfuel.
  destruct (decide ((find_flat_edges [] [] flowdirs elevations).1 = [])) as [Hlow|Hlow].
  - eexists _, 1. split; [by apply resolve_flats_barnes_no_outlet|]. cbn [res_labels].
    rewrite Hlow. split_and!; [done|done| | |].
    + by apply labels_inv_start.
    + intros c n Hc. cbn in Hc. lia.
    + intros l Hl. lia.
  - destruct (resolve_flats_barnes_run elevations flowdirs flat_mask labels fuel
                Hw Hh Hfuel Hlow)
      as (g & L1 & k & maskA & heightA & lev & k' & maskT & Hrun).
    cbn zeta in Hrun.
    destruct Hrun as (Hlab & Hg & Hrange & Hw1 & Hh1 & _ & _ & _ & _ & _ & Hres).
    eexists _, g. split; [exact Hres|]. cbn [res_labels].
    destruct (label_flats_partition elevations fuel
                (find_flat_edges [] [] flowdirs elevations).1 Hlaws [] 1
                (setup_labels labels elevations flowdirs) g L1) as (Hinv & Hcl & Hsd).
    + done.
    + by apply labels_inv_start.
    + intros c n Hc. cbn in Hc. lia.
    + intros l Hl. lia.
    + intros s Hs. by apply elem_of_low_edges in Hs as [Hs _].
    + done.
    + by split_and!.
Qed.

(** X9: with comparisons that form an equivalence and with enough fuel,
    [resolve_flats_barnes] returns labels under which every low edge bears a
    positive label and every labelled cell shares its label with each of its
    neighbours in the raster that lies at its elevation: a flat with an
    outlet is labelled as a whole. *)
Theorem labels_cover_flats (elevations : Array2D T)
    (flowdirs flat_mask labels : Array2D Z) (fuel : nat) :
  ElevLaws T →
  viewWidth elevations = viewWidth flowdirs →
  viewHeight elevations = viewHeight flowdirs →
  (fuel_bound flowdirs ≤ fuel)%nat →
  ∃ r,
    resolve_flats_barnes fuel elevations flowdirs flat_mask labels = Done r
    ∧ (∀ s, s ∈ (find_flat_edges [] [] flowdirs elevations).1 → 0 < at2 (res_labels r) s)
    ∧ (∀ c n, 0 < at2 (res_labels r) c → n ∈ d8_range →
         in_grid flowdirs (fst (neighbour c n)) (snd (neighbour c n)) = true →
         elev_eqb (at2 elevations (neighbour c n)) (at2 elevations c) = true →
         at2 (res_labels r) (neighbour c n) = at2 (res_labels r) c).
Proof.
  intros Hlaws Hw Hh Hfuel.
  destruct (resolve_flats_barnes_labels elevations flowdirs flat_mask labels fuel
              Hlaws Hw Hh Hfuel) as (r & g & Hres & Hw1 & Hh1 & Hinv & Hcl & Hsd).
  exists r. split_and!; [done| |].
  - intros s Hs. by apply (lab_seeds _ _ _ _ Hinv).
  - intros c n Hc Hn Hg He. apply Hcl; [done|done| |done].
    by rewrite (in_grid_dims (res_labels r) flowdirs).
Qed.

(** X10: under the same conditions the cells of one label form one flat:
    there is a low edge of that label that every cell of the label is linked
    to by a chain of neighbours in the raster bearing the label, and all of
    them lie at the elevation of that low edge. *)
Theorem labels_tell_flats_apart (elevations : Array2D T)
    (flowdirs flat_mask labels : Array2D Z) (fuel : nat) :
  ElevLaws T →
  viewWidth elevations = viewWidth flowdirs →
  viewHeight elevations = viewHeight flowdirs →
  (fuel_bound flowdirs ≤ fuel)%nat →
  ∃ r,
    resolve_flats_barnes fuel elevations flowdirs flat_mask labels = Done r
    ∧ ∀ c, 0 < at2 (res_labels r) c →
        ∃ s, s ∈ (find_flat_edges [] [] flowdirs elevations).1
             ∧ at2 (res_labels r) s = at2 (res_labels r) c
             ∧ ∀ c', at2 (res_labels r) c' = at2 (res_labels r) c →
                     linked (res_labels r) s c'
                     ∧ elev_eqb (at2 elevations c') (at2 elevations s) = true.
Proof.
  intros Hlaws Hw Hh Hfuel.
  destruct (resolve_flats_barnes_labels elevations flowdirs flat_mask labels fuel
              Hlaws Hw Hh Hfuel) as (r & g & Hres & Hw1 & Hh1 & Hinv & Hcl & Hsd).
  exists r. split; [done|]. intros c Hc.
  pose proof (lab_range _ _ _ _ Hinv c) as Hr.
  destruct (Hsd (at2 (res_labels r) c) ltac:(lia)) as (s & Hs & Hsl & Hall).
  exists s. split_and!; [done|done|]. intros c' Hc'. split; [by apply Hall|].
  apply (elev_eqb_sym T Hlaws). apply (lab_elev _ _ _ _ Hinv); [lia|congruence].
Qed.

End ResolvedLabels.

Section ResolvedFlow.
Context `{FlowDirParams} {T : Type} `{ElevOps T}.

(** The mask of [resolve_flats_barnes] has the dimensions of the elevations
    and the NoData value [-1]. *)
Lemma resolve_flats_barnes_mask_shape (elevations : Array2D T)
    (flowdirs flat_mask labels : Array2D Z) (fuel : nat) r :
  viewWidth elevations = viewWidth flowdirs →
  viewHeight elevations = viewHeight flowdirs →
  (fuel_bound flowdirs ≤ fuel)%nat →
  resolve_flats_barnes fuel elevations flowdirs flat_mask labels = Done r →
  viewWidth (res_flat_mask r) = viewWidth elevations
  ∧ viewHeight (res_flat_mask r) = viewHeight elevations
  ∧ noData (res_flat_mask r) = -1.
Proof.
  intros Hw Hh Hfuel Hres.
  destruct (decide ((find_flat_edges [] [] flowdirs elevations).1 = [])) as [Hlow|Hlow].
  - rewrite resolve_flats_barnes_no_outlet in Hres by done. by injection Hres as <-.
  - destruct (resolve_flats_barnes_run elevations flowdirs flat_mask labels fuel
                Hw Hh Hfuel Hlow)
      as (g & L1 & k & maskA & heightA & lev & k' & maskT & Hrun).
    cbn zeta in Hrun.
    destruct Hrun as (_ & _ & _ & _ & _ & _ & Haway & _ & _ & Htow & Hres').
    rewrite Hres' in Hres. injection Hres as <-. cbn [res_flat_mask].
    destruct (tw_dims _ _ _ _ _ _ _ _ _ _ Htow) as (-> & -> & ->).
    destruct (negate_mask_dims maskA) as (-> & -> & ->).
    by destruct (away_dims _ _ _ _ _ _ _ _ _ _ Haway) as (-> & -> & ->).
Qed.

(** What the directions [d8_flow_flats] derives from the result of
    [resolve_flats_barnes] are: a flat cell gets a direction down the mask
    inside its flat, a cell without a label keeps what it holds. *)
Lemma resolved_flow (elevations : Array2D T)
    (flowdirs flat_mask labels : Array2D Z) (fuel : nat) :
  ElevLaws T →
  viewWidth elevations = viewWidth flowdirs →
  viewHeight elevations = viewHeight flowdirs →
  NO_FLOW ≠ noData flowdirs → NO_FLOW ≤ 0 →
  nodata_apart flowdirs elevations →
  (fuel_bound flowdirs ≤ fuel)%nat →
  ∃ r, resolve_flats_barnes fuel elevations flowdirs flat_mask labels = Done r
    ∧ (∀ c, 0 ≤ at2 (res_flat_mask r) c)
    ∧ (∀ c, c ∈ interior_cells flowdirs → 0 < at2 (res_labels r) c →
         at2 flowdirs c = NO_FLOW →
         at2 (d8_flow_flats (res_flat_mask r) (res_labels r) flowdirs) c ∈ d8_range
         ∧ at2 (res_labels r)
               (neighbour c (at2 (d8_flow_flats (res_flat_mask r) (res_labels r) flowdirs) c))
           = at2 (res_labels r) c
         ∧ at2 (res_flat_mask r)
               (neighbour c (at2 (d8_flow_flats (res_flat_mask r) (res_labels r) flowdirs) c))
           < at2 (res_flat_mask r) c)
    ∧ (∀ c, at2 (res_labels r) c = 0 →
         at2 (d8_flow_flats (res_flat_mask r) (res_labels r) flowdirs) c = at2 flowdirs c).
Proof.
  intros Laws Hw Hh Hnf Hnf0 Hnd Hfuel.
  destruct (decide ((find_flat_edges [] [] flowdirs elevations).1 = [])) as [Hlow|Hlow].
  - eexists. split; [by apply resolve_flats_barnes_no_outlet|].
    cbn [res_flat_mask res_labels]. split_and!.
    + intros c. by cbn.
    + intros c _ Hl. cbn in Hl. lia.
    + intros c _. rewrite d8_flow_flats_at. destruct (decide _) as [(_ & _ & ->)|]; [|done].
      by apply d8_masked_FlowDir_none.
  - destruct (resolve_flats_barnes_facts elevations flowdirs flat_mask labels fuel
                Laws Hw Hh Hnf Hnd Hfuel Hlow)
      as (L1 & maskT & log & lev & gn & Hres & Hnn & Helev & Hdata & Hzero & Hmarked
          & Hflat & Hpred).
    destruct (resolve_flats_barnes_mask_shape elevations flowdirs flat_mask labels fuel _
                Hw Hh Hfuel Hres) as (Hmw & Hmh & Hmnd).
    eexists. split; [exact Hres|]. cbn [res_flat_mask res_labels] in *.
    assert (∀ c, 0 ≤ at2 maskT c) as Hmask.
    { intros c. destruct (decide (0 < lev c)) as [Hpos|Hnpos].
      - destruct (Hmarked c Hpos) as (-> & ? & _). lia.
      - rewrite Hzero; lia. }
    split_and!; [done| |].
    + intros c Hc Hl Hf. rewrite d8_flow_flats_at.
      specialize (Hflat c Hl Hf).
      destruct (Hpred c Hflat) as [Hin|(p & Hp & Hlev & Hpush & Hgn)].
      { apply elem_of_low_edges in Hin as [_ Hin]. by apply low_edge_has_flow in Hin. }
      apply elem_of_flat_pushes in Hpush as (_ & Hlp & _ & n & Hn & Hcn).
      destruct (opposite_spec p n Hn) as [Ho Hback]. rewrite <- Hcn in Hback.
      destruct (Hmarked p Hp) as (Hmp & _ & _ & _).
      destruct (Hmarked c Hflat) as (Hmc & ? & _ & _).
      rewrite decide_True.
      * apply (d8_masked_FlowDir_found maskT L1 c (opposite n)); [done|done| |].
        -- by rewrite Hback.
        -- rewrite Hback. lia.
      * split_and!; [|lia|done].
        unfold interior_cells in *. by rewrite Hmw, Hmh, Hw, Hh.
    + intros c Hl. rewrite d8_flow_flats_at. destruct (decide _) as [(_ & _ & ->)|]; [|done].
      assert (∀ x, at2 L1 x = 0 → at2 maskT x = 0) as Hz.
      { intros x Hx. apply Hzero. destruct (decide (0 < lev x)) as [Hpos|]; [|lia].
        destruct (Hmarked x Hpos) as (_ & _ & ? & _). lia. }
      apply d8_masked_FlowDir_none; [done|].
      intros n Hn Hln. rewrite (Hz c Hl), (Hz (neighbour c n)); [done|congruence].
Qed.

(** X11: on rasters of equal dimensions, with elevation comparisons that
    form an equivalence, [NO_FLOW] not positive and not the NoData value, and
    NoData cells apart from data cells of their elevation,
    [resolve_flats_barnes] followed by [d8_flow_flats] gives every interior
    cell of a labelled flat that held [NO_FLOW] a direction 1..8 to a
    neighbour of its flat whose mask is strictly smaller. *)
Theorem flats_get_directions (elevations : Array2D T)
    (flowdirs flat_mask labels : Array2D Z) (fuel : nat) :
  ElevLaws T →
  viewWidth elevations = viewWidth flowdirs →
  viewHeight elevations = viewHeight flowdirs →
  NO_FLOW ≠ noData flowdirs → NO_FLOW ≤ 0 →
  nodata_apart flowdirs elevations →
  (fuel_bound flowdirs ≤ fuel)%nat →
  ∃ r, resolve_flats_barnes fuel elevations flowdirs flat_mask labels = Done r
    ∧ ∀ c, c ∈ interior_cells flowdirs → 0 < at2 (res_labels r) c →
        at2 flowdirs c = NO_FLOW →
        at2 (d8_flow_flats (res_flat_mask r) (res_labels r) flowdirs) c ∈ d8_range
        ∧ at2 (res_labels r)
              (neighbour c (at2 (d8_flow_flats (res_flat_mask r) (res_labels r) flowdirs) c))
          = at2 (res_labels r) c
        ∧ at2 (res_flat_mask r)
              (neighbour c (at2 (d8_flow_flats (res_flat_mask r) (res_labels r) flowdirs) c))
          < at2 (res_flat_mask r) c.
Proof.
  intros Laws Hw Hh Hnf Hnf0 Hnd Hfuel.
  destruct (resolved_flow elevations flowdirs flat_mask labels fuel
              Laws Hw Hh Hnf Hnf0 Hnd Hfuel) as (r & Hres & _ & Hflat & _).
  by exists r.
Qed.

(** X12: under the same conditions a cell without a label (a cell outside
    the flats that have an outlet) holds after [d8_flow_flats] the direction
    it held before: a flat without an outlet keeps [NO_FLOW]. *)
Theorem unlabelled_cells_keep_directions (elevations : Array2D T)
    (flowdirs flat_mask labels : Array2D Z) (fuel : nat) :
  ElevLaws T →
  viewWidth elevations = viewWidth flowdirs →
  viewHeight elevations = viewHeight flowdirs →
  NO_FLOW ≠ noData flowdirs → NO_FLOW ≤ 0 →
  nodata_apart flowdirs elevations →
  (fuel_bound flowdirs ≤ fuel)%nat →
  ∃ r, resolve_flats_barnes fuel elevations flowdirs flat_mask labels = Done r
    ∧ ∀ c, at2 (res_labels r) c = 0 →
        at2 (d8_flow_flats (res_flat_mask r) (res_labels r) flowdirs) c = at2 flowdirs c.
Proof.
  intros Laws Hw Hh Hnf Hnf0 Hnd Hfuel.
  destruct (resolved_flow elevations flowdirs flat_mask labels fuel
              Laws Hw Hh Hnf Hnf0 Hnd Hfuel) as (r & Hres & _ & _ & Hkeep).
  by exists r.
Qed.

(** X13: under the same conditions the directions drain the flats: from a
    labelled cell, following the new directions for at most as many steps as
    the cell's mask leads, through interior cells of the flat that held
    [NO_FLOW], to a cell of the flat that held a direction before or lies on
    the border of the raster. *)
Theorem flats_drain (elevations : Array2D T)
    (flowdirs flat_mask labels : Array2D Z) (fuel : nat) :
  ElevLaws T →
  viewWidth elevations = viewWidth flowdirs →
  viewHeight elevations = viewHeight flowdirs →
  NO_FLOW ≠ noData flowdirs → NO_FLOW ≤ 0 →
  nodata_apart flowdirs elevations →
  (fuel_bound flowdirs ≤ fuel)%nat →
  ∃ r, resolve_flats_barnes fuel elevations flowdirs flat_mask labels = Done r
    ∧ ∀ c, 0 < at2 (res_labels r) c →
        ∃ k, (k ≤ Z.to_nat (at2 (res_flat_mask r) c))%nat
          ∧ at2 (res_labels r)
                (follow (d8_flow_flats (res_flat_mask r) (res_labels r) flowdirs) k c)
            = at2 (res_labels r) c
          ∧ (at2 flowdirs
                 (follow (d8_flow_flats (res_flat_mask r) (res_labels r) flowdirs) k c)
             ≠ NO_FLOW
             ∨ follow (d8_flow_flats (res_flat_mask r) (res_labels r) flowdirs) k c
               ∉ interior_cells flowdirs)
          ∧ ∀ j, (j < k)%nat →
              follow (d8_flow_flats (res_flat_mask r) (res_labels r) flowdirs) j c
              ∈ interior_cells flowdirs
              ∧ at2 flowdirs
                    (follow (d8_flow_flats (res_flat_mask r) (res_labels r) flowdirs) j c)
                = NO_FLOW.
Proof.
  intros Laws Hw Hh Hnf Hnf0 Hnd Hfuel.
  destruct (resolved_flow elevations flowdirs flat_mask labels fuel
              Laws Hw Hh Hnf Hnf0 Hnd Hfuel) as (r & Hres & Hmask & Hflat & _).
  exists r. split; [done|].
  set (F := d8_flow_flats (res_flat_mask r) (res_labels r) flowdirs) in *.
  assert (∀ n c, 0 < at2 (res_labels r) c →
            (Z.to_nat (at2 (res_flat_mask r) c) ≤ n)%nat →
            ∃ k, (k ≤ Z.to_nat (at2 (res_flat_mask r) c))%nat
              ∧ at2 (res_labels r) (follow F k c) = at2 (res_labels r) c
              ∧ (at2 flowdirs (follow F k c) ≠ NO_FLOW
                 ∨ follow F k c ∉ interior_cells flowdirs)
              ∧ ∀ j, (j < k)%nat →
                  follow F j c ∈ interior_cells flowdirs
                  ∧ at2 flowdirs (follow F j c) = NO_FLOW) as Hind.
  { induction n as [|n IH]; intros c Hl Hn.
    - exists 0%nat. cbn [follow]. split_and!; [lia|done| |intros j; lia].
      destruct (decide (at2 flowdirs c = NO_FLOW)) as [Hf|]; [|by left].
      destruct (decide (c ∈ interior_cells flowdirs)) as [Hc|]; [|by right].
      destruct (Hflat c Hc Hl Hf) as (_ & _ & Hlt).
      pose proof (Hmask (neighbour c (at2 F c))). pose proof (Hmask c). lia.
    - destruct (decide (at2 flowdirs c = NO_FLOW)) as [Hf|];
        [|exists 0%nat; cbn [follow]; split_and!; [lia|done|by left|intros j; lia]].
      destruct (decide (c ∈ interior_cells flowdirs)) as [Hc|];
        [|exists 0%nat; cbn [follow]; split_and!; [lia|done|by right|intros j; lia]].
      destruct (Hflat c Hc Hl Hf) as (_ & Hnl & Hlt).
      pose proof (Hmask (neighbour c (at2 F c))) as Hm1. pose proof (Hmask c) as Hm0.
      destruct (IH (flow_step F c)) as (k & Hk & Hkl & Hend & Hpath).
      + unfold flow_step. by rewrite Hnl.
      + unfold flow_step. lia.
      + exists (S k). cbn [follow]. unfold flow_step in *. split_and!.
        * lia.
        * by rewrite Hkl.
        * done.
        * intros [|j] Hj; cbn [follow]; [done|]. apply Hpath. lia. }
  intros c Hl. by apply (Hind (Z.to_nat (at2 (res_flat_mask r) c))).
Qed.

End ResolvedFlow.

Section ResolvedMask.
Context `{FlowDirParams} {T : Type} `{ElevOps T}.

Lemma label_flats_count (elevations : Array2D T) fuel low :
  ∀ g labels g' labels',
  label_flats fuel low g labels elevations = Done (g', labels') →
  g' ≤ g + Z.of_nat (length low).
Proof.
  induction low as [|i low IH]; intros g labels g' labels' Hrun.
  - cbn in Hrun. injection Hrun as <- <-. cbn. lia.
  - cbn [label_flats] in Hrun. cbn [length].
    destruct (at2 labels i =? 0).
    + destruct (label_this fuel i g labels elevations) as [labels1| | |]; try done.
      cbn in Hrun. apply IH in Hrun. lia.
    + apply IH in Hrun. lia.
Qed.

Lemma filter_Forall_id {A} (P : A → Prop) `{∀ x, Decision (P x)} (l : list A) :
  Forall P l → filter P l = l.
Proof.
  induction 1 as [|x l Hx Hl IH]; [done|]. by rewrite filter_cons_True, IH.
Qed.

(** X14: on a raster with [N] cells, [3 * (N + 1)] below [2^31], the mask
    and the labels that [resolve_flats_barnes] returns are values of
    [int32_t]: the mask lies between [-(N+1)] and [3 * (N+1)], a label
    between 0 and [N]. *)
Theorem resolve_flats_barnes_fits_int32 (elevations : Array2D T)
    (flowdirs flat_mask labels : Array2D Z) (fuel : nat) :
  viewWidth elevations = viewWidth flowdirs →
  viewHeight elevations = viewHeight flowdirs →
  (fuel_bound flowdirs ≤ fuel)%nat →
  3 * (Z.of_nat (length (all_cells flowdirs)) + 1) < 2 ^ 31 →
  ∃ r, resolve_flats_barnes fuel elevations flowdirs flat_mask labels = Done r
    ∧ ∀ c, - 2 ^ 31 ≤ at2 (res_flat_mask r) c < 2 ^ 31
           ∧ - (Z.of_nat (length (all_cells flowdirs)) + 1) ≤ at2 (res_flat_mask r) c
             ≤ 3 * (Z.of_nat (length (all_cells flowdirs)) + 1)
           ∧ 0 ≤ at2 (res_labels r) c ≤ Z.of_nat (length (all_cells flowdirs)).
Proof.
  intros Hw Hh Hfuel Hsize.
  assert (∃ r, resolve_flats_barnes fuel elevations flowdirs flat_mask labels = Done r
               ∧ ∀ c, 0 ≤ at2 (res_labels r) c ≤ Z.of_nat (length (all_cells flowdirs)))
    as (r & Hres & Hlab).
  { destruct (decide ((find_flat_edges [] [] flowdirs elevations).1 = [])) as [Hlow|Hlow].
    - eexists. split; [by apply resolve_flats_barnes_no_outlet|]. intros c. cbn. lia.
    - destruct (resolve_flats_barnes_run elevations flowdirs flat_mask labels fuel
                  Hw Hh Hfuel Hlow)
        as (g & L1 & k & maskA & heightA & lev & k' & maskT & Hrun).
      cbn zeta in Hrun. destruct Hrun as (Hlab & Hg & Hrange & _ & _ & _ & _ & _ & _ & _ & Hres).
      eexists. split; [exact Hres|]. cbn [res_labels]. intros c.
      apply label_flats_count in Hlab.
      pose proof (length_edges flowdirs elevations) as [Hlen _].
      specialize (Hrange c). lia. }
  exists r. split; [done|]. intros c.
  pose proof (resolve_flats_barnes_bounded elevations flowdirs flat_mask labels fuel r
                Hw Hh Hfuel Hres c) as Hb.
  specialize (Hlab c). lia.
Qed.

(** X15: when there are low edges, [resolve_flats_barnes] warns that not
    all flats have outlets exactly when some high edge is left without a
    label; otherwise it reports nothing. *)
Theorem not_all_outlets_reported (elevations : Array2D T)
    (flowdirs flat_mask labels : Array2D Z) (fuel : nat) :
  viewWidth elevations = viewWidth flowdirs →
  viewHeight elevations = viewHeight flowdirs →
  (fuel_bound flowdirs ≤ fuel)%nat →
  (find_flat_edges [] [] flowdirs elevations).1 ≠ [] →
  ∃ r, resolve_flats_barnes fuel elevations flowdirs flat_mask labels = Done r
    ∧ ((res_log r = [NotAllOutlets]
        ∧ ∃ s, s ∈ (find_flat_edges [] [] flowdirs elevations).2 ∧ at2 (res_labels r) s = 0)
       ∨ (res_log r = []
          ∧ ∀ s, s ∈ (find_flat_edges [] [] flowdirs elevations).2 →
                 0 < at2 (res_labels r) s)).
Proof.
  intros Hw Hh Hfuel Hlow.
  destruct (resolve_flats_barnes_run elevations flowdirs flat_mask labels fuel
              Hw Hh Hfuel Hlow)
    as (g & L1 & k & maskA & heightA & lev & k' & maskT & Hrun).
  cbn zeta in Hrun. destruct Hrun as (_ & _ & Hrange & _ & _ & _ & _ & _ & _ & _ & Hres).
  eexists. split; [exact Hres|]. cbn [res_log res_labels].
  set (high := (find_flat_edges [] [] flowdirs elevations).2) in *.
  destruct (decide (Forall (λ i, at2 L1 i ≠ 0) high)) as [Hall|Hsome].
  - right. unfold prune_high_edges.
    rewrite filter_Forall_id by done.
    rewrite (proj2 (Nat.ltb_ge _ _)) by done. split; [done|].
    intros s Hs. rewrite Forall_forall in Hall. specialize (Hall s Hs).
    specialize (Hrange s). lia.
  - left. apply not_Forall_Exists in Hsome; [|apply _].
    apply Exists_exists in Hsome as (s & Hs & Hs0).
    split; [|exists s; split; [done|]; by destruct (decide (at2 L1 s = 0))].
    assert (length (prune_high_edges L1 high) < length high)%nat as Hlt.
    { by apply (length_filter_lt _ _ s). }
    by rewrite (proj2 (Nat.ltb_lt _ _) Hlt).
Qed.

(** X16: [resolve_flats_barnes] gives every low edge the mask 2; any other
    cell holds a mask of at least 4 or none above 0, so the low edges hold
    the least positive mask. *)
Theorem low_edges_hold_two (elevations : Array2D T)
    (flowdirs flat_mask labels : Array2D Z) (fuel : nat) :
  viewWidth elevations = viewWidth flowdirs →
  viewHeight elevations = viewHeight flowdirs →
  (fuel_bound flowdirs ≤ fuel)%nat →
  ∃ r, resolve_flats_barnes fuel elevations flowdirs flat_mask labels = Done r
    ∧ (∀ s, s ∈ (find_flat_edges [] [] flowdirs elevations).1 →
            at2 (res_flat_mask r) s = 2)
    ∧ (∀ c, c ∉ (find_flat_edges [] [] flowdirs elevations).1 →
            at2 (res_flat_mask r) c ≤ 0 ∨ 4 ≤ at2 (res_flat_mask r) c).
Proof.
  intros Hw Hh Hfuel.
  destruct (decide ((find_flat_edges [] [] flowdirs elevations).1 = [])) as [Hlow|Hlow].
  { eexists. split; [by apply resolve_flats_barnes_no_outlet|]. cbn [res_flat_mask].
    rewrite Hlow. split; [intros s Hs; by apply elem_of_nil in Hs|].
    intros c _. left. by cbn. }
  destruct (resolve_flats_barnes_run elevations flowdirs flat_mask labels fuel Hw Hh Hfuel Hlow)
    as (g & L1 & k & maskA & heightA & lev & k' & maskT & Hrun).
  cbn zeta in Hrun.
  destruct Hrun as (_ & Hg & Hrange & _ & _ & _ & HinvA & Hneg & _ & HinvT & Hres).
  set (low := (find_flat_edges [] [] flowdirs elevations).1) in *.
  set (high := (find_flat_edges [] [] flowdirs elevations).2) in *.
  destruct HinvA as [HbA HkA _ HlA HmaxA _].
  destruct HinvT as [HbT HkT HmT _].
  destruct (bfs_inv_result _ _ _ _ _ HbA) as (_ & HreachA & _).
  destruct (bfs_inv_result _ _ _ _ _ HbT) as (HdepthT & _ & HminT).
  assert (∀ c, at2 maskA c ≤ 0 → at2 maskA c = 0) as HzeroA.
  { intros c Hc. by rewrite (HkA c Hc). }
  assert (∀ c, 0 < at2 maskA c → at2 flowdirs c = NO_FLOW) as HflatA.
  { intros c Hc. apply HreachA in Hc as [j Hj]. revert j c Hj. apply walk_property.
    - intros s [_ Hs]%elem_of_prune_high_edges.
      apply elem_of_high_edges in Hs as [_ Hs]. by apply high_edge_no_flow in Hs.
    - by intros p c _ (_ & _ & Hf & _)%elem_of_flat_pushes. }
  assert (∀ c, 0 ≤ gain L1 (negate_mask maskA) heightA c) as Hgn.
  { intros c. unfold gain. rewrite Hneg.
    destruct (Z.eqb_spec (- at2 maskA c) 0); [done|].
    destruct (vec_get_is_Some heightA (at2 L1 c)) as [h Hget].
    { rewrite HlA, length_replicate. specialize (Hrange c). lia. }
    rewrite Hget. simpl. assert (0 < at2 maskA c) as Hpos.
    { destruct (decide (0 < at2 maskA c)); [done|]. specialize (HzeroA c). lia. }
    specialize (HmaxA c h Hpos Hget). lia. }
  eexists. split; [exact Hres|]. cbn [res_flat_mask]. split.
  - intros s Hs.
    assert (lev s = 1) as Hlev.
    { rewrite (HdepthT s 0%nat); [done|]. split; [by apply walk_seed|intros j; lia]. }
    rewrite HmT, Hlev by lia. unfold gain. rewrite Hneg.
    assert (at2 maskA s = 0) as ->.
    { apply HzeroA. destruct (decide (0 < at2 maskA s)) as [Hpos|]; [|lia].
      apply HflatA in Hpos. apply elem_of_low_edges in Hs as [_ Hs].
      by apply low_edge_has_flow in Hs. }
    done.
  - intros c Hc. destruct (decide (0 < lev c)) as [Hpos|Hnpos].
    + right. rewrite HmT by done. destruct (HminT c Hpos) as (j & [Hwj _] & ->).
      destruct j as [|j]; [by inversion Hwj|]. specialize (Hgn c). lia.
    + left. rewrite HkT, Hneg by lia.
      destruct (decide (0 < at2 maskA c)); [lia|]. rewrite HzeroA; lia.
Qed.

(** X21: the mask [resolve_flats_barnes] returns combines the two
    gradients: a cell [j] hops from the low edges holds [2 * (j + 1)] if the
    expansion from the labelled high edges does not reach it, and
    [2 * (j + 1) + (h - (i + 1))] if that expansion reaches it after [i]
    hops, where [h] is the largest value [i' + 1] over the cells of its
    label. *)
Theorem final_mask_closed_form (elevations : Array2D T)
    (flowdirs flat_mask labels : Array2D Z) (fuel : nat) :
  viewWidth elevations = viewWidth flowdirs →
  viewHeight elevations = viewHeight flowdirs →
  (fuel_bound flowdirs ≤ fuel)%nat →
  (find_flat_edges [] [] flowdirs elevations).1 ≠ [] →
  ∃ r, resolve_flats_barnes fuel elevations flowdirs flat_mask labels = Done r
    ∧ ∀ c j,
        min_hops flowdirs (res_labels r) (find_flat_edges [] [] flowdirs elevations).1 c j →
        (¬ reached flowdirs (res_labels r)
             (prune_high_edges (res_labels r) (find_flat_edges [] [] flowdirs elevations).2) c →
         at2 (res_flat_mask r) c = 2 * (Z.of_nat j + 1))
        ∧ (∀ i,
             min_hops flowdirs (res_labels r)
               (prune_high_edges (res_labels r) (find_flat_edges [] [] flowdirs elevations).2)
               c i →
             ∃ h,
               at2 (res_flat_mask r) c = 2 * (Z.of_nat j + 1) + (h - (Z.of_nat i + 1))
               ∧ (∀ c' i', at2 (res_labels r) c' = at2 (res_labels r) c →
                    min_hops flowdirs (res_labels r)
                      (prune_high_edges (res_labels r)
                         (find_flat_edges [] [] flowdirs elevations).2) c' i' →
                    Z.of_nat i' + 1 ≤ h)
               ∧ (∃ c' i', at2 (res_labels r) c' = at2 (res_labels r) c
                    ∧ min_hops flowdirs (res_labels r)
                        (prune_high_edges (res_labels r)
                           (find_flat_edges [] [] flowdirs elevations).2) c' i'
                    ∧ h = Z.of_nat i' + 1)).
Proof.
  intros Hw Hh Hfuel Hlow.
  destruct (resolve_flats_barnes_run elevations flowdirs flat_mask labels fuel Hw Hh Hfuel Hlow)
    as (g & L1 & k & maskA & heightA & lev & k' & maskT & Hrun).
  cbn zeta in Hrun.
  destruct Hrun as (_ & Hg & Hrange & _ & _ & _ & HinvA & Hneg & _ & HinvT & Hres).
  eexists. split; [exact Hres|]. cbn [res_flat_mask res_labels].
  set (low := (find_flat_edges [] [] flowdirs elevations).1) in *.
  set (high' := prune_high_edges L1 (find_flat_edges [] [] flowdirs elevations).2) in *.
  destruct HinvA as [HbA HkA _ HlA HmaxA HhitA].
  destruct HinvT as [HbT HkT HmT _].
  destruct (bfs_inv_result _ _ _ _ _ HbA) as (HdepthA & HreachA & HminA).
  destruct (bfs_inv_result _ _ _ _ _ HbT) as (HdepthT & _ & _).
  intros c j Hj. pose proof (HdepthT c j Hj) as Hlev. rewrite HmT by lia. rewrite Hlev.
  unfold gain. rewrite Hneg. split.
  - intros Hno. assert (at2 maskA c = 0) as ->.
    { destruct (decide (0 < at2 maskA c)) as [Hpos|Hn]; [by apply HreachA in Hpos|].
      rewrite HkA by lia. done. }
    change (- 0) with 0. rewrite Z.eqb_refl. lia.
  - intros i Hi. pose proof (HdepthA c i Hi) as HA.
    destruct (Z.eqb_spec (- at2 maskA c) 0) as [|_]; [lia|].
    destruct (vec_get_is_Some heightA (at2 L1 c)) as [h Hget].
    { rewrite HlA, length_replicate. specialize (Hrange c). lia. }
    rewrite Hget. cbn [default]. exists h. split_and!.
    + rewrite HA. simpl. lia.
    + intros c' i' Hl Hi'. pose proof (HdepthA c' i' Hi') as HA'.
      rewrite <- HA'. apply HmaxA; [lia|by rewrite Hl].
    + destruct (HhitA _ _ Hget) as [[_ Hnone]|(c' & Hl & Hm & Hpos)].
      { specialize (Hnone c eq_refl). lia. }
      assert (0 < at2 maskA c') as Hc' by lia.
      destruct (HminA c' Hc') as (i' & Hi' & Hmi'). exists c', i'.
      split_and!; [done|done|lia].
Qed.

(** X23: on a raster none of whose cells holds a flow direction and none
    of whose cells lies below a neighbour (a raster that is level
    throughout, say), [resolve_flats_barnes] finds no edge: it reports that
    there were no flats and returns the labels and the mask all 0. *)
Theorem level_raster_reports_no_flats (elevations : Array2D T)
    (flowdirs flat_mask labels : Array2D Z) (fuel : nat) :
  (∀ c, in_grid flowdirs (fst c) (snd c) = true →
        at2 flowdirs c = NO_FLOW ∨ at2 flowdirs c = noData flowdirs) →
  (∀ c n, n ∈ d8_range → in_grid flowdirs (fst c) (snd c) = true →
          in_grid flowdirs (fst (neighbour c n)) (snd (neighbour c n)) = true →
          elev_ltb (at2 elevations c) (at2 elevations (neighbour c n)) = false) →
  ∃ r, resolve_flats_barnes fuel elevations flowdirs flat_mask labels = Done r
    ∧ res_log r = [NoFlats]
    ∧ (∀ c, at2 (res_labels r) c = 0) ∧ (∀ c, at2 (res_flat_mask r) c = 0).
Proof.
  intros Hflow Hlevel.
  assert ((find_flat_edges [] [] flowdirs elevations).1 = []) as Hlow.
  { destruct (find_flat_edges [] [] flowdirs elevations).1 as [|s l] eqn:Hl; [done|].
    exfalso. assert (s ∈ (find_flat_edges [] [] flowdirs elevations).1) as Hs
      by (rewrite Hl; by left).
    apply elem_of_low_edges in Hs as [Hg Hs].
    pose proof (edge_class_data flowdirs elevations s ltac:(by rewrite Hs)) as Hdata.
    apply low_edge_has_flow in Hs. by destruct (Hflow s Hg). }
  assert ((find_flat_edges [] [] flowdirs elevations).2 = []) as Hhigh.
  { destruct (find_flat_edges [] [] flowdirs elevations).2 as [|s l] eqn:Hl; [done|].
    exfalso. assert (s ∈ (find_flat_edges [] [] flowdirs elevations).2) as Hs
      by (rewrite Hl; by left).
    apply elem_of_high_edges in Hs as [Hg Hs]. unfold edge_class in Hs.
    destruct (at2 flowdirs s =? noData flowdirs); [done|].
    apply scan_edges_high_iff in Hs as (_ & n & Hn & Hgn & _ & Hlt).
    by rewrite (Hlevel s n Hn Hg Hgn) in Hlt. }
  eexists. split; [by apply resolve_flats_barnes_no_outlet|].
  cbn [res_log res_labels res_flat_mask]. rewrite Hhigh. by split_and!.
Qed.

End ResolvedMask.

Section AlterDemSweep.
Variables (ty : elev_type) (flat_mask labels : Array2D Z).

Lemma alter_sweep_at (cs : list grid_cell) (st : Array2D spec_float * list grid_cell) c :
  NoDup cs →
  at2 (fst (fold_left (alter_cell ty flat_mask labels) cs st)) c =
  if decide (c ∈ cs ∧ at2 labels c ≠ 0)
  then Z.iter (at2 flat_mask c)
              (λ e, of_float ty (nextafterf_up (to_float ty e))) (at2 (fst st) c)
  else at2 (fst st) c.
Proof.
  intros Hnd.
  rewrite (sweep_at (λ st c, at2 (fst st) c) _
    (λ c e, if decide (at2 labels c = 0) then e
            else Z.iter (at2 flat_mask c)
                        (λ e, of_float ty (nextafterf_up (to_float ty e))) e)).
  - repeat case_decide; try done; tauto.
  - intros st0 c0 c'. apply alter_cell_at.
  - done.
Qed.

Lemma alter_cell_dims st c :
  viewWidth (fst (alter_cell ty flat_mask labels st c)) = viewWidth (fst st)
  ∧ viewHeight (fst (alter_cell ty flat_mask labels st c)) = viewHeight (fst st)
  ∧ noData (fst (alter_cell ty flat_mask labels st c)) = noData (fst st).
Proof.
  unfold alter_cell. destruct st as [elevations reported].
  destruct (at2 labels c =? 0); cbn [fst]; [done|].
  destruct (at2 flat_mask c) as [|p|p]; cbn [Z.iter]; [done| |done].
  rewrite Pos2Nat.inj_iter. induction (Pos.to_nat p) as [|k IH]; [done|].
  cbn [nat_rect]. unfold raise_once at 1 3 5. by cbn [viewWidth viewHeight noData set2].
Qed.

Lemma alter_sweep_dims (cs : list grid_cell) :
  ∀ st,
  viewWidth (fst (fold_left (alter_cell ty flat_mask labels) cs st)) = viewWidth (fst st)
  ∧ viewHeight (fst (fold_left (alter_cell ty flat_mask labels) cs st))
    = viewHeight (fst st)
  ∧ noData (fst (fold_left (alter_cell ty flat_mask labels) cs st)) = noData (fst st).
Proof.
  induction cs as [|c cs IH]; intros st; [done|]. cbn [fold_left].
  destruct (IH (alter_cell ty flat_mask labels st c)) as (-> & -> & ->).
  apply alter_cell_dims.
Qed.

Lemma alter_sweep_reported (cs : list grid_cell) :
  ∀ st x, x ∈ snd (fold_left (alter_cell ty flat_mask labels) cs st) →
          x ∈ snd st ∨ (x ∈ cs ∧ at2 labels x ≠ 0).
Proof.
  induction cs as [|c cs IH]; intros st x Hx; [by left|]. cbn [fold_left] in Hx.
  apply IH in Hx as [Hx|[Hx Hl]]; [|right; split; [by right|done]].
  unfold alter_cell in Hx. destruct st as [elevations reported].
  destruct (Z.eqb_spec (at2 labels c) 0) as [|Hl]; [by left|]. cbn [snd] in Hx.
  apply elem_of_app in Hx as [Hx|Hx]; [by left|].
  apply list_elem_of_fmap in Hx as (y & -> & _). right. split; [by left|done].
Qed.

(** X17: the cells of [d8_flats_alter_dem] may be visited in any order (the
    loop over [x] is an OpenMP parallel loop): every order of the interior
    cells gives the elevations of the order of the source. *)
Theorem d8_flats_alter_dem_any_order (elevations : Array2D spec_float)
    (cs : list grid_cell) :
  cs ≡ₚ interior_cells flat_mask →
  ∀ c, at2 (fst (fold_left (alter_cell ty flat_mask labels) cs (elevations, []))) c
       = at2 (fst (d8_flats_alter_dem ty flat_mask labels elevations)) c.
Proof.
  intros Hperm c. unfold d8_flats_alter_dem. rewrite !alter_sweep_at.
  - repeat case_decide; try done; exfalso; rewrite Hperm in *; tauto.
  - apply NoDup_cell_range.
  - rewrite Hperm. apply NoDup_cell_range.
Qed.

(** X18: [d8_flats_alter_dem] keeps the dimensions and the NoData value of
    the elevations, leaves every cell that bears the label 0, holds a mask
    that is not positive, or is not an interior cell of the mask at its
    elevation, and reports only labelled interior cells. *)
Theorem d8_flats_alter_dem_keeps (elevations : Array2D spec_float) :
  viewWidth (fst (d8_flats_alter_dem ty flat_mask labels elevations)) = viewWidth elevations
  ∧ viewHeight (fst (d8_flats_alter_dem ty flat_mask labels elevations))
    = viewHeight elevations
  ∧ noData (fst (d8_flats_alter_dem ty flat_mask labels elevations)) = noData elevations
  ∧ (∀ c, at2 labels c = 0 ∨ at2 flat_mask c ≤ 0
          ∨ ¬ (1 ≤ fst c < viewWidth flat_mask - 1 ∧ 1 ≤ snd c < viewHeight flat_mask - 1) →
          at2 (fst (d8_flats_alter_dem ty flat_mask labels elevations)) c = at2 elevations c)
  ∧ (∀ c, c ∈ snd (d8_flats_alter_dem ty flat_mask labels elevations) →
          (1 ≤ fst c < viewWidth flat_mask - 1 ∧ 1 ≤ snd c < viewHeight flat_mask - 1)
          ∧ at2 labels c ≠ 0).
Proof.
  split_and!; try apply (alter_sweep_dims (interior_cells flat_mask) (elevations, [])).
  - intros c Hc. rewrite d8_flats_alter_dem_at.
    destruct (decide _) as [[Hin Hl]|]; [|done].
    apply elem_of_cell_range in Hin.
    destruct Hc as [?|[Hm|?]]; [done| |tauto].
    destruct (at2 flat_mask c); [done|lia|done].
  - intros c Hc. apply alter_sweep_reported in Hc as [Hc|[Hc Hl]]; [by apply elem_of_nil in Hc|].
    by apply elem_of_cell_range in Hc.
Qed.

End AlterDemSweep.

Section AlterDemSteps.
Variables (flat_mask labels : Array2D Z) (elevations : Array2D spec_float).

Lemma Z_iter_fixed {A} (f : A → A) (x : A) n : f x = x → Z.iter n f x = x.
Proof.
  intros Hf. destruct n as [|p|p]; cbn [Z.iter]; [done| |done].
  rewrite Pos2Nat.inj_iter. induction (Pos.to_nat p) as [|k IH]; [done|].
  cbn [nat_rect]. by rewrite IH.
Qed.

(** X19: on a raster of [float] elevations [d8_flats_alter_dem] raises
    every interior cell with a label other than 0 by as many steps to the
    next [float] as its mask says. *)
Theorem d8_flats_alter_dem_float_steps (c : grid_cell) :
  1 ≤ fst c < viewWidth flat_mask - 1 → 1 ≤ snd c < viewHeight flat_mask - 1 →
  at2 labels c ≠ 0 →
  at2 (fst (d8_flats_alter_dem Float flat_mask labels elevations)) c =
  Z.iter (at2 flat_mask c) (next_up Float) (at2 elevations c).
Proof.
  intros Hx Hy Hl. apply d8_flats_alter_dem_float; [|done].
  by apply elem_of_cell_range.
Qed.

(** X20: an elevation that is [+infinity] or not a number is left as it is
    by [d8_flats_alter_dem], whatever the mask and the elevation type. *)
Theorem d8_flats_alter_dem_saturates (ty : elev_type) (c : grid_cell) :
  at2 elevations c = S754_infinity false ∨ at2 elevations c = S754_nan →
  at2 (fst (d8_flats_alter_dem ty flat_mask labels elevations)) c = at2 elevations c.
Proof.
  intros Hc. rewrite d8_flats_alter_dem_at. destruct (decide _); [|done].
  apply Z_iter_fixed. by destruct Hc as [-> | ->], ty.
Qed.

End AlterDemSteps.
(** ** The properties on the scenarios of the specification *)

Lemma Z_ElevLaws : ElevLaws Z.
Proof.
  split; simpl.
  - intros a. apply Z.eqb_refl.
  - intros a b. rewrite !Z.eqb_eq. congruence.
  - intros a b c. rewrite !Z.eqb_eq. congruence.
  - intros a b Hlt. apply Z.ltb_lt in Hlt. apply Z.eqb_neq. lia.
Qed.

(** A property of the cells that holds outside the raster and, by
    evaluation, on each of its cells, holds everywhere. *)
Lemma all_cells_check {A} (a : Array2D A) (P : grid_cell → bool) :
  (∀ c, in_grid a (fst c) (snd c) = false → P c = true) →
  forallb P (all_cells a) = true →
  ∀ c, P c = true.
Proof.
  intros Hout Hin c. destruct (in_grid a (fst c) (snd c)) eqn:Hg; [|by apply Hout].
  rewrite forallb_forall in Hin. by apply Hin, list_elem_of_In, elem_of_all_cells.
Qed.

Lemma nth_overflow_Z {A} (l : list A) (d : A) n : (length l ≤ n)%nat → nth n l d = d.
Proof.
  revert n. induction l as [|a l IH]; intros [|n] Hn; simpl in *; try done; try lia.
  apply IH. lia.
Qed.

(** Outside its rows a raster given by rows holds the default. *)
Lemma raster_of_rows_outside {A} (w h : Z) (nd d : A) (rows : list (list A)) c :
  (length rows ≤ Z.to_nat h)%nat →
  Forall (λ row, (length row ≤ Z.to_nat w)%nat) rows →
  in_grid (raster_of_rows w h nd d rows) (fst c) (snd c) = false →
  at2 (raster_of_rows w h nd d rows) c = d.
Proof.
  intros Hh Hw Hg.
  assert (¬ (0 ≤ fst c < w ∧ 0 ≤ snd c < h)) as Hout.
  { intros Hin. apply (in_grid_spec (raster_of_rows w h nd d rows)) in Hin. congruence. }
  unfold at2, raster_of_rows. cbn [cells].
  destruct (Z.leb_spec 0 (fst c)); [|done]. destruct (Z.leb_spec 0 (snd c)); [|done].
  cbn [andb].
  destruct (decide (Z.to_nat (snd c) < length rows)%nat) as [Hlt|Hge].
  - apply nth_overflow_Z. rewrite Forall_forall in Hw.
    specialize (Hw (nth (Z.to_nat (snd c)) rows [])
                   ltac:(by apply list_elem_of_In, List.nth_In)). lia.
  - rewrite (nth_overflow_Z rows) by lia. by destruct (Z.to_nat (fst c)).
Qed.
(** C1 on scenario S2. *)
Lemma final_mask_drains_S2 :
  ∃ r, @resolve_flats_barnes nf0 Z Z_ElevOps 504 S2_elevations S2_flowdirs blank blank
       = Done r
       ∧ ∀ c, in_grid S2_flowdirs (fst c) (snd c) = true →
              0 < at2 (res_labels r) c →
              c ∉ (@find_flat_edges nf0 Z Z_ElevOps [] [] S2_flowdirs S2_elevations).1 →
              (∃ n, n ∈ d8_range
                    ∧ in_grid S2_flowdirs (fst (neighbour c n)) (snd (neighbour c n)) = true
                    ∧ at2 (res_labels r) (neighbour c n) = at2 (res_labels r) c
                    ∧ at2 (res_flat_mask r) (neighbour c n) < at2 (res_flat_mask r) c)
              ∨ (∃ n, n ∈ d8_range
                      ∧ in_grid S2_flowdirs (fst (neighbour c n)) (snd (neighbour c n)) = true
                      ∧ at2 (res_labels r) (neighbour c n) ≠ at2 (res_labels r) c
                      ∧ elev_ltb (at2 S2_elevations (neighbour c n)) (at2 S2_elevations c)
                        = true).
Proof.
  apply (@final_mask_drains nf0 Z Z_ElevOps S2_elevations S2_flowdirs blank blank 504).
  - exact Z_ElevLaws.
  - reflexivity.
  - reflexivity.
  - by vm_compute.
  - apply nodata_apartb_spec. by vm_compute.
  - apply has_gradientb_spec. by vm_compute.
  - vm_compute. lia.
  - by vm_compute.
Defined.

(** C6 on scenario S2. *)
Lemma final_mask_nonnegative_S2 :
  ∃ r, @resolve_flats_barnes nf0 Z Z_ElevOps 504 S2_elevations S2_flowdirs blank blank
       = Done r
       ∧ ∀ c, 0 ≤ at2 (res_flat_mask r) c
              ∧ (at2 (res_labels r) c = 0 → at2 (res_flat_mask r) c = 0)
              ∧ (at2 (res_flat_mask r) c = 0 ∨ 1 ≤ at2 (res_flat_mask r) c).
Proof.
  apply (@final_mask_nonnegative nf0 Z Z_ElevOps S2_elevations S2_flowdirs blank blank 504).
  - exact Z_ElevLaws.
  - reflexivity.
  - reflexivity.
  - by vm_compute.
  - apply nodata_apartb_spec. by vm_compute.
  - vm_compute. lia.
  - by vm_compute.
Defined.

(** C9 on scenario S2. *)
Lemma flat_height_in_bounds_S2 :
  ∃ r, @resolve_flats_barnes nf0 Z Z_ElevOps 504 S2_elevations S2_flowdirs blank blank
       = Done r.
Proof.
  apply (@flat_height_in_bounds nf0 Z Z_ElevOps S2_elevations S2_flowdirs blank blank 504).
  - reflexivity.
  - reflexivity.
  - vm_compute. lia.
Defined.

(** C7 on scenario S3, the pit. *)
Lemma resolve_flats_barnes_returns_early_S3 :
  ∃ r, @resolve_flats_barnes nf0 Z Z_ElevOps 0 S3_elevations S3_flowdirs blank blank = Done r
       ∧ (∀ c, at2 (res_labels r) c = 0)
       ∧ (∀ c, at2 (res_flat_mask r) c = 0)
       ∧ noData (res_flat_mask r) = -1
       ∧ res_log r = [NoOutlets].
Proof.
  destruct (@resolve_flats_barnes_returns_early nf0 Z Z_ElevOps
              S3_elevations S3_flowdirs blank blank 0)
    as (r & Hrun & _ & _ & Hl & Hm & Hnd & Hlog); [by vm_compute|].
  exists r. split_and!; [done|done|done|done|]. rewrite Hlog. by vm_compute.
Defined.

(** C8 on scenario S5: the tie between the neighbours 2 and 3 goes to 3. *)
Lemma d8_masked_FlowDir_tie_break_S5 :
  @d8_masked_FlowDir nf0 S5_mask S5_labels (1, 1) = 3
  ∧ at2 (@d8_flow_flats nf0 S5_mask S5_labels S5_flowdirs) (1, 1) = 3.
Proof.
  destruct (@d8_masked_FlowDir_tie_break nf0 S5_mask S5_labels S5_flowdirs (1, 1))
    as (_ & Htie & Hflow).
  assert (@d8_masked_FlowDir nf0 S5_mask S5_labels (1, 1) = 3) as Hdir.
  { apply (Htie 4); try reflexivity.
    intros n Hn _.
    assert (n = 4 ∨ n = 5 ∨ n = 6 ∨ n = 7 ∨ n = 8) as Hcases by lia.
    destruct Hcases as [?|[?|[?|[?|?]]]]; subst n; by vm_compute. }
  split; [done|]. rewrite Hflow, Hdir. rewrite decide_True; [done|].
  split_and!; [|by vm_compute|by vm_compute].
  apply elem_of_cell_range. by vm_compute.
Defined.

(** C2 as the specification states it fails on S2: the high edge (1,1)
    is no hop away from a high edge and holds the mask 1. *)
Lemma BuildAwayGradient_depth_not_hops :
  ¬ (∀ flat_mask' flat_height',
       @BuildAwayGradient nf0 200 S2_flowdirs S2_mask0 S2_high_edges [0; 0] S2_labels
       = Done (flat_mask', flat_height') →
       ∀ c j, @min_hops nf0 S2_flowdirs S2_labels S2_high_edges c j →
              at2 flat_mask' c = Z.of_nat j).
Proof.
  intros Hspec.
  destruct (@BuildAwayGradient nf0 200 S2_flowdirs S2_mask0 S2_high_edges [0; 0] S2_labels)
    as [[flat_mask' flat_height']| | |] eqn:Hrun.
  - specialize (Hspec flat_mask' flat_height' eq_refl (1, 1) 0%nat).
    assert (match @BuildAwayGradient nf0 200 S2_flowdirs S2_mask0 S2_high_edges [0; 0]
                    S2_labels with
            | Done (m, _) => at2 m (1, 1)
            | _ => 0
            end = 1) as Hval by (by vm_compute).
    rewrite Hrun in Hval. rewrite Hval in Hspec.
    assert (1 = Z.of_nat 0) as Hbad; [|done].
    apply Hspec. split.
    + apply walk_seed. unfold S2_high_edges. repeat constructor.
    + intros j Hj. lia.
  - assert (match @BuildAwayGradient nf0 200 S2_flowdirs S2_mask0 S2_high_edges [0; 0]
                    S2_labels with Done _ => true | _ => false end = true) as Hval
      by (by vm_compute).
    by rewrite Hrun in Hval.
  - assert (match @BuildAwayGradient nf0 200 S2_flowdirs S2_mask0 S2_high_edges [0; 0]
                    S2_labels with Done _ => true | _ => false end = true) as Hval
      by (by vm_compute).
    by rewrite Hrun in Hval.
  - assert (match @BuildAwayGradient nf0 200 S2_flowdirs S2_mask0 S2_high_edges [0; 0]
                    S2_labels with Done _ => true | _ => false end = true) as Hval
      by (by vm_compute).
    by rewrite Hrun in Hval.
Qed.

(** C2 (amended) on scenario S2. *)
Lemma BuildAwayGradient_depth_S2 :
  ∃ flat_mask' flat_height',
    @BuildAwayGradient nf0 504 S2_flowdirs S2_mask0 S2_high_edges [0; 0] S2_labels
    = Done (flat_mask', flat_height')
    ∧ ∀ c j, @min_hops nf0 S2_flowdirs S2_labels S2_high_edges c j →
             at2 flat_mask' c = Z.of_nat j + 1.
Proof.
  destruct (@BuildAwayGradient_depth nf0 S2_flowdirs S2_mask0 S2_high_edges [0; 0]
              S2_labels 504) as (flat_mask' & flat_height' & Hrun & Hdepth & _).
  - intros s Hs. unfold S2_high_edges in Hs. cell_cases Hs.
  - reflexivity.
  - assert (∀ c, (0 <=? at2 S2_labels c) && (at2 S2_labels c <? 2) = true) as Hb.
    { apply (all_cells_check S2_labels); [|by vm_compute].
      intros c Hc. unfold S2_labels in *.
      rewrite raster_of_rows_outside; [done|rows_fit..|done]. }
    intros c. specialize (Hb c). apply andb_true_iff in Hb as [Hb1%Z.leb_le Hb2%Z.ltb_lt].
    cbn [length]. lia.
  - vm_compute. lia.
  - eauto.
Defined.

(** C3 on scenario S2, from the state the away gradient leaves. *)
Lemma BuildTowardsCombinedGradient_closed_form_S2 :
  ∃ flat_mask',
    @BuildTowardsCombinedGradient nf0 504 S2_flowdirs S2_away_mask S2_low_edges
      S2_flat_height S2_labels = Done flat_mask'
    ∧ (∀ c j, @min_hops nf0 S2_flowdirs S2_labels S2_low_edges c j →
              at2 S2_away_mask c = 0 → at2 flat_mask' c = 2 * (Z.of_nat j + 1))
    ∧ (∀ c j h, @min_hops nf0 S2_flowdirs S2_labels S2_low_edges c j →
                at2 S2_away_mask c ≠ 0 →
                vec_get S2_flat_height (at2 S2_labels c) = Some h →
                at2 flat_mask' c = (h - at2 S2_away_mask c) + 2 * (Z.of_nat j + 1)).
Proof.
  destruct (@BuildTowardsCombinedGradient_closed_form nf0 S2_flowdirs S2_away_mask
              S2_low_edges S2_flat_height S2_labels 504)
    as (_ & _ & flat_mask' & Hrun & Hzero & Hpos & _).
  - intros s Hs. unfold S2_low_edges in Hs. cell_cases Hs.
  - assert (∀ c, (0 <=? at2 S2_away_mask c) = true) as Hb.
    { apply (all_cells_check S2_away_mask); [|by vm_compute].
      intros c Hc. unfold S2_away_mask in *.
      rewrite raster_of_rows_outside; [done|rows_fit..|done]. }
    intros c. apply Z.leb_le, Hb.
  - intros c Hc. unfold S2_away_mask in *.
    rewrite raster_of_rows_outside; [done|rows_fit..|done].
  - assert (∀ c, (at2 S2_away_mask c =? 0)
                 || match vec_get S2_flat_height (at2 S2_labels c) with
                    | Some h => at2 S2_away_mask c <=? h
                    | None => false
                    end = true) as Hb.
    { apply (all_cells_check S2_away_mask); [|by vm_compute].
      intros c Hc. unfold S2_away_mask in *.
      rewrite raster_of_rows_outside; [done|rows_fit..|done]. }
    intros c Hnz. specialize (Hb c). apply orb_true_iff in Hb as [Hb|Hb].
    + apply Z.eqb_eq in Hb. done.
    + destruct (vec_get S2_flat_height (at2 S2_labels c)) as [h|]; [|done].
      exists h. split; [done|]. by apply Z.leb_le.
  - vm_compute. lia.
  - eauto.
Defined.

(** C4 as the specification states it fails on S2: one flat is labelled
    and [group_number] ends at 2. *)
Lemma group_number_is_not_the_label_count :
  ¬ (∀ g labels',
       @label_flats Z Z_ElevOps 504
         (@find_flat_edges nf0 Z Z_ElevOps [] [] S2_flowdirs S2_elevations).1 1
         (setup_labels blank S2_elevations S2_flowdirs) S2_elevations = Done (g, labels') →
       Z.of_nat (length (assigned_labels labels')) = g).
Proof.
  intros Hspec.
  assert (match @label_flats Z Z_ElevOps 504
                  (@find_flat_edges nf0 Z Z_ElevOps [] [] S2_flowdirs S2_elevations).1 1
                  (setup_labels blank S2_elevations S2_flowdirs) S2_elevations with
          | Done (g, l) => Some (g, length (assigned_labels l))
          | _ => None
          end = Some (2, 1%nat)) as Hval by (by vm_compute).
  destruct (@label_flats Z Z_ElevOps 504
              (@find_flat_edges nf0 Z Z_ElevOps [] [] S2_flowdirs S2_elevations).1 1
              (setup_labels blank S2_elevations S2_flowdirs) S2_elevations)
    as [[g labels']| | |]; try done.
  specialize (Hspec g labels' eq_refl). injection Hval as Hg Hlen.
  rewrite Hlen, Hg in Hspec. done.
Qed.

(** C4 (amended) on scenario S2. *)
Lemma group_number_counts_labels_S2 :
  ∃ g labels',
    @label_flats Z Z_ElevOps 504
      (@find_flat_edges nf0 Z Z_ElevOps [] [] S2_flowdirs S2_elevations).1 1
      (setup_labels blank S2_elevations S2_flowdirs) S2_elevations = Done (g, labels')
    ∧ (∀ l, l ∈ assigned_labels labels' ↔ 1 ≤ l < g)
    ∧ Z.of_nat (length (assigned_labels labels')) = g - 1
    ∧ Z.of_nat (length (replicate (Z.to_nat g) 0)) = g.
Proof.
  apply (@group_number_counts_labels nf0 Z Z_ElevOps S2_elevations S2_flowdirs blank 504).
  - exact Z_ElevLaws.
  - vm_compute. lia.
Defined.

(** C10 on scenario S2: every labelled cell bears the group number of the
    seed whose fill labelled it. *)
Lemma labels_write_once_S2 :
  ∃ g2 labels2,
    @label_flats Z Z_ElevOps 504
      (@find_flat_edges nf0 Z Z_ElevOps [] [] S2_flowdirs S2_elevations).1 1
      (setup_labels blank S2_elevations S2_flowdirs) S2_elevations = Done (g2, labels2)
    ∧ ∀ c, 0 < at2 labels2 c →
      ∃ pre s post g1 labels1 labels1',
        (@find_flat_edges nf0 Z Z_ElevOps [] [] S2_flowdirs S2_elevations).1
        = pre ++ s :: post
        ∧ @label_flats Z Z_ElevOps 504 pre 1
            (setup_labels blank S2_elevations S2_flowdirs) S2_elevations = Done (g1, labels1)
        ∧ at2 labels1 s = 0 ∧ at2 labels1 c = 0
        ∧ @label_this Z Z_ElevOps 504 s g1 labels1 S2_elevations = Done labels1'
        ∧ at2 labels1' c = g1 ∧ at2 labels2 c = g1.
Proof.
  apply (@labels_write_once nf0 Z Z_ElevOps S2_elevations S2_flowdirs blank 504).
  vm_compute. lia.
Defined.

(** ** The further properties on the example rasters *)

(** X1 on the masks of S5. *)
Lemma d8_masked_FlowDir_lowest_S5 :
  (@d8_masked_FlowDir nf0 S5_mask S5_labels (1, 1) = @NO_FLOW nf0
   ∧ ∀ n, n ∈ d8_range → at2 S5_labels (neighbour (1, 1) n) = at2 S5_labels (1, 1) →
          at2 S5_mask (1, 1) ≤ at2 S5_mask (neighbour (1, 1) n))
  ∨ (@d8_masked_FlowDir nf0 S5_mask S5_labels (1, 1) ∈ d8_range
     ∧ at2 S5_labels (neighbour (1, 1) (@d8_masked_FlowDir nf0 S5_mask S5_labels (1, 1)))
       = at2 S5_labels (1, 1)
     ∧ at2 S5_mask (neighbour (1, 1) (@d8_masked_FlowDir nf0 S5_mask S5_labels (1, 1)))
       < at2 S5_mask (1, 1)
     ∧ ∀ n, n ∈ d8_range → at2 S5_labels (neighbour (1, 1) n) = at2 S5_labels (1, 1) →
            at2 S5_mask (neighbour (1, 1) (@d8_masked_FlowDir nf0 S5_mask S5_labels (1, 1)))
            ≤ at2 S5_mask (neighbour (1, 1) n)).
Proof.
  apply (@d8_masked_FlowDir_lowest nf0 S5_mask S5_labels (1, 1)). cbn. lia.
Defined.

(** X2 on a mask whose only smaller neighbour is a diagonal one: the
    western neighbour holds more than the one chosen. *)
Lemma d8_masked_FlowDir_cardinal_first_diagonal :
  at2 diagonal_mask
      (neighbour (1, 1) (@d8_masked_FlowDir nf0 diagonal_mask S5_labels (1, 1)))
  < at2 diagonal_mask (neighbour (1, 1) 1).
Proof.
  apply (@d8_masked_FlowDir_cardinal_first nf0 diagonal_mask S5_labels (1, 1)).
  - cbn. lia.
  - vm_compute. repeat constructor.
  - reflexivity.
  - repeat constructor.
  - reflexivity.
  - reflexivity.
Defined.

(** X3 on S5, the interior cells taken in reverse. *)
Lemma d8_flow_flats_any_order_S5 :
  at2 (fold_left (@flow_flats_cell nf0 S5_mask S5_labels)
                 (reverse (interior_cells S5_mask)) S5_flowdirs) (1, 1)
  = at2 (@d8_flow_flats nf0 S5_mask S5_labels S5_flowdirs) (1, 1).
Proof.
  apply (@d8_flow_flats_any_order nf0 S5_mask S5_labels S5_flowdirs
           (reverse (interior_cells S5_mask))).
  apply reverse_Permutation.
Defined.

(** X8 on S2: the fill from the low edge [(3,1)]. *)
Lemma label_this_fills_flat_S2 :
  ∃ labels',
    label_this 504 (3, 1) 1 S2_labels0 S2_elevations = Done labels'
    ∧ viewWidth labels' = viewWidth S2_labels0 ∧ viewHeight labels' = viewHeight S2_labels0
    ∧ ∀ c, (same_flat S2_elevations S2_labels0 (3, 1) c ↔ at2 labels' c = 1)
           ∧ (at2 labels' c ≠ 1 → at2 labels' c = at2 S2_labels0 c).
Proof.
  apply (@label_this_fills_flat Z Z_ElevOps S2_elevations S2_labels0 (3, 1) 1 504).
  - lia.
  - intros c. cbn. lia.
  - reflexivity.
  - vm_compute. lia.
Defined.

(** X9 on scenario S2. *)
Lemma labels_cover_flats_S2 :
  ∃ r,
    @resolve_flats_barnes nf0 Z Z_ElevOps 504 S2_elevations S2_flowdirs blank blank = Done r
    ∧ (∀ s, s ∈ (@find_flat_edges nf0 Z Z_ElevOps [] [] S2_flowdirs S2_elevations).1 →
            0 < at2 (res_labels r) s)
    ∧ (∀ c n, 0 < at2 (res_labels r) c → n ∈ d8_range →
         in_grid S2_flowdirs (fst (neighbour c n)) (snd (neighbour c n)) = true →
         elev_eqb (at2 S2_elevations (neighbour c n)) (at2 S2_elevations c) = true →
         at2 (res_labels r) (neighbour c n) = at2 (res_labels r) c).
Proof.
  apply (@labels_cover_flats nf0 Z Z_ElevOps S2_elevations S2_flowdirs blank blank 504).
  - exact Z_ElevLaws.
  - reflexivity.
  - reflexivity.
  - vm_compute. lia.
Defined.

(** X10 on scenario S2. *)
Lemma labels_tell_flats_apart_S2 :
  ∃ r,
    @resolve_flats_barnes nf0 Z Z_ElevOps 504 S2_elevations S2_flowdirs blank blank = Done r
    ∧ ∀ c, 0 < at2 (res_labels r) c →
        ∃ s, s ∈ (@find_flat_edges nf0 Z Z_ElevOps [] [] S2_flowdirs S2_elevations).1
             ∧ at2 (res_labels r) s = at2 (res_labels r) c
             ∧ ∀ c', at2 (res_labels r) c' = at2 (res_labels r) c →
                     linked (res_labels r) s c'
                     ∧ elev_eqb (at2 S2_elevations c') (at2 S2_elevations s) = true.
Proof.
  apply (@labels_tell_flats_apart nf0 Z Z_ElevOps S2_elevations S2_flowdirs blank blank 504).
  - exact Z_ElevLaws.
  - reflexivity.
  - reflexivity.
  - vm_compute. lia.
Defined.

(** X11 on scenario S2. *)
Lemma flats_get_directions_S2 :
  ∃ r,
    @resolve_flats_barnes nf0 Z Z_ElevOps 504 S2_elevations S2_flowdirs blank blank = Done r
    ∧ ∀ c, c ∈ interior_cells S2_flowdirs → 0 < at2 (res_labels r) c →
        at2 S2_flowdirs c = @NO_FLOW nf0 →
        at2 (@d8_flow_flats nf0 (res_flat_mask r) (res_labels r) S2_flowdirs) c ∈ d8_range
        ∧ at2 (res_labels r)
              (neighbour c
                 (at2 (@d8_flow_flats nf0 (res_flat_mask r) (res_labels r) S2_flowdirs) c))
          = at2 (res_labels r) c
        ∧ at2 (res_flat_mask r)
              (neighbour c
                 (at2 (@d8_flow_flats nf0 (res_flat_mask r) (res_labels r) S2_flowdirs) c))
          < at2 (res_flat_mask r) c.
Proof.
  apply (@flats_get_directions nf0 Z Z_ElevOps S2_elevations S2_flowdirs blank blank 504).
  - exact Z_ElevLaws.
  - reflexivity.
  - reflexivity.
  - by vm_compute.
  - cbn. lia.
  - apply nodata_apartb_spec. by vm_compute.
  - vm_compute. lia.
Defined.

(** X12 on scenario S3, the pit: no cell is given a direction. *)
Lemma unlabelled_cells_keep_directions_S3 :
  ∃ r,
    @resolve_flats_barnes nf0 Z Z_ElevOps 504 S3_elevations S3_flowdirs blank blank = Done r
    ∧ ∀ c, at2 (res_labels r) c = 0 →
        at2 (@d8_flow_flats nf0 (res_flat_mask r) (res_labels r) S3_flowdirs) c
        = at2 S3_flowdirs c.
Proof.
  apply (@unlabelled_cells_keep_directions nf0 Z Z_ElevOps S3_elevations S3_flowdirs
           blank blank 504).
  - exact Z_ElevLaws.
  - reflexivity.
  - reflexivity.
  - by vm_compute.
  - cbn. lia.
  - apply nodata_apartb_spec. by vm_compute.
  - vm_compute. lia.
Defined.

(** X13 on scenario S2. *)
Lemma flats_drain_S2 :
  ∃ r,
    @resolve_flats_barnes nf0 Z Z_ElevOps 504 S2_elevations S2_flowdirs blank blank = Done r
    ∧ ∀ c, 0 < at2 (res_labels r) c →
        ∃ k, (k ≤ Z.to_nat (at2 (res_flat_mask r) c))%nat
          ∧ at2 (res_labels r)
                (follow (@d8_flow_flats nf0 (res_flat_mask r) (res_labels r) S2_flowdirs) k c)
            = at2 (res_labels r) c
          ∧ (at2 S2_flowdirs
                 (follow (@d8_flow_flats nf0 (res_flat_mask r) (res_labels r) S2_flowdirs) k c)
             ≠ @NO_FLOW nf0
             ∨ follow (@d8_flow_flats nf0 (res_flat_mask r) (res_labels r) S2_flowdirs) k c
               ∉ interior_cells S2_flowdirs)
          ∧ ∀ j, (j < k)%nat →
              follow (@d8_flow_flats nf0 (res_flat_mask r) (res_labels r) S2_flowdirs) j c
              ∈ interior_cells S2_flowdirs
              ∧ at2 S2_flowdirs
                    (follow (@d8_flow_flats nf0 (res_flat_mask r) (res_labels r) S2_flowdirs)
                            j c)
                = @NO_FLOW nf0.
Proof.
  apply (@flats_drain nf0 Z Z_ElevOps S2_elevations S2_flowdirs blank blank 504).
  - exact Z_ElevLaws.
  - reflexivity.
  - reflexivity.
  - by vm_compute.
  - cbn. lia.
  - apply nodata_apartb_spec. by vm_compute.
  - vm_compute. lia.
Defined.

(** X14 on scenario S2. *)
Lemma resolve_flats_barnes_fits_int32_S2 :
  ∃ r,
    @resolve_flats_barnes nf0 Z Z_ElevOps 504 S2_elevations S2_flowdirs blank blank = Done r
    ∧ ∀ c, - 2 ^ 31 ≤ at2 (res_flat_mask r) c < 2 ^ 31
           ∧ - (Z.of_nat (length (all_cells S2_flowdirs)) + 1) ≤ at2 (res_flat_mask r) c
             ≤ 3 * (Z.of_nat (length (all_cells S2_flowdirs)) + 1)
           ∧ 0 ≤ at2 (res_labels r) c ≤ Z.of_nat (length (all_cells S2_flowdirs)).
Proof.
  apply (@resolve_flats_barnes_fits_int32 nf0 Z Z_ElevOps S2_elevations S2_flowdirs
           blank blank 504).
  - reflexivity.
  - reflexivity.
  - vm_compute. lia.
  - by vm_compute.
Defined.

(** X15 on scenario S2, where the border cell [(4,2)] is a high edge
    without a label. *)
Lemma not_all_outlets_reported_S2 :
  ∃ r,
    @resolve_flats_barnes nf0 Z Z_ElevOps 504 S2_elevations S2_flowdirs blank blank = Done r
    ∧ ((res_log r = [NotAllOutlets]
        ∧ ∃ s, s ∈ (@find_flat_edges nf0 Z Z_ElevOps [] [] S2_flowdirs S2_elevations).2
               ∧ at2 (res_labels r) s = 0)
       ∨ (res_log r = []
          ∧ ∀ s, s ∈ (@find_flat_edges nf0 Z Z_ElevOps [] [] S2_flowdirs S2_elevations).2 →
                 0 < at2 (res_labels r) s)).
Proof.
  apply (@not_all_outlets_reported nf0 Z Z_ElevOps S2_elevations S2_flowdirs blank blank 504).
  - reflexivity.
  - reflexivity.
  - vm_compute. lia.
  - by vm_compute.
Defined.

(** X16 on scenario S2. *)
Lemma low_edges_hold_two_S2 :
  ∃ r,
    @resolve_flats_barnes nf0 Z Z_ElevOps 504 S2_elevations S2_flowdirs blank blank = Done r
    ∧ (∀ s, s ∈ (@find_flat_edges nf0 Z Z_ElevOps [] [] S2_flowdirs S2_elevations).1 →
            at2 (res_flat_mask r) s = 2)
    ∧ (∀ c, c ∉ (@find_flat_edges nf0 Z Z_ElevOps [] [] S2_flowdirs S2_elevations).1 →
            at2 (res_flat_mask r) c ≤ 0 ∨ 4 ≤ at2 (res_flat_mask r) c).
Proof.
  apply (@low_edges_hold_two nf0 Z Z_ElevOps S2_elevations S2_flowdirs blank blank 504).
  - reflexivity.
  - reflexivity.
  - vm_compute. lia.
Defined.

(** X17 on the flat at 1.0, the interior cells taken in reverse. *)
Lemma d8_flats_alter_dem_any_order_one :
  at2 (fst (fold_left (alter_cell Float one_mask one_labels)
                      (reverse (interior_cells one_mask))
                      (float_one_elevations, []))) (1, 1)
  = at2 (fst (d8_flats_alter_dem Float one_mask one_labels float_one_elevations)) (1, 1).
Proof.
  apply (d8_flats_alter_dem_any_order Float one_mask one_labels float_one_elevations
           (reverse (interior_cells one_mask))).
  apply reverse_Permutation.
Defined.

(** X19 on the flat at 1.0: the centre ends at the next [float]. *)
Lemma d8_flats_alter_dem_float_steps_one :
  at2 (fst (d8_flats_alter_dem Float one_mask one_labels float_one_elevations)) (1, 1)
  = Z.iter (at2 one_mask (1, 1)) (next_up Float) (at2 float_one_elevations (1, 1)).
Proof.
  apply (d8_flats_alter_dem_float_steps one_mask one_labels float_one_elevations (1, 1)).
  - cbn. lia.
  - cbn. lia.
  - by vm_compute.
Defined.

(** X20 on a raster of infinite elevations. *)
Lemma d8_flats_alter_dem_saturates_infinite :
  at2 (fst (d8_flats_alter_dem Double one_mask one_labels infinite_elevations)) (1, 1)
  = at2 infinite_elevations (1, 1).
Proof.
  apply (d8_flats_alter_dem_saturates one_mask one_labels infinite_elevations Double (1, 1)).
  by left.
Defined.

(** X21 on scenario S2. *)
Lemma final_mask_closed_form_S2 :
  ∃ r,
    @resolve_flats_barnes nf0 Z Z_ElevOps 504 S2_elevations S2_flowdirs blank blank = Done r
    ∧ ∀ c j,
        @min_hops nf0 S2_flowdirs (res_labels r)
          (@find_flat_edges nf0 Z Z_ElevOps [] [] S2_flowdirs S2_elevations).1 c j →
        (¬ @reached nf0 S2_flowdirs (res_labels r)
             (prune_high_edges (res_labels r)
                (@find_flat_edges nf0 Z Z_ElevOps [] [] S2_flowdirs S2_elevations).2) c →
         at2 (res_flat_mask r) c = 2 * (Z.of_nat j + 1))
        ∧ (∀ i,
             @min_hops nf0 S2_flowdirs (res_labels r)
               (prune_high_edges (res_labels r)
                  (@find_flat_edges nf0 Z Z_ElevOps [] [] S2_flowdirs S2_elevations).2) c i →
             ∃ h,
               at2 (res_flat_mask r) c = 2 * (Z.of_nat j + 1) + (h - (Z.of_nat i + 1))
               ∧ (∀ c' i', at2 (res_labels r) c' = at2 (res_labels r) c →
                    @min_hops nf0 S2_flowdirs (res_labels r)
                      (prune_high_edges (res_labels r)
                         (@find_flat_edges nf0 Z Z_ElevOps [] [] S2_flowdirs S2_elevations).2)
                      c' i' →
                    Z.of_nat i' + 1 ≤ h)
               ∧ (∃ c' i', at2 (res_labels r) c' = at2 (res_labels r) c
                    ∧ @min_hops nf0 S2_flowdirs (res_labels r)
                        (prune_high_edges (res_labels r)
                           (@find_flat_edges nf0 Z Z_ElevOps [] [] S2_flowdirs
                              S2_elevations).2) c' i'
                    ∧ h = Z.of_nat i' + 1)).
Proof.
  apply (@final_mask_closed_form nf0 Z Z_ElevOps S2_elevations S2_flowdirs blank blank 504).
  - reflexivity.
  - reflexivity.
  - vm_compute. lia.
  - by vm_compute.
Defined.

(** X22 on the masks of S5. *)
Lemma d8_masked_FlowDir_first_index_S5 :
  @d8_masked_FlowDir nf0 S5_mask S5_labels (1, 1) ≤ 3.
Proof.
  apply (@d8_masked_FlowDir_first_index nf0 S5_mask S5_labels (1, 1)).
  - cbn. lia.
  - vm_compute. repeat constructor.
  - repeat constructor.
  - reflexivity.
  - reflexivity.
  - reflexivity.
Defined.

(** X23 on a level raster of three by three cells. *)
Lemma level_raster_reports_no_flats_3x3 :
  ∃ r,
    @resolve_flats_barnes nf0 Z Z_ElevOps 0 level_elevations S5_flowdirs blank blank = Done r
    ∧ res_log r = [NoFlats]
    ∧ (∀ c, at2 (res_labels r) c = 0) ∧ (∀ c, at2 (res_flat_mask r) c = 0).
Proof.
  apply (@level_raster_reports_no_flats nf0 Z Z_ElevOps level_elevations S5_flowdirs
           blank blank 0).
  - intros c _. by left.
  - intros c n _ _ _. reflexivity.
Defined.
